(** * The RethinkDB-backed PFS driver (src/server/pfs/db/driver.go)

    A shallow embedding of the driver's metadata operations.  The database
    is an explicit value threaded through every operation; a table is the
    sequence of its documents, addressed by the document's primary key.
    Numbers are integers: a Go [uint64]/[int64] conversion is written out
    with its wrap-around, a ReQL sum is exact. *)

From Stdlib Require Import List String Ascii ZArith Bool Lia.
From Stdlib Require Import Sorted Permutation OrderedTypeEx DecimalString.
Import ListNotations.

Local Open Scope string_scope.
Local Open Scope Z_scope.

(** ** Go integer conversions *)

Definition uint64 (z : Z) : Z := z mod 2 ^ 64.
Definition int64 (z : Z) : Z := (z + 2 ^ 63) mod 2 ^ 64 - 2 ^ 63.

(** [*google_protobuf.Timestamp]: an opaque instant; a nil pointer is [None]. *)
Definition Timestamp := Z.

(** ** Errors the driver returns *)

Inductive error : Type :=
| ErrEmptyResult                      (* gorethink.ErrEmptyResult *)
| ErrNotFoundInIndex (table index : string)
                                      (* "%v not found in index %v of table %v" *)
| ErrInsertConflict                   (* duplicate primary key on Insert *)
| ErrFileNotFound (path repo commit : string)
                                      (* pfsserver.NewErrFileNotFound *)
| ErrConflictFileType                 (* ErrConflictFileTypeMsg *)
| ErrIsDirectory (repo commit path : string)
                                      (* "file %s/%s/%s is directory" *)
| ErrDeleteCommitNotSupported         (* "DeleteCommit is not supported" *)
| ErrReadMore                         (* "read more than we need; ..." *)
| ErrReQL                             (* a ReQL runtime error of the query *)
| ErrIndexOutOfRange                  (* Go runtime panic: index out of range *)
| ErrClockInterval                    (* error of libclock.GetClockIntervals *)
| ErrBlockStore.                      (* error of the block API client *)

Inductive result (A : Type) : Type :=
| Ok (a : A)
| Err (e : error).
Arguments Ok {A} a.
Arguments Err {A} e.

Definition bind {A B : Type} (r : result A) (k : A -> result B) : result B :=
  match r with
  | Ok a => k a
  | Err e => Err e
  end.

Notation "x <- r ;; k" := (bind r (fun x => k))
  (at level 61, r at next level, right associativity).

(** ** Documents (package persist) *)

Module Clock.
Record t : Type := mk { Branch : string; Clock : Z }.
End Clock.

Module BranchClock.
Record t : Type := mk { Clocks : list Clock.t }.
End BranchClock.

Module Repo.
Record t : Type := mk { Name : string; Created : option Timestamp; Size : Z }.
End Repo.

Module Commit.
Record t : Type := mk {
  ID : string;
  Repo : string;
  Started : option Timestamp;
  Finished : option Timestamp;
  Cancelled : bool;
  BranchClocks : list BranchClock.t;
  Provenance : list string;
  Size : Z
}.
End Commit.

Module ClockID.
Record t : Type := mk { ID : string; Repo : string; Branch : string; Clock : Z }.
End ClockID.

Module BlockRef.
Record t : Type := mk { Hash : string; Lower : Z; Upper : Z }.
End BlockRef.

Inductive FileType : Type :=
| FileType_NONE
| FileType_FILE
| FileType_DIR.

Definition FileType_eqb (a b : FileType) : bool :=
  match a, b with
  | FileType_NONE, FileType_NONE => true
  | FileType_FILE, FileType_FILE => true
  | FileType_DIR, FileType_DIR => true
  | _, _ => false
  end.

Module Diff.
Record t : Type := mk {
  ID : string;
  Repo : string;
  Delete : bool;
  CommitID : string;
  Path : string;
  BlockRefs : list BlockRef.t;
  FileType : FileType;
  Size : Z;
  BranchClocks : list BranchClock.t;
  Modified : option Timestamp
}.

(** [&persist.Diff{}]: every field at its zero value. *)
Definition zero : t := mk "" "" false "" "" [] FileType_NONE 0 [] None.
End Diff.

(** ** Tables

    A table holds documents; [key] projects the primary key.  [Get] is
    [Table.Get(key)], [Update] is [Get(key).Update(..)] (skipped when no
    document has the key), [Delete] is [Get(key).Delete()]. *)

Section Table.
Context {D : Type} (key : D -> string).

Definition Get (t : list D) (k : string) : option D :=
  find (fun d => String.eqb (key d) k) t.

Definition Update (t : list D) (k : string) (f : D -> D) : list D :=
  map (fun d => if String.eqb (key d) k then f d else d) t.

Definition Delete (t : list D) (k : string) : list D :=
  filter (fun d => negb (String.eqb (key d) k)) t.

(** [Insert(doc, InsertOpts{Conflict: resolve})] of one document: a new
    key appends the document, an existing key stores [resolve old new]
    in place, and an error of the resolver leaves the table as it is. *)
Fixpoint Upsert (resolve : D -> D -> result D) (t : list D) (new : D)
  : result (list D) :=
  match t with
  | [] => Ok [new]
  | old :: rest =>
      if String.eqb (key old) (key new)
      then d <- resolve old new ;; Ok (d :: rest)
      else rest' <- Upsert resolve rest new ;; Ok (old :: rest')
  end.

(** A batch insert treats its documents one by one: a document whose
    resolver fails is not written, the others are, and the write reports
    the first error. *)
Fixpoint UpsertAll (resolve : D -> D -> result D) (t : list D) (news : list D)
  : list D * option error :=
  match news with
  | [] => (t, None)
  | new :: news' =>
      match Upsert resolve t new with
      | Ok t' => UpsertAll resolve t' news'
      | Err e => (fst (UpsertAll resolve t news'), Some e)
      end
  end.
End Table.

Record DB : Type := mkDB {
  repoTable : list Repo.t;
  commitTable : list Commit.t;
  diffTable : list Diff.t;
  clockTable : list ClockID.t
}.

Definition set_repoTable (d : DB) (t : list Repo.t) : DB :=
  mkDB t (commitTable d) (diffTable d) (clockTable d).
Definition set_commitTable (d : DB) (t : list Commit.t) : DB :=
  mkDB (repoTable d) t (diffTable d) (clockTable d).
Definition set_diffTable (d : DB) (t : list Diff.t) : DB :=
  mkDB (repoTable d) (commitTable d) t (clockTable d).

(** ** Parsing commit references *)

(** [strings.Split(s, "/")]. *)
Fixpoint split_slash (s : string) : list string :=
  match s with
  | EmptyString => [EmptyString]
  | String a r =>
      if Ascii.eqb a "/"%char then EmptyString :: split_slash r
      else match split_slash r with
           | p :: ps => String a p :: ps
           | [] => [String a EmptyString]
           end
  end.

Definition is_digit (a : ascii) : bool :=
  let n := Z.of_nat (nat_of_ascii a) in (48 <=? n) && (n <=? 57).

Fixpoint digits_value (acc : Z) (s : string) : option Z :=
  match s with
  | EmptyString => Some acc
  | String a r =>
      if is_digit a
      then digits_value (10 * acc + (Z.of_nat (nat_of_ascii a) - 48)) r
      else None
  end.

(** [strconv.Atoi] on a 64-bit platform: an optional sign, at least one
    decimal digit, a value in the range of [int]. *)
Definition Atoi (s : string) : option Z :=
  let '(neg, body) :=
    match s with
    | String "+"%char r => (false, r)
    | String "-"%char r => (true, r)
    | _ => (false, s)
    end in
  match body with
  | EmptyString => None
  | _ =>
      match digits_value 0 body with
      | Some v =>
          let v' := if neg then - v else v in
          if (- 2 ^ 63 <=? v') && (v' <? 2 ^ 63) then Some v' else None
      | None => None
      end
  end.

(** [parseClock]: "branch/clock" to a Clock; [None] is the error return. *)
Definition parseClock (clock : string) : option Clock.t :=
  match split_slash clock with
  | [branch; n] =>
      match Atoi n with
      | Some c => Some (Clock.mk branch (uint64 c))
      | None => None
      end
  | _ => None
  end.

(** ** Client-side messages (package pfs) *)

Module pfs.
Record Commit : Type := mkCommit { Repo : string; ID : string }.

Inductive CommitType : Type :=
| CommitType_COMMIT_TYPE_READ
| CommitType_COMMIT_TYPE_WRITE.

Record CommitInfo : Type := mkCommitInfo {
  Commit_ : Commit;
  Branch : string;
  Started : option Timestamp;
  Finished : option Timestamp;
  Cancelled : bool;
  CommitType_ : CommitType;
  SizeBytes : Z
}.

Record File : Type := mkFile { FileCommit : Commit; Path : string }.

Inductive FileType : Type :=
| FileType_FILE_TYPE_REGULAR
| FileType_FILE_TYPE_DIR.

Record FileInfo : Type := mkFileInfo {
  File_ : File;
  FileType_ : option FileType;
  Modified : option Timestamp;
  CommitModified : option Commit;
  FileSizeBytes : Z;
  Children : list File
}.
End pfs.

(** ** Clocks and the CommitBranch index *)

Definition lastClock (bc : BranchClock.t) : option Clock.t :=
  nth_error (BranchClock.Clocks bc) (List.length (BranchClock.Clocks bc) - 1).

(** Modelled from the spec: libclock.GetBranchNameFromBranchClock, which is
    not among the sources; [branch_name(bc)] returns the last clock's
    branch. *)
Definition GetBranchNameFromBranchClock (bc : BranchClock.t) : string :=
  match lastClock bc with
  | Some c => Clock.Branch c
  | None => ""
  end.

Definition IndexKey : Type := (string * string * Z)%type.

Definition IndexKey_eqb (a b : IndexKey) : bool :=
  let '(r1, b1, n1) := a in
  let '(r2, b2, n2) := b in
  String.eqb r1 r2 && String.eqb b1 b2 && (n1 =? n2).

(** Modelled from the spec: CommitBranchIndex, declared outside the
    sources; its key is [(repo, branch, n)], one per branch the commit
    appears on, taken from the last clock of each of its branch clocks. *)
Definition CommitBranchIndex_keys (c : Commit.t) : list IndexKey :=
  flat_map (fun bc =>
              match lastClock bc with
              | Some cl => [(Commit.Repo c, Clock.Branch cl, Clock.Clock cl)]
              | None => []
              end)
           (Commit.BranchClocks c).

(** The documents of the branch, each with the clock it is indexed at. *)
Definition commitsOfBranch (d : DB) (repo branch : string) : list (Z * Commit.t) :=
  flat_map (fun c =>
              flat_map (fun k : IndexKey =>
                          let '(r, b, n) := k in
                          if String.eqb r repo && String.eqb b branch && (0 <=? n)
                          then [(n, c)] else [])
                       (CommitBranchIndex_keys c))
           (commitTable d).

Definition later (best : option (Z * Commit.t)) (x : Z * Commit.t)
  : option (Z * Commit.t) :=
  match best with
  | None => Some x
  | Some b => if fst b <? fst x then Some x else Some b
  end.

(** [getHeadOfBranch]: the branch's commits in descending index order,
    [cursor.One] takes the first. *)
Definition getHeadOfBranch (d : DB) (repo branch : string) : result Commit.t :=
  match fold_left later (commitsOfBranch d repo branch) None with
  | Some (_, c) => Ok c
  | None => Err ErrEmptyResult
  end.

(** [getMessageByIndex(commitTable, CommitBranchIndex, key, ..)]. *)
Definition getCommitByIndex (d : DB) (k : IndexKey) : result Commit.t :=
  match find (fun c => existsb (IndexKey_eqb k) (CommitBranchIndex_keys c))
             (commitTable d) with
  | Some c => Ok c
  | None => Err (ErrNotFoundInIndex "Commits" "CommitBranchIndex")
  end.

Definition getCommitByAmbiguousID (d : DB) (repo commitID : string)
  : result Commit.t :=
  match parseClock commitID with
  | None =>
      match getHeadOfBranch d repo commitID with
      | Ok commit => Ok commit
      | Err _ =>
          match Get Commit.ID (commitTable d) commitID with
          | Some commit => Ok commit
          | None => Err ErrEmptyResult
          end
      end
  | Some alias =>
      getCommitByIndex d (repo, Clock.Branch alias, Clock.Clock alias)
  end.

Definition getIDOfParentCommit (d : DB) (repo commitID : string) : result string :=
  commit <- getCommitByAmbiguousID d repo commitID ;;
  match Commit.BranchClocks commit with
  | [] => Err ErrIndexOutOfRange
  | onlyBranch :: _ =>
      let clocks := BranchClock.Clocks onlyBranch in
      let numClocks := List.length clocks in
      match nth_error clocks (numClocks - 1) with
      | None => Err ErrIndexOutOfRange
      | Some clock =>
          let lookup (branch : string) (n : Z) :=
            parentCommit <- getCommitByIndex d (Commit.Repo commit, branch, n) ;;
            Ok (Commit.ID parentCommit) in
          if Clock.Clock clock =? 0 then
            if (numClocks <? 2)%nat then Ok ""
            else match nth_error clocks (numClocks - 2) with
                 | Some clock' => lookup (Clock.Branch clock') (Clock.Clock clock')
                 | None => Err ErrIndexOutOfRange
                 end
          else lookup (Clock.Branch clock) (uint64 (Clock.Clock clock - 1))
      end
  end.

(** ** Commit size *)

Definition addSize (left right : Diff.t) : Diff.t :=
  Diff.mk (Diff.ID left) (Diff.Repo left) (Diff.Delete left) (Diff.CommitID left)
          (Diff.Path left) (Diff.BlockRefs left) (Diff.FileType left)
          (Diff.Size left + Diff.Size right)
          (Diff.BranchClocks left) (Diff.Modified left).

(** ReQL [Reduce(f).Default(d)]: the elements combined left to right, the
    default on an empty sequence. *)
Definition Reduce {A : Type} (f : A -> A -> A) (default : A) (l : list A) : A :=
  match l with
  | [] => default
  | x :: xs => fold_left f xs x
  end.

(** Modelled from the spec: DiffCommitIndex, declared outside the sources;
    its key is the diff's [commit_id]. *)
Definition DiffCommitIndex_key (diff : Diff.t) : string := Diff.CommitID diff.

Definition diffsOfCommit (d : DB) (commitID : string) : list Diff.t :=
  filter (fun diff => String.eqb (DiffCommitIndex_key diff) commitID) (diffTable d).

Definition computeCommitSize (d : DB) (commitID : string) : Z :=
  Diff.Size (Reduce addSize Diff.zero (diffsOfCommit d commitID)).

(** ** Repositories *)

Definition DeleteRepo (d : DB) (repo : string) : DB * option error :=
  (set_repoTable d (Delete Repo.Name (repoTable d) repo), None).

(** ** Commits *)

(** What a call of FinishCommit comes to: it returns, with the database it
    leaves and its error, or it stays in the change feed of a parent that
    is not finished. *)
Inductive finish : Type :=
| Returned (d : DB) (err : option error)
| WaitsForParent (parentID : string).

Definition addRepoSize (size : Z) (r : Repo.t) : Repo.t :=
  Repo.mk (Repo.Name r) (Repo.Created r) (Repo.Size r + size).

Definition finishedCommit (rawCommit : Commit.t) (size : Z)
  (finished : option Timestamp) (cancelled : bool) : Commit.t :=
  Commit.mk (Commit.ID rawCommit) (Commit.Repo rawCommit)
            (Commit.Started rawCommit) finished cancelled
            (Commit.BranchClocks rawCommit) (Commit.Provenance rawCommit) size.

(** The first change of the parent's feed that shows it finished carries
    its cancelled flag; [None] when no such change is there yet. *)
Definition parentFinished (d : DB) (parentID : string) : option bool :=
  match Get Commit.ID (commitTable d) parentID with
  | Some parent =>
      match Commit.Finished parent with
      | Some _ => Some (Commit.Cancelled parent)
      | None => None
      end
  | None => None
  end.

(** [FinishCommit] on a database that no other client writes during the
    call and whose writes go through: a parent that is not finished then
    keeps the call in its change feed.  [Live.FinishCommit] below is the
    call among other clients. *)
Definition FinishCommit (d : DB) (commit : pfs.Commit)
  (finished : option Timestamp) (cancel : bool) : finish :=
  match getCommitByAmbiguousID d (pfs.Repo commit) (pfs.ID commit) with
  | Err e => Returned d (Some e)
  | Ok rawCommit =>
      let size := computeCommitSize d (Commit.ID rawCommit) in
      match getIDOfParentCommit d (pfs.Repo commit) (pfs.ID commit) with
      | Err e => Returned d (Some e)
      | Ok parentID =>
          let parentCancelled :=
            if String.eqb parentID "" then Some false
            else parentFinished d parentID in
          match parentCancelled with
          | None => WaitsForParent parentID
          | Some parentCancelled =>
              let d1 := set_repoTable d
                          (Update Repo.Name (repoTable d) (Commit.Repo rawCommit)
                                  (addRepoSize size)) in
              let rawCommit' :=
                finishedCommit rawCommit size finished (parentCancelled || cancel) in
              Returned (set_commitTable d1
                          (Update Commit.ID (commitTable d1) (Commit.ID rawCommit)
                                  (fun _ => rawCommit')))
                       None
          end
      end
  end.

Definition rawCommitToCommitInfo (rawCommit : Commit.t) : pfs.CommitInfo :=
  let branch :=
    match Commit.BranchClocks rawCommit with
    | bc :: _ => GetBranchNameFromBranchClock bc
    | [] => ""
    end in
  let commitType :=
    match Commit.Finished rawCommit with
    | None => pfs.CommitType_COMMIT_TYPE_WRITE
    | Some _ => pfs.CommitType_COMMIT_TYPE_READ
    end in
  pfs.mkCommitInfo (pfs.mkCommit (Commit.Repo rawCommit) (Commit.ID rawCommit))
                   branch (Commit.Started rawCommit) (Commit.Finished rawCommit)
                   (Commit.Cancelled rawCommit) commitType (Commit.Size rawCommit).

Definition InspectCommit (d : DB) (commit : pfs.Commit) : result pfs.CommitInfo :=
  rawCommit <- getCommitByAmbiguousID d (pfs.Repo commit) (pfs.ID commit) ;;
  let commitInfo := rawCommitToCommitInfo rawCommit in
  let sizeBytes :=
    match pfs.Finished commitInfo with
    | None => computeCommitSize d (Commit.ID rawCommit)
    | Some _ => pfs.SizeBytes commitInfo
    end in
  Ok (pfs.mkCommitInfo
        (pfs.mkCommit (pfs.Repo (pfs.Commit_ commitInfo)) (pfs.ID commit))
        (pfs.Branch commitInfo) (pfs.Started commitInfo) (pfs.Finished commitInfo)
        (pfs.Cancelled commitInfo) (pfs.CommitType_ commitInfo) sizeBytes).

Definition DeleteCommit (d : DB) (commit : pfs.Commit) : DB * option error :=
  (d, Some ErrDeleteCommitNotSupported).

Inductive MergeStrategy : Type := MergeStrategy_SQUASH | MergeStrategy_REPLAY.

(** [Merge] returns [&pfs.Commits{}, nil]. *)
Definition Merge (d : DB) (from : list pfs.Commit) (parent : pfs.Commit)
  (strategy : MergeStrategy) : DB * result (list pfs.Commit) :=
  (d, Ok []).

(** ** Paths *)

Fixpoint lastChar (s : string) : option ascii :=
  match s with
  | EmptyString => None
  | String a EmptyString => Some a
  | String _ r => lastChar r
  end.

Fixpoint dropLast (s : string) : string :=
  match s with
  | EmptyString => EmptyString
  | String a EmptyString => EmptyString
  | String a r => String a (dropLast r)
  end.

(** [fixPath]: a leading slash is added when missing, one trailing slash is
    removed from a path longer than one byte. *)
Definition fixPath (path : string) : string :=
  let path1 :=
    match path with
    | String c _ => if Ascii.eqb c "/"%char then path else "/" ++ path
    | EmptyString => "/" ++ path
    end in
  match lastChar path1 with
  | Some c =>
      if (1 <? String.length path1)%nat && Ascii.eqb c "/"%char
      then dropLast path1 else path1
  | None => path1
  end.

Fixpoint prefixesFrom (prefix : string) (parts : list string) : list string :=
  match parts with
  | [] => []
  | part :: rest =>
      if String.eqb part "" then prefixesFrom prefix rest
      else let prefix' := prefix ++ "/" ++ part in
           prefix' :: prefixesFrom prefix' rest
  end.

(** [getPrefixes]: the loop runs over all parts but the last. *)
Definition getPrefixes (path : string) : list string :=
  prefixesFrom "" (removelast (split_slash path)).

Definition getDiffID (commitID path : string) : string :=
  commitID ++ ":" ++ path.

(** Modelled from the spec: persist.BlockRef.Size, declared outside the
    sources; a block ref [(hash, lower, upper)] points to the slice between
    its two byte offsets. *)
Definition BlockRef_Size (ref : BlockRef.t) : Z :=
  uint64 (BlockRef.Upper ref - BlockRef.Lower ref).

(** ** Shards *)

(** Modelled from the spec: pfsserver.FileInShard and pfsserver.BlockInShard,
    the predicates of the sharding layer; a shard is the pair of predicates
    it stands for, and without a shard nothing is filtered out.  A nil
    block is [None]. *)
Record Shard : Type := mkShard {
  fileInShard : pfs.File -> bool;
  blockInShard : pfs.File -> option string -> bool
}.

Definition FileInShard (shard : option Shard) (file : pfs.File) : bool :=
  match shard with
  | Some s => fileInShard s file
  | None => true
  end.

Definition BlockInShard (shard : option Shard) (file : pfs.File)
  (block : option string) : bool :=
  match shard with
  | Some s => blockInShard s file block
  | None => true
  end.

Definition filterBlockRefs (filterShard : option Shard) (file : pfs.File)
  (blockRefs : list BlockRef.t) : list BlockRef.t :=
  filter (fun blockRef => BlockInShard filterShard file (Some (BlockRef.Hash blockRef)))
         blockRefs.

(** ** Clock intervals *)

Definition Interval : Type := (BranchClock.t * BranchClock.t)%type.

Definition Clock_eqb (a b : Clock.t) : bool :=
  String.eqb (Clock.Branch a) (Clock.Branch b) && (Clock.Clock a =? Clock.Clock b).

(** The runs of the branches that follow [prefix], each from its clock 0. *)
Fixpoint runsFromRoot (prefix : list Clock.t) (clocks : list Clock.t) : list Interval :=
  match clocks with
  | [] => []
  | c :: rest =>
      (BranchClock.mk (prefix ++ [Clock.mk (Clock.Branch c) 0]),
       BranchClock.mk (prefix ++ [c]))
        :: runsFromRoot (prefix ++ [c]) rest
  end.

Fixpoint runsAfter (prefix from to : list Clock.t) : result (list Interval) :=
  match to with
  | [] => Err ErrClockInterval
  | c :: rest =>
      match from with
      | [] => Err ErrClockInterval
      | [f] =>
          if String.eqb (Clock.Branch f) (Clock.Branch c)
             && (Clock.Clock f <=? Clock.Clock c)
          then Ok ((if Clock.Clock f <? Clock.Clock c
                    then [(BranchClock.mk
                             (prefix ++ [Clock.mk (Clock.Branch c) (Clock.Clock f + 1)]),
                           BranchClock.mk (prefix ++ [c]))]
                    else [])
                     ++ runsFromRoot (prefix ++ [c]) rest)%list
          else Err ErrClockInterval
      | f :: from' =>
          if Clock_eqb f c then runsAfter (prefix ++ [c]) from' rest
          else Err ErrClockInterval
      end
  end.

(** Modelled from the spec: libclock.GetClockIntervals, which is not among
    the sources; [intervals(from_bc, to_bc)] decomposes the ancestry walk
    from [from_bc] (exclusive; the root when nil) to [to_bc] (inclusive)
    into per-branch linear runs, so that from the root to
    [[(master,3),(dev,2)]] it gives [(master,0)..(master,3)] and
    [(dev,0)..(dev,2)]. *)
Definition GetClockIntervals (fromClock : option BranchClock.t)
  (toClock : BranchClock.t) : result (list Interval) :=
  match fromClock with
  | None => Ok (runsFromRoot [] (BranchClock.Clocks toClock))
  | Some from =>
      runsAfter [] (BranchClock.Clocks from) (BranchClock.Clocks toClock)
  end.

(** A branch clock as the ReQL array of its [[branch, clock]] pairs. *)
Definition ClockArray : Type := list (string * Z).

(** Modelled from the spec: persist.BranchClockToArray, declared outside
    the sources; it gives the branch clock as the array of its
    [[branch, clock]] pairs, which is how [intervalToClocks] takes it
    apart. *)
Definition BranchClockToArray (bc : BranchClock.t) : ClockArray :=
  map (fun c => (Clock.Branch c, Clock.Clock c)) (BranchClock.Clocks bc).

(** [arr.Nth(-1).Nth(1)]: an error of the query on an empty array. *)
Definition lastClockOf (arr : ClockArray) : result Z :=
  match rev arr with
  | (_, n) :: _ => Ok n
  | [] => Err ErrReQL
  end.

(** [arr.ChangeAt(-1, arr.Nth(-1).ChangeAt(1, x))]. *)
Definition changeLast (arr : ClockArray) (x : Z) : ClockArray :=
  match rev arr with
  | (b, _) :: r => (rev r ++ [(b, x)])%list
  | [] => []
  end.

(** ReQL [Range(lo, hi)]: the integers from [lo] up to [hi], [hi] excluded. *)
Definition Range (lo hi : Z) : list Z :=
  map (fun i => lo + Z.of_nat i) (seq 0 (Z.to_nat (hi - lo))).

Definition clocksOfInterval (reverse : bool) (interval : Interval)
  : result (list ClockArray) :=
  let firstClock := BranchClockToArray (fst interval) in
  let secondClock := BranchClockToArray (snd interval) in
  lo <- lastClockOf firstClock ;;
  hi <- lastClockOf secondClock ;;
  Ok (if reverse
      then map (fun x => changeLast firstClock (0 - x)) (Range (0 - hi) (0 - lo + 1))
      else map (fun x => changeLast firstClock x) (Range lo (hi + 1))).

Fixpoint ConcatMap {A B : Type} (f : A -> result (list B)) (l : list A)
  : result (list B) :=
  match l with
  | [] => Ok []
  | x :: xs => ys <- f x ;; zs <- ConcatMap f xs ;; Ok (ys ++ zs)%list
  end.

Definition intervalToClocks (fromClock : option BranchClock.t)
  (toClock : BranchClock.t) (reverse : bool) : result (list ClockArray) :=
  intervals <- GetClockIntervals fromClock toClock ;;
  ConcatMap (clocksOfInterval reverse) (if reverse then rev intervals else intervals).

Definition getClockByAmbiguousID (d : DB) (repo commitID : string)
  : result BranchClock.t :=
  commit <- getCommitByAmbiguousID d repo commitID ;;
  match Commit.BranchClocks commit with
  | bc :: _ => Ok bc
  | [] => Err ErrIndexOutOfRange
  end.

Definition getIntervalQueryFromCommitRange (d : DB)
  (fromCommit : option pfs.Commit) (toCommit : pfs.Commit)
  : result (list ClockArray) :=
  fromClock <-
    match fromCommit with
    | Some c => bc <- getClockByAmbiguousID d (pfs.Repo c) (pfs.ID c) ;; Ok (Some bc)
    | None => Ok None
    end ;;
  toClock <- getClockByAmbiguousID d (pfs.Repo toCommit) (pfs.ID toCommit) ;;
  intervalToClocks fromClock toClock true.

(** ** Ordering *)

Section Sort.
Context {A : Type} (leb : A -> A -> bool).

Fixpoint insertSorted (x : A) (l : list A) : list A :=
  match l with
  | [] => [x]
  | y :: l' => if leb x y then x :: l else y :: insertSorted x l'
  end.

Definition sortBy (l : list A) : list A := fold_right insertSorted [] l.

(** The order a boolean comparison decides. *)
Definition leRel (a b : A) : Prop := leb a b = true.
End Sort.

(** ReQL orders arrays lexicographically, a [[branch, clock]] pair by its
    branch and then by its clock. *)
Definition pair_compare (a b : string * Z) : comparison :=
  match String.compare (fst a) (fst b) with
  | Eq => Z.compare (snd a) (snd b)
  | c => c
  end.

Fixpoint ClockArray_compare (a b : ClockArray) : comparison :=
  match a, b with
  | [], [] => Eq
  | [], _ :: _ => Lt
  | _ :: _, [] => Gt
  | x :: a', y :: b' =>
      match pair_compare x y with
      | Eq => ClockArray_compare a' b'
      | c => c
      end
  end.

Definition ClockArray_leb (a b : ClockArray) : bool :=
  match ClockArray_compare a b with
  | Gt => false
  | _ => true
  end.

Definition ClockArray_eqb (a b : ClockArray) : bool :=
  match ClockArray_compare a b with
  | Eq => true
  | _ => false
  end.

(** ** The read-side fold *)

(** The key [foldDiffs] orders by:
    [BranchClockToArray(diff.Field("BranchClocks").Nth(0))]. *)
Definition orderKey (diff : Diff.t) : ClockArray :=
  match Diff.BranchClocks diff with
  | bc :: _ => BranchClockToArray bc
  | [] => []
  end.

Definition hasBranchClock (diff : Diff.t) : bool :=
  match Diff.BranchClocks diff with
  | _ :: _ => true
  | [] => false
  end.

Definition clockLeb (a b : Diff.t) : bool := ClockArray_leb (orderKey a) (orderKey b).

(** [OrderBy] on the first branch clock; [Nth(0)] of a diff without branch
    clocks is an error of the query. *)
Definition OrderByClock (l : list Diff.t) : result (list Diff.t) :=
  if forallb hasBranchClock l then Ok (sortBy clockLeb l) else Err ErrReQL.

Definition unionOrdered (left : result (list Diff.t)) (right : list Diff.t)
  : result (list Diff.t) :=
  l <- left ;; OrderByClock (l ++ right).

(** The function folded over the ordered diffs. *)
Definition foldStep (acc diff : Diff.t) : Diff.t :=
  if Diff.Delete diff
  then Diff.mk (Diff.ID acc) (Diff.Repo acc) (Diff.Delete acc)
               (Diff.CommitID diff) (Diff.Path diff) (Diff.BlockRefs diff)
               (Diff.FileType diff) (Diff.Size diff)
               (Diff.BranchClocks acc) (Diff.Modified diff)
  else Diff.mk (Diff.ID acc) (Diff.Repo acc) (Diff.Delete acc)
               (Diff.CommitID diff) (Diff.Path diff)
               (Diff.BlockRefs acc ++ Diff.BlockRefs diff)
               (Diff.FileType diff) (Diff.Size acc + Diff.Size diff)
               (Diff.BranchClocks acc) (Diff.Modified diff).

(** The array [foldDiffs] folds over: every diff as a one-element array,
    the arrays reduced by union-and-order, the empty array by default. *)
Definition orderedDiffs (diffs : list Diff.t) : result (list Diff.t) :=
  match map (fun diff => [diff]) diffs with
  | [] => Ok []
  | x :: xs => fold_left unionOrdered xs (Ok x)
  end.

Definition foldDiffs (diffs : list Diff.t) : result Diff.t :=
  ordered <- orderedDiffs diffs ;;
  Ok (fold_left foldStep ordered Diff.zero).

(** ** Diff indexes *)

Definition PathKey : Type := (string * string * ClockArray)%type.

Definition PathKey_eqb (a b : PathKey) : bool :=
  let '(r1, p1, c1) := a in
  let '(r2, p2, c2) := b in
  String.eqb r1 r2 && String.eqb p1 p2 && ClockArray_eqb c1 c2.

(** Modelled from the spec: DiffPathIndex, declared outside the sources;
    its key is [(repo, path, clock)], one per branch clock of the diff. *)
Definition DiffPathIndex_keys (diff : Diff.t) : list PathKey :=
  map (fun bc => (Diff.Repo diff, Diff.Path diff, BranchClockToArray bc))
      (Diff.BranchClocks diff).

(** The directory a path lies in. *)
Definition parentOf (path : string) : string :=
  match String.concat "/" (removelast (split_slash path)) with
  | EmptyString => "/"
  | parent => parent
  end.

(** Modelled from the spec: DiffParentIndex, declared outside the sources;
    its key is [(repo, parent_dir, clock)] and it lists a single directory
    level. *)
Definition DiffParentIndex_keys (diff : Diff.t) : list PathKey :=
  map (fun bc => (Diff.Repo diff, parentOf (Diff.Path diff), BranchClockToArray bc))
      (Diff.BranchClocks diff).

(** [keys.EqJoin(identity, table, index).Field("right")]: for every key of
    the stream, the documents the index has under it. *)
Definition EqJoin (index : Diff.t -> list PathKey) (keys : list PathKey)
  (table : list Diff.t) : list Diff.t :=
  flat_map (fun k => filter (fun diff => existsb (PathKey_eqb k) (index diff)) table)
           keys.

Definition pathDiffs (d : DB) (repo path : string) (query : list ClockArray)
  : list Diff.t :=
  EqJoin DiffPathIndex_keys (map (fun clocks => (repo, path, clocks)) query)
         (diffTable d).

Definition withBlockRefs (diff : Diff.t) (refs : list BlockRef.t) : Diff.t :=
  Diff.mk (Diff.ID diff) (Diff.Repo diff) (Diff.Delete diff) (Diff.CommitID diff)
          (Diff.Path diff) refs (Diff.FileType diff) (Diff.Size diff)
          (Diff.BranchClocks diff) (Diff.Modified diff).

Definition fileNotFound (file : pfs.File) : error :=
  ErrFileNotFound (pfs.Path file) (pfs.Repo (pfs.FileCommit file))
                  (pfs.ID (pfs.FileCommit file)).

Definition inspectFile (d : DB) (file : pfs.File) (filterShard : option Shard)
  (from : option pfs.Commit) : result Diff.t :=
  if negb (FileInShard filterShard file) then Err (fileNotFound file)
  else
    query <- getIntervalQueryFromCommitRange d from (pfs.FileCommit file) ;;
    diff <- foldDiffs (pathDiffs d (pfs.Repo (pfs.FileCommit file)) (pfs.Path file) query) ;;
    match Diff.BlockRefs diff with
    | [] =>
        if negb (BlockInShard filterShard file None) then Err (fileNotFound file)
        else Ok diff
    | _ :: _ =>
        match filterBlockRefs filterShard file (Diff.BlockRefs diff) with
        | [] => Err (fileNotFound file)
        | refs => Ok (withBlockRefs diff refs)
        end
    end.

Definition pathLeb (a b : Diff.t) : bool := String.leb (Diff.Path a) (Diff.Path b).

(** [getChildren]: the diffs of one directory level grouped by path, every
    group folded, the folds that are not NONE ordered by path. *)
Definition getChildren (d : DB) (repo parent : string)
  (fromCommit : option pfs.Commit) (toCommit : pfs.Commit) : result (list Diff.t) :=
  query <- getIntervalQueryFromCommitRange d fromCommit toCommit ;;
  let joined := EqJoin DiffParentIndex_keys
                       (map (fun clocks => (repo, parent, clocks)) query)
                       (diffTable d) in
  let paths := sortBy String.leb (nodup string_dec (map Diff.Path joined)) in
  reductions <-
    ConcatMap (fun path =>
                 r <- foldDiffs (filter (fun diff => String.eqb (Diff.Path diff) path)
                                        joined) ;;
                 Ok [r])
              paths ;;
  Ok (sortBy pathLeb
        (filter (fun diff => negb (FileType_eqb (Diff.FileType diff) FileType_NONE))
                reductions)).

Definition InspectFile (d : DB) (file : pfs.File) (filterShard : option Shard)
  (from : option pfs.Commit) : result pfs.FileInfo :=
  let file := pfs.mkFile (pfs.FileCommit file) (fixPath (pfs.Path file)) in
  let repo := pfs.Repo (pfs.FileCommit file) in
  diff <- inspectFile d file filterShard from ;;
  match Diff.FileType diff with
  | FileType_FILE =>
      Ok (pfs.mkFileInfo file (Some pfs.FileType_FILE_TYPE_REGULAR)
                         (Diff.Modified diff)
                         (Some (pfs.mkCommit repo (Diff.CommitID diff)))
                         (Diff.Size diff) [])
  | FileType_DIR =>
      childrenDiffs <- getChildren d repo (pfs.Path file) from (pfs.FileCommit file) ;;
      Ok (pfs.mkFileInfo file (Some pfs.FileType_FILE_TYPE_DIR)
                         (Diff.Modified diff) None 0
                         (map (fun diff =>
                                 pfs.mkFile (pfs.mkCommit repo (Diff.CommitID diff))
                                            (Diff.Path diff))
                              childrenDiffs))
  | FileType_NONE => Err (fileNotFound file)
  end.

(** ** Reading a file *)

(** The block API client as the reader uses it: [GetBlock(hash, offset,
    size)] gives the bytes its reader will deliver, or fails. *)
Record BlockAPIClient : Type := mkBlockAPIClient {
  GetBlock : string -> Z -> Z -> result (list ascii)
}.

Record fileReader : Type := mkFileReader {
  blockClient : BlockAPIClient;
  reader : option (list ascii);     (* the bytes left in the open block *)
  offset : Z;
  size : Z;                         (* how much data to read *)
  sizeRead : Z;                     (* how much data has been read *)
  blockRefs : list BlockRef.t;
  file : pfs.File
}.

Definition newFileReader (client : BlockAPIClient) (blockRefs : list BlockRef.t)
  (file : pfs.File) (offset size : Z) : fileReader :=
  mkFileReader client None offset size 0 blockRefs file.

Definition GetFile (client : BlockAPIClient) (d : DB) (file : pfs.File)
  (filterShard : option Shard) (offset size : Z) (from : option pfs.Commit)
  : result fileReader :=
  let file := pfs.mkFile (pfs.FileCommit file) (fixPath (pfs.Path file)) in
  diff <- inspectFile d file filterShard from ;;
  match Diff.FileType diff with
  | FileType_DIR =>
      Err (ErrIsDirectory (pfs.Repo (pfs.FileCommit file))
                          (pfs.ID (pfs.FileCommit file)) (pfs.Path file))
  | _ => Ok (newFileReader client (Diff.BlockRefs diff) file offset size)
  end.

(** The loop of [Read] over the block refs: whole blocks are dropped while
    the offset reaches past them; it ends at the block the offset falls in,
    or with no block left. *)
Fixpoint skipBlocks (offset : Z) (blockRefs : list BlockRef.t)
  : option BlockRef.t * Z * list BlockRef.t :=
  match blockRefs with
  | [] => (None, offset, [])
  | blockRef :: rest =>
      let blockSize := int64 (BlockRef_Size blockRef) in
      if blockSize <=? offset then skipBlocks (int64 (offset - blockSize)) rest
      else (Some blockRef, offset, rest)
  end.

Inductive ioError : Type :=
| io_EOF
| io_Err (e : error).

(** What [Read] returns: the count, the error, and the bytes it has put in
    the caller's buffer. *)
Record readResult : Type := mkReadResult {
  count : Z;
  readErr : option ioError;
  data : list ascii
}.

Definition withSource (r : fileReader) (reader : option (list ascii))
  (offset : Z) (blockRefs : list BlockRef.t) : fileReader :=
  mkFileReader (blockClient r) reader offset (size r) (sizeRead r) blockRefs (file r).

(** The second half of [Read]: one read of at most [n] bytes from the open
    block, which reports EOF once it has nothing left. *)
Definition readOpen (r : fileReader) (open : list ascii) (n : nat)
  : fileReader * readResult :=
  let '(bytes, reader') :=
    match open with
    | [] => ([], None)
    | _ :: _ => (firstn n open, Some (skipn n open))
    end in
  let got := Z.of_nat (List.length bytes) in
  let sizeRead' := int64 (sizeRead r + got) in
  let r' := mkFileReader (blockClient r) reader' (offset r) (size r) sizeRead'
                         (blockRefs r) (file r) in
  if sizeRead' =? size r then (r', mkReadResult got (Some io_EOF) bytes)
  else if (0 <? size r) && (size r <? sizeRead')
       then (r', mkReadResult 0 (Some (io_Err ErrReadMore)) bytes)
       else (r', mkReadResult got None bytes).

(** [fileReader.Read] with a buffer of [n] bytes. *)
Definition Read (r : fileReader) (n : nat) : fileReader * readResult :=
  match reader r with
  | Some open => readOpen r open n
  | None =>
      match skipBlocks (offset r) (blockRefs r) with
      | (None, offset', rest) =>
          (withSource r None offset' rest, mkReadResult 0 (Some io_EOF) [])
      | (Some blockRef, offset', rest) =>
          match GetBlock (blockClient r) (BlockRef.Hash blockRef)
                         (uint64 offset') (uint64 (size r)) with
          | Err e =>
              (withSource r None offset' rest, mkReadResult 0 (Some (io_Err e)) [])
          | Ok open => readOpen (withSource r (Some open) 0 rest) open n
          end
      end
  end.

(** ** Writing a file *)

Definition checkFileType (d : DB) (repo commit path : string) (typ : FileType)
  : option error :=
  match inspectFile d (pfs.mkFile (pfs.mkCommit repo commit) path) None None with
  | Err (ErrFileNotFound _ _ _) => None
  | Err e => Some e
  | Ok diff =>
      if negb (FileType_eqb (Diff.FileType diff) typ)
         && negb (FileType_eqb (Diff.FileType diff) FileType_NONE)
      then Some ErrConflictFileType
      else None
  end.

(** The [Conflict] function [PutFile] inserts with. *)
Definition putFileConflict (oldDoc newDoc : Diff.t) : result Diff.t :=
  if negb (FileType_eqb (Diff.FileType oldDoc) FileType_NONE)
     && negb (FileType_eqb (Diff.FileType oldDoc) (Diff.FileType newDoc))
  then Err ErrConflictFileType
  else Ok (Diff.mk (Diff.ID oldDoc) (Diff.Repo oldDoc) (Diff.Delete oldDoc)
                   (Diff.CommitID oldDoc) (Diff.Path oldDoc)
                   (Diff.BlockRefs oldDoc ++ Diff.BlockRefs newDoc)
                   (Diff.FileType newDoc)
                   (Diff.Size oldDoc + Diff.Size newDoc)
                   (Diff.BranchClocks oldDoc) (Diff.Modified newDoc)).

Definition dirDiff (commit : Commit.t) (prefix : string) (modified : Timestamp)
  : Diff.t :=
  Diff.mk (getDiffID (Commit.ID commit) prefix) (Commit.Repo commit) false
          (Commit.ID commit) prefix [] FileType_DIR 0
          (Commit.BranchClocks commit) (Some modified).

Definition fileDiff (commit : Commit.t) (path : string) (refs : list BlockRef.t)
  (size : Z) (modified : Timestamp) : Diff.t :=
  Diff.mk (getDiffID (Commit.ID commit) path) (Commit.Repo commit) false
          (Commit.ID commit) path refs FileType_FILE size
          (Commit.BranchClocks commit) (Some modified).

(** The diffs [PutFile] builds: a DIR diff per prefix, then the FILE diff;
    [now i] is the time of the [i]-th call of [now()]. *)
Definition putFileDiffs (commit : Commit.t) (path : string)
  (refs : list BlockRef.t) (now : nat -> Timestamp) : list Diff.t :=
  let prefixes := getPrefixes path in
  let size := fold_left (fun size ref => uint64 (size + BlockRef_Size ref)) refs 0 in
  (map (fun '(i, prefix) => dirDiff commit prefix (now i))
       (combine (seq 0 (List.length prefixes)) prefixes)
   ++ [fileDiff commit path refs size (now (List.length prefixes))])%list.

Fixpoint firstTypeConflict (d : DB) (diffs : list Diff.t) : option error :=
  match diffs with
  | [] => None
  | diff :: rest =>
      match checkFileType d (Diff.Repo diff) (Diff.CommitID diff) (Diff.Path diff)
                          (Diff.FileType diff) with
      | Some e => Some e
      | None => firstTypeConflict d rest
      end
  end.

(** [PutFile]; [putBlock] is what the block store returned for the bytes of
    the reader. *)
Definition PutFile (d : DB) (file : pfs.File) (putBlock : result (list BlockRef.t))
  (now : nat -> Timestamp) : DB * option error :=
  let path := fixPath (pfs.Path file) in
  match getCommitByAmbiguousID d (pfs.Repo (pfs.FileCommit file))
                               (pfs.ID (pfs.FileCommit file)) with
  | Err e => (d, Some e)
  | Ok commit =>
      match putBlock with
      | Err e => (d, Some e)
      | Ok refs =>
          let diffs := putFileDiffs commit path refs now in
          match firstTypeConflict d diffs with
          | Some e => (d, Some e)
          | None =>
              let '(table, err) :=
                UpsertAll Diff.ID putFileConflict (diffTable d) diffs in
              (set_diffTable d table, err)
          end
      end
  end.

(** ** A small repository

    Repo [r] with two commits on [master]: [c0], finished and cancelled,
    holding [/a/b] of two bytes, and its child [c1], still open, holding
    three more bytes of [/a/b]. *)

Definition master (n : Z) : BranchClock.t := BranchClock.mk [Clock.mk "master" n].

Definition commit0 : Commit.t :=
  Commit.mk "c0" "r" (Some 1) (Some 2) true [master 0] [] 2.

Definition commit1 : Commit.t :=
  Commit.mk "c1" "r" (Some 3) None false [master 1] [] 0.

Definition exampleDB : DB :=
  mkDB [Repo.mk "r" (Some 0) 2]
       [commit0; commit1]
       [dirDiff commit0 "/a" 1;
        fileDiff commit0 "/a/b" [BlockRef.mk "h0" 0 2] 2 1;
        dirDiff commit1 "/a" 4;
        fileDiff commit1 "/a/b" [BlockRef.mk "h1" 0 3] 3 4]
       [ClockID.mk "r/master/0" "r" "master" 0;
        ClockID.mk "r/master/1" "r" "master" 1].

(** * Vocabulary of the properties, and more example data *)

Definition sumSizes (l : list Diff.t) : Z :=
  fold_right (fun diff s => Diff.Size diff + s) 0 l.

(** The parent's cancelled flag as FinishCommit reads it: false without a
    parent, the stored flag of a finished parent. *)
Definition parentCancelledOf (d : DB) (parentID : string) : option bool :=
  if String.eqb parentID "" then Some false else parentFinished d parentID.

(** The database FinishCommit leaves when it goes through. *)
Definition finishedDB (d : DB) (rawCommit : Commit.t) (finished : option Timestamp)
  (cancelled : bool) : DB :=
  let size := computeCommitSize d (Commit.ID rawCommit) in
  let d1 := set_repoTable d (Update Repo.Name (repoTable d) (Commit.Repo rawCommit)
                                    (addRepoSize size)) in
  set_commitTable d1
    (Update Commit.ID (commitTable d1) (Commit.ID rawCommit)
            (fun _ => finishedCommit rawCommit size finished cancelled)).

(** No record of any of the four tables bears the repo name. *)
Definition noRecordOfRepo (d : DB) (name : string) : Prop :=
  (forall r, In r (repoTable d) -> Repo.Name r <> name)
  /\ (forall c, In c (commitTable d) -> Commit.Repo c <> name)
  /\ (forall c, In c (clockTable d) -> ClockID.Repo c <> name)
  /\ (forall x, In x (diffTable d) -> Diff.Repo x <> name).

(** The bytes the non-empty parts take with their separators, and the
    bytes all parts take. *)
Definition weight (parts : list string) : nat :=
  fold_right (fun part n =>
                (if String.eqb part "" then 0 else String.length part + 1) + n)%nat
             0%nat parts.

Definition total (parts : list string) : nat :=
  fold_right (fun part n => String.length part + 1 + n)%nat 0%nat parts.

(** A second put of [/a/b] in the open commit of the small repository. *)
Definition secondPut : pfs.File := pfs.mkFile (pfs.mkCommit "r" "c1") "/a/b".
Definition secondRefs : list BlockRef.t := [BlockRef.mk "h2" 3 7].

(** The diff a commit holds at a path: the document stored under
    [getDiffID]. *)
Definition diffAt (t : list Diff.t) (commitID path : string) : option Diff.t :=
  Get Diff.ID t (getDiffID commitID path).

Definition dirAt (t : list Diff.t) (commitID path : string) : Prop :=
  exists x, diffAt t commitID path = Some x /\ Diff.FileType x = FileType_DIR.

(** The strict ancestors of a path, read off its separators: every proper
    leading run of its parts, empty parts included, joined again; the root
    is left out. *)
Definition strictAncestors (path : string) : list string :=
  let parts := split_slash path in
  filter (fun p => negb (String.eqb p ""))
         (map (fun i => String.concat "/" (firstn i parts))
              (seq 1 (List.length parts - 1))).

(** Every strict ancestor of a FILE diff's path holds a DIR diff in the
    same commit. *)
Definition ancestorDirs (t : list Diff.t) : Prop :=
  forall c p x,
    diffAt t c p = Some x -> Diff.FileType x = FileType_FILE ->
    forall q, In q (strictAncestors p) -> dirAt t c q.

Definition emptyDiffsDB : DB := set_diffTable exampleDB [].

Definition deepFile : pfs.File := pfs.mkFile (pfs.mkCommit "r" "c1") "/a///b".

(** Ascending clock order. *)
Definition clockLe : Diff.t -> Diff.t -> Prop := leRel clockLeb.

(** The small repository after [/a/b] has been deleted in its open commit:
    the diff of [c1] at the path is a delete diff. *)
Definition deleteDiff (commit : Commit.t) (path : string) : Diff.t :=
  Diff.mk (getDiffID (Commit.ID commit) path) (Commit.Repo commit) true
          (Commit.ID commit) path [] FileType_NONE 0
          (Commit.BranchClocks commit) None.

Definition deletedDB : DB :=
  set_diffTable exampleDB
    [dirDiff commit0 "/a" 1;
     fileDiff commit0 "/a/b" [BlockRef.mk "h0" 0 2] 2 1;
     dirDiff commit1 "/a" 4;
     deleteDiff commit1 "/a/b"].

Definition headFile : pfs.File := pfs.mkFile (pfs.mkCommit "r" "master/1") "a/b".

(** A shard that takes every file and every block, and a block store that
    holds the two blocks of the small repository; a read of it starts at
    the offset and, for a size that is not zero, delivers at most so many
    bytes. *)
Definition wholeShard : Shard := mkShard (fun _ => true) (fun _ _ => true).

Definition blockBytes (content : string) (offset size : Z) : list ascii :=
  let rest := skipn (Z.to_nat offset) (list_ascii_of_string content) in
  if size =? 0 then rest else firstn (Z.to_nat size) rest.

Definition blockStore : BlockAPIClient :=
  mkBlockAPIClient
    (fun hash offset size =>
       if String.eqb hash "h0" then Ok (blockBytes "v0" offset size)
       else if String.eqb hash "h1" then Ok (blockBytes "v01" offset size)
            else Err ErrBlockStore).

Definition sumBlockSizes (l : list BlockRef.t) : Z :=
  fold_right (fun b s => BlockRef_Size b + s) 0 l.

(** * More of the driver *)

(** ** Repositories: create, inspect, list *)

(** [insertMessage]: an insert with the default conflict behaviour, which
    is the error of a duplicate primary key. *)
Definition Insert {D : Type} (key : D -> string) (t : list D) (doc : D)
  : result (list D) :=
  match Get key t (key doc) with
  | Some _ => Err ErrInsertConflict
  | None => Ok (t ++ [doc])%list
  end.

Definition isRepoNameChar (a : ascii) : bool :=
  let n := Z.of_nat (nat_of_ascii a) in
  ((97 <=? n) && (n <=? 122)) || ((65 <=? n) && (n <=? 90))
  || ((48 <=? n) && (n <=? 57)) || (n =? 95).

Fixpoint allRepoNameChars (s : string) : bool :=
  match s with
  | EmptyString => true
  | String a r => isRepoNameChar a && allRepoNameChars r
  end.

(** [validateRepoName]: the name matches [^[a-zA-Z0-9_]+$]. *)
Definition validateRepoName (name : string) : bool :=
  match name with
  | EmptyString => false
  | _ => allRepoNameChars name
  end.

Inductive createRepoError : Type :=
| ErrInvalidRepoName (name : string)  (* "repo name (%v) invalid: ..." *)
| ErrRepoInsert (e : error).

Definition CreateRepo (d : DB) (repo : string) (created : option Timestamp)
  : DB * option createRepoError :=
  if validateRepoName repo
  then match Insert Repo.Name (repoTable d) (Repo.mk repo created 0) with
       | Ok t => (set_repoTable d t, None)
       | Err e => (d, Some (ErrRepoInsert e))
       end
  else (d, Some (ErrInvalidRepoName repo)).

(** [pfs.RepoInfo], with the fields the driver fills. *)
Record RepoInfo : Type := mkRepoInfo {
  RepoInfo_Repo : string;
  RepoInfo_Created : option Timestamp;
  RepoInfo_SizeBytes : Z
}.

Definition rawRepoToRepoInfo (rawRepo : Repo.t) : RepoInfo :=
  mkRepoInfo (Repo.Name rawRepo) (Repo.Created rawRepo) (Repo.Size rawRepo).

Definition InspectRepo (d : DB) (repo : string) : result RepoInfo :=
  match Get Repo.Name (repoTable d) repo with
  | Some rawRepo => Ok (rawRepoToRepoInfo rawRepo)
  | None => Err ErrEmptyResult
  end.

(** [ListRepo] runs the table itself, with no [OrderBy]: the cursor hands
    over the documents in an order of the database's choosing, [scan]. *)
Definition ListRepo (scan : list Repo.t -> list Repo.t) (d : DB) : list RepoInfo :=
  map rawRepoToRepoInfo (scan (repoTable d)).

(** ** Starting a commit *)

(** Package libclock is not among the sources: [StartCommit] takes its
    functions as it calls them. *)
Record Libclock : Type := mkLibclock {
  NewBranchClocks : string -> list BranchClock.t;
  NewChildOfBranchClocks : list BranchClock.t -> string -> result (list BranchClock.t);
  GetClockForBranch : list BranchClock.t -> string -> result Clock.t;
  NewChild : BranchClock.t -> BranchClock.t;
  NewBranchOffBranchClocks :
    list BranchClock.t -> string -> string -> result (list BranchClock.t)
}.

(** [%d] of a [uint64]. *)
Definition decimal (n : Z) : string :=
  DecimalString.NilEmpty.string_of_uint (N.to_uint (Z.to_N n)).

Definition getClockID (repo : string) (c : Clock.t) : ClockID.t :=
  ClockID.mk (repo ++ "/" ++ Clock.Branch c ++ "/" ++ decimal (Clock.Clock c))
             repo (Clock.Branch c) (Clock.Clock c).

Definition set_clockTable (d : DB) (t : list ClockID.t) : DB :=
  mkDB (repoTable d) (commitTable d) (diffTable d) t.

Inductive startError : Type :=
| ErrBranchExists (branch : string)   (* "branch %s already exists" *)
| ErrStart (e : error).

(** What a call of StartCommit comes to: it returns, or it goes round its
    loop again on a clock that is taken, with nothing changed in between. *)
Inductive start : Type :=
| Started (d : DB) (err : option startError)
| RetriesForever.

(** The clock StartCommit reserves: the branch clocks of the commit and the
    clock record inserted for them, or why there is none. *)
Inductive reservation : Type :=
| Reserved (branchClocks : list BranchClock.t) (clockID : ClockID.t)
           (clocks : list ClockID.t)
| Refused (e : startError)
| Taken.

Definition reserveOnBranch (lc : Libclock) (d : DB) (repo branch : string)
  : reservation :=
  let branchClocks :=
    match getHeadOfBranch d repo branch with
    | Err ErrEmptyResult => Ok (NewBranchClocks lc branch)
    | Err e => Err e
    | Ok parentCommit =>
        NewChildOfBranchClocks lc (Commit.BranchClocks parentCommit) branch
    end in
  match branchClocks with
  | Err e => Refused (ErrStart e)
  | Ok bcs =>
      match GetClockForBranch lc bcs branch with
      | Err e => Refused (ErrStart e)
      | Ok clock =>
          let clockID := getClockID repo clock in
          match Insert ClockID.ID (clockTable d) clockID with
          | Err _ => Taken
          | Ok t => Reserved bcs clockID t
          end
      end
  end.

Definition reserveFromParent (lc : Libclock) (d : DB) (repo parentID branch : string)
  : reservation :=
  match getCommitByAmbiguousID d repo parentID with
  | Err e => Refused (ErrStart e)
  | Ok parentCommit =>
      match Commit.BranchClocks parentCommit with
      | [] => Refused (ErrStart ErrIndexOutOfRange)
      | bc0 :: _ =>
          match lastClock bc0 with
          | None => Refused (ErrStart ErrIndexOutOfRange)
          | Some parentLast =>
              let parentBranch := Clock.Branch parentLast in
              let branchClocks :=
                if String.eqb branch "" then Ok [NewChild lc bc0]
                else NewBranchOffBranchClocks lc (Commit.BranchClocks parentCommit)
                                              parentBranch branch in
              let branch := if String.eqb branch "" then parentBranch else branch in
              match branchClocks with
              | Err e => Refused (ErrStart e)
              | Ok bcs =>
                  match GetClockForBranch lc bcs branch with
                  | Err e => Refused (ErrStart e)
                  | Ok clock =>
                      let clockID := getClockID repo clock in
                      match Insert ClockID.ID (clockTable d) clockID with
                      | Err _ => Refused (ErrBranchExists branch)
                      | Ok t => Reserved bcs clockID t
                      end
                  end
              end
          end
      end
  end.

(** [StartCommit]; [uuid] is what [uuid.NewWithoutDashes()] gives and [now]
    the time of [now()].  The [started] argument is not used. *)
Definition StartCommit (lc : Libclock) (uuid : string) (now : Timestamp) (d : DB)
  (repo commitID parentID branch : string) (started : option Timestamp)
  (provenance : list pfs.Commit) : start :=
  let reservation :=
    if String.eqb parentID ""
    then reserveOnBranch lc d repo (if String.eqb branch "" then uuid else branch)
    else reserveFromParent lc d repo parentID branch in
  match reservation with
  | Taken => RetriesForever
  | Refused e => Started d (Some e)
  | Reserved branchClocks clockID clocks =>
      let commit :=
        Commit.mk commitID repo (Some now) None false branchClocks
                  (map pfs.ID provenance) 0 in
      let d1 := set_clockTable d clocks in
      match Insert Commit.ID (commitTable d1) commit with
      | Ok commits => Started (set_commitTable d1 commits) None
      | Err e =>
          Started (set_clockTable d1
                     (Delete ClockID.ID (clockTable d1) (ClockID.ID clockID)))
                  (Some (ErrStart e))
      end
  end.

(** Modelled from the spec: the operations of the clock algebra, to run
    [StartCommit] on examples: [new_branch(b)] is [[(b,0)]], [child]
    increments the last clock, [branch_off] appends [(new_branch, 0)] to the
    branch clock ending in the parent branch and fails when a branch clock
    ends in the new branch already, [get_for_branch] finds the branch clock
    ending in the branch. *)
Definition endsIn (branch : string) (bc : BranchClock.t) : bool :=
  match lastClock bc with
  | Some c => String.eqb (Clock.Branch c) branch
  | None => false
  end.

Definition childOf (bc : BranchClock.t) : BranchClock.t :=
  match rev (BranchClock.Clocks bc) with
  | c :: r =>
      BranchClock.mk (rev r ++ [Clock.mk (Clock.Branch c) (uint64 (Clock.Clock c + 1))])
  | [] => bc
  end.

Definition specClock : Libclock :=
  mkLibclock
    (fun branch => [BranchClock.mk [Clock.mk branch 0]])
    (fun bcs branch =>
       match find (endsIn branch) bcs with
       | Some bc => Ok [childOf bc]
       | None => Err ErrClockInterval
       end)
    (fun bcs branch =>
       match find (endsIn branch) bcs with
       | Some bc =>
           match lastClock bc with
           | Some c => Ok c
           | None => Err ErrClockInterval
           end
       | None => Err ErrClockInterval
       end)
    childOf
    (fun bcs parentBranch branch =>
       if existsb (endsIn branch) bcs then Err ErrClockInterval
       else match find (endsIn parentBranch) bcs with
            | Some bc =>
                Ok [BranchClock.mk (BranchClock.Clocks bc ++ [Clock.mk branch 0])]
            | None => Err ErrClockInterval
            end).

(** ** Branches *)

(** Modelled from the spec: ClockBranchIndex, declared outside the sources;
    its key is [(repo, branch)].  The branches of a repo are the distinct
    branches of its clock records. *)
Definition branchesOf (d : DB) (repo : string) : list string :=
  nodup string_dec
        (map ClockID.Branch
             (filter (fun c => String.eqb (ClockID.Repo c) repo) (clockTable d))).

Fixpoint headsOf (d : DB) (repo : string) (branches : list string)
  : result (list (pfs.Commit * string)) :=
  match branches with
  | [] => Ok []
  | branch :: rest =>
      commit <- getHeadOfBranch d repo branch ;;
      infos <- headsOf d repo rest ;;
      Ok ((pfs.mkCommit repo (Commit.ID commit), branch) :: infos)
  end.

(** [ListBranch]: of the [CommitInfo] it returns per branch only [Commit]
    and [Branch] are set, and they are what the model returns. *)
Definition ListBranch (d : DB) (repo : string) : result (list (pfs.Commit * string)) :=
  headsOf d repo (branchesOf d repo).

(** ** Deleting a file *)




(** ** The driver among other clients

    [FinishCommit] and [StartCommit] above run on a database that no other
    client writes meanwhile and whose writes go through.  The code has more
    to it: [FinishCommit] blocks on the change feed of its parent while
    other clients write, and then does two updates, each of which the
    database may refuse; [StartCommit] takes its clock record out again in
    a deferred delete, whose failure is only logged.  The calls of this
    module take what they meet of that as an argument; the reads of the
    database do not fail, here as above. *)
Module Live.

(** What a call of FinishCommit meets: the states the database goes
    through, by the writes of other clients, after the call has opened the
    change feed of its parent, and the error of each of its two updates
    where the database refuses it. *)
Record World : Type := mkWorld {
  history : list DB;
  repoUpdate : option error;
  commitUpdate : option error
}.

Definition quiet : World := mkWorld [] None None.

(** The loop over the change feed of the parent record, which starts with
    the record as it is: the call goes on in the first state in which the
    record is there and finished, with the cancelled flag it has then;
    [None] while no such state has come. *)
Fixpoint awaitParent (parentID : string) (d : DB) (later : list DB) {struct later}
  : option (DB * bool) :=
  match parentFinished d parentID with
  | Some parentCancelled => Some (d, parentCancelled)
  | None =>
      match later with
      | [] => None
      | d' :: later' => awaitParent parentID d' later'
      end
  end.

(** [FinishCommit]: the commit, its size and its parent are read when the
    call comes in; the two updates are made on the database as it is when
    the parent is seen finished, with the record and the size read
    before. *)
Definition FinishCommit (w : World) (d : DB) (commit : pfs.Commit)
  (finished : option Timestamp) (cancel : bool) : finish :=
  match getCommitByAmbiguousID d (pfs.Repo commit) (pfs.ID commit) with
  | Err e => Returned d (Some e)
  | Ok rawCommit =>
      let size := computeCommitSize d (Commit.ID rawCommit) in
      match getIDOfParentCommit d (pfs.Repo commit) (pfs.ID commit) with
      | Err e => Returned d (Some e)
      | Ok parentID =>
          let seen :=
            if String.eqb parentID "" then Some (d, false)
            else awaitParent parentID d (history w) in
          match seen with
          | None => WaitsForParent parentID
          | Some (ds, parentCancelled) =>
              match repoUpdate w with
              | Some e => Returned ds (Some e)
              | None =>
                  let d1 := set_repoTable ds
                              (Update Repo.Name (repoTable ds) (Commit.Repo rawCommit)
                                      (addRepoSize size)) in
                  match commitUpdate w with
                  | Some e => Returned d1 (Some e)
                  | None =>
                      let rawCommit' :=
                        finishedCommit rawCommit size finished
                                       (parentCancelled || cancel) in
                      Returned (set_commitTable d1
                                  (Update Commit.ID (commitTable d1)
                                          (Commit.ID rawCommit) (fun _ => rawCommit')))
                               None
                  end
              end
          end
      end
  end.

(** [StartCommit] with a deferred delete that fails when [deleteFails]:
    the clock record then stays and the error of the commit insert is
    returned all the same. *)
Definition StartCommit (deleteFails : bool) (lc : Libclock) (uuid : string)
  (now : Timestamp) (d : DB) (repo commitID parentID branch : string)
  (started : option Timestamp) (provenance : list pfs.Commit) : start :=
  let reservation :=
    if String.eqb parentID ""
    then reserveOnBranch lc d repo (if String.eqb branch "" then uuid else branch)
    else reserveFromParent lc d repo parentID branch in
  match reservation with
  | Taken => RetriesForever
  | Refused e => Started d (Some e)
  | Reserved branchClocks clockID clocks =>
      let commit :=
        Commit.mk commitID repo (Some now) None false branchClocks
                  (map pfs.ID provenance) 0 in
      let d1 := set_clockTable d clocks in
      match Insert Commit.ID (commitTable d1) commit with
      | Ok commits => Started (set_commitTable d1 commits) None
      | Err e =>
          Started (if deleteFails then d1
                   else set_clockTable d1
                          (Delete ClockID.ID (clockTable d1) (ClockID.ID clockID)))
                  (Some (ErrStart e))
      end
  end.
End Live.


(** ** Vocabulary of the further properties *)

Definition startsWithSlash (s : string) : bool :=
  match s with
  | String c _ => Ascii.eqb c "/"%char
  | EmptyString => false
  end.

Definition endsWithSlash (s : string) : bool :=
  match lastChar s with
  | Some c => Ascii.eqb c "/"%char
  | None => false
  end.

Definition nonEmptyPart (part : string) : bool := negb (String.eqb part "").

Fixpoint noSlash (s : string) : bool :=
  match s with
  | EmptyString => true
  | String a r => negb (Ascii.eqb a "/"%char) && noSlash r
  end.

(** The shard of the blocks of one hash; it takes every file, and the
    files without blocks. *)
Definition hashShard (hash : string) : Shard :=
  mkShard (fun _ => true)
          (fun _ block =>
             match block with
             | Some h => String.eqb h hash
             | None => true
             end).

(** The small repository after a third commit has been started on
    [master]. *)
Definition startedDB : DB :=
  mkDB (repoTable exampleDB)
       (commitTable exampleDB
          ++ [Commit.mk "c2" "r" (Some 7) None false [master 2] ["x"] 0])%list
       (diffTable exampleDB)
       (clockTable exampleDB ++ [ClockID.mk "r/master/2" "r" "master" 2])%list.

(** The database the two updates of FinishCommit leave, made on [ds] with
    the record and the size read before. *)
Definition finishedWith (ds : DB) (rawCommit : Commit.t) (size : Z)
  (finished : option Timestamp) (cancelled : bool) : DB :=
  let d1 := set_repoTable ds (Update Repo.Name (repoTable ds) (Commit.Repo rawCommit)
                                     (addRepoSize size)) in
  set_commitTable d1
    (Update Commit.ID (commitTable d1) (Commit.ID rawCommit)
            (fun _ => finishedCommit rawCommit size finished cancelled)).


(** A path none of whose components after the leading slash is empty. *)
Definition noEmptyComponent (path : string) : bool :=
  forallb nonEmptyPart (tl (split_slash path)).

(** The small repository with both commits still open, and what two other
    clients do while [FinishCommit] of [c1] waits for [c0]: one puts four
    more bytes into [/a/b] of [c1], then one finishes [c0] and cancels
    it. *)
Definition openCommit0 : Commit.t :=
  Commit.mk "c0" "r" (Some 1) None false [master 0] [] 0.

Definition openDB : DB :=
  mkDB [Repo.mk "r" (Some 0) 0] [openCommit0; commit1]
       (diffTable exampleDB) (clockTable exampleDB).

Definition putDB : DB := fst (PutFile openDB secondPut (Ok secondRefs) (fun _ => 6)).

Definition parentDoneDB : DB :=
  match FinishCommit putDB (pfs.mkCommit "r" "master/0") (Some 8) true with
  | Returned d _ => d
  | WaitsForParent _ => putDB
  end.

Definition busyWorld : Live.World := Live.mkWorld [putDB; parentDoneDB] None None.

(** The database once the waiting [FinishCommit] of [c1] has returned: the
    updates are made on what the other clients left, with the size read
    when the call came in. *)
Definition staleDB : DB := finishedWith parentDoneDB commit1 3 (Some 9) true.

(** The small repository with a clock document for [master/2] that no
    commit goes with, as a [StartCommit] leaves it whose insert of the
    commit and whose deferred delete of the clock both failed. *)
Definition staleClockDB : DB :=
  set_clockTable exampleDB
    (clockTable exampleDB ++ [ClockID.mk "r/master/2" "r" "master" 2])%list.

(** In commit [c], every strict ancestor without an empty component of a
    FILE diff's path holds a DIR diff. *)
Definition coveredIn (t : list Diff.t) (c : string) : Prop :=
  forall p x,
    diffAt t c p = Some x -> Diff.FileType x = FileType_FILE ->
    forall q, In q (strictAncestors p) -> noEmptyComponent q = true -> dirAt t c q.

(** A run of [PutFile] calls, each on the database the one before has
    left; the run stops at the first error. *)
Definition putRun_step (acc : DB * option error)
  (put : pfs.File * list BlockRef.t * (nat -> Timestamp)) : DB * option error :=
  match acc with
  | (d, Some e) => (d, Some e)
  | (d, None) => let '(f, refs, now) := put in PutFile d f (Ok refs) now
  end.

Definition putRun (d : DB)
  (puts : list (pfs.File * list BlockRef.t * (nat -> Timestamp)))
  : DB * option error :=
  fold_left putRun_step puts (d, None).


(** * Properties *)

(** ** Tables *)

Section TableFacts.
Context {D : Type} (key : D -> string).

Lemma Get_In (t : list D) (k : string) (x : D) :
  Get key t k = Some x -> In x t /\ key x = k.
Proof.
  unfold Get. intros H. apply find_some in H. destruct H as [Hin Hk].
  split; [exact Hin | now apply String.eqb_eq].
Qed.

Lemma In_Get (t : list D) (x : D) :
  In x t -> exists y, Get key t (key x) = Some y.
Proof.
  unfold Get. intros Hin.
  destruct (find (fun d => (key d =? key x)%string) t) as [y|] eqn:E.
  - now exists y.
  - apply (find_none _ _ E) in Hin. rewrite String.eqb_refl in Hin. discriminate.
Qed.

Lemma Get_Update_same (t : list D) (k : string) (f : D -> D) :
  (forall x, key x = k -> key (f x) = k) ->
  Get key (Update key t k f) k = option_map f (Get key t k).
Proof.
  intros Hf. unfold Get, Update. induction t as [|x t IH]; simpl; [reflexivity|].
  destruct (String.eqb_spec (key x) k) as [E|E].
  - rewrite (Hf x E), String.eqb_refl. reflexivity.
  - apply String.eqb_neq in E. rewrite E. exact IH.
Qed.

Lemma Get_Update_other (t : list D) (k k' : string) (f : D -> D) :
  k' <> k ->
  (forall x, key x = k -> key (f x) = k) ->
  Get key (Update key t k f) k' = Get key t k'.
Proof.
  intros Hne Hf. unfold Get, Update. induction t as [|x t IH]; simpl; [reflexivity|].
  destruct (String.eqb_spec (key x) k) as [E|E].
  - rewrite (Hf x E).
    destruct (String.eqb_spec k k') as [E'|E']; [congruence|].
    rewrite E. apply String.eqb_neq in E'. rewrite E'. exact IH.
  - destruct (String.eqb_spec (key x) k'); [reflexivity | exact IH].
Qed.

Lemma In_Delete (t : list D) (k : string) (x : D) :
  In x (Delete key t k) <-> In x t /\ key x <> k.
Proof.
  unfold Delete. rewrite filter_In, negb_true_iff, String.eqb_neq. reflexivity.
Qed.
End TableFacts.

(** ** Resolving a commit reference *)

Lemma fold_later_In (l : list (Z * Commit.t)) (init : option (Z * Commit.t))
  (x : Z * Commit.t) :
  fold_left later l init = Some x -> init = Some x \/ In x l.
Proof.
  revert init. induction l as [|y l IH]; simpl; intros init H; [now left|].
  apply IH in H. destruct H as [H|H]; [|now right; right].
  unfold later in H. destruct init as [b|].
  - destruct (fst b <? fst y); injection H as <-; [right; now left | now left].
  - injection H as <-. right; now left.
Qed.

Lemma commitsOfBranch_In (d : DB) (repo branch : string) (n : Z) (c : Commit.t) :
  In (n, c) (commitsOfBranch d repo branch) -> In c (commitTable d).
Proof.
  unfold commitsOfBranch. rewrite in_flat_map. intros [c' [Hc' H]].
  apply in_flat_map in H. destruct H as [[[r b] m] [_ H]].
  destruct (_ && _); [|contradiction].
  destruct H as [H|[]]. now injection H as _ <-.
Qed.

Lemma getHeadOfBranch_In (d : DB) (repo branch : string) (c : Commit.t) :
  getHeadOfBranch d repo branch = Ok c -> In c (commitTable d).
Proof.
  unfold getHeadOfBranch.
  destruct (fold_left later _ None) as [[n c']|] eqn:E; [|discriminate].
  intros H. injection H as <-. apply fold_later_In in E.
  destruct E as [E|E]; [discriminate|]. eapply commitsOfBranch_In; eassumption.
Qed.

Lemma getCommitByIndex_In (d : DB) (k : IndexKey) (c : Commit.t) :
  getCommitByIndex d k = Ok c -> In c (commitTable d).
Proof.
  unfold getCommitByIndex. destruct (find _ _) as [c'|] eqn:E; [|discriminate].
  intros H. injection H as <-. now apply find_some in E.
Qed.

Lemma getCommitByAmbiguousID_In (d : DB) (repo commitID : string) (c : Commit.t) :
  getCommitByAmbiguousID d repo commitID = Ok c -> In c (commitTable d).
Proof.
  unfold getCommitByAmbiguousID. destruct (parseClock commitID) as [alias|].
  - apply getCommitByIndex_In.
  - destruct (getHeadOfBranch d repo commitID) as [c'|e] eqn:E.
    + intros H. injection H as <-. eapply getHeadOfBranch_In; eassumption.
    + destruct (Get Commit.ID (commitTable d) commitID) as [c'|] eqn:G; [|discriminate].
      intros H. injection H as <-. now apply Get_In in G.
Qed.

(** ** The size of a commit *)

Lemma fold_addSize (xs : list Diff.t) (x : Diff.t) :
  Diff.Size (fold_left addSize xs x) = Diff.Size x + sumSizes xs.
Proof.
  revert x. induction xs as [|y xs IH]; simpl; intros x; [lia|].
  rewrite IH. simpl. lia.
Qed.

Lemma computeCommitSize_sum (d : DB) (commitID : string) :
  computeCommitSize d commitID = sumSizes (diffsOfCommit d commitID).
Proof.
  unfold computeCommitSize, Reduce.
  destruct (diffsOfCommit d commitID) as [|x xs]; [reflexivity|].
  rewrite fold_addSize. reflexivity.
Qed.

(** ** FinishCommit *)

Lemma FinishCommit_steps (d : DB) (commit : pfs.Commit)
  (finished : option Timestamp) (cancel : bool) (rawCommit : Commit.t)
  (parentID : string) (parentCancelled : bool) :
  getCommitByAmbiguousID d (pfs.Repo commit) (pfs.ID commit) = Ok rawCommit ->
  getIDOfParentCommit d (pfs.Repo commit) (pfs.ID commit) = Ok parentID ->
  parentCancelledOf d parentID = Some parentCancelled ->
  FinishCommit d commit finished cancel
  = Returned (finishedDB d rawCommit finished (parentCancelled || cancel)) None.
Proof.
  intros Hc Hp Hf. unfold FinishCommit. rewrite Hc, Hp.
  unfold parentCancelledOf in Hf. rewrite Hf. reflexivity.
Qed.

Lemma FinishCommit_success (d d' : DB) (commit : pfs.Commit)
  (finished : option Timestamp) (cancel : bool) :
  FinishCommit d commit finished cancel = Returned d' None ->
  exists rawCommit parentID parentCancelled,
    getCommitByAmbiguousID d (pfs.Repo commit) (pfs.ID commit) = Ok rawCommit
    /\ getIDOfParentCommit d (pfs.Repo commit) (pfs.ID commit) = Ok parentID
    /\ parentCancelledOf d parentID = Some parentCancelled
    /\ d' = finishedDB d rawCommit finished (parentCancelled || cancel).
Proof.
  unfold FinishCommit, parentCancelledOf.
  destruct (getCommitByAmbiguousID d (pfs.Repo commit) (pfs.ID commit))
    as [rawCommit|e]; [|discriminate].
  destruct (getIDOfParentCommit d (pfs.Repo commit) (pfs.ID commit))
    as [parentID|e]; [|discriminate].
  destruct (if (parentID =? "")%string then Some false else parentFinished d parentID)
    as [parentCancelled|] eqn:E; [|discriminate].
  intros H. injection H as <-.
  exists rawCommit, parentID, parentCancelled. repeat split. exact E.
Qed.

Lemma finishedDB_commit (d : DB) (rawCommit : Commit.t)
  (finished : option Timestamp) (cancelled : bool) :
  In rawCommit (commitTable d) ->
  Get Commit.ID (commitTable (finishedDB d rawCommit finished cancelled))
      (Commit.ID rawCommit)
  = Some (finishedCommit rawCommit (computeCommitSize d (Commit.ID rawCommit))
                         finished cancelled).
Proof.
  intros Hin. unfold finishedDB. simpl.
  rewrite Get_Update_same by (intros; reflexivity).
  destruct (In_Get Commit.ID _ _ Hin) as [y ->]. reflexivity.
Qed.

Lemma finishedDB_repo (d : DB) (rawCommit : Commit.t)
  (finished : option Timestamp) (cancelled : bool) (name : string) :
  Get Repo.Name (repoTable (finishedDB d rawCommit finished cancelled)) name
  = if String.eqb name (Commit.Repo rawCommit)
    then option_map (addRepoSize (computeCommitSize d (Commit.ID rawCommit)))
                    (Get Repo.Name (repoTable d) name)
    else Get Repo.Name (repoTable d) name.
Proof.
  unfold finishedDB. simpl.
  destruct (String.eqb_spec name (Commit.Repo rawCommit)) as [->|Hne].
  - apply Get_Update_same. intros x Hx. exact Hx.
  - apply Get_Update_other; [exact Hne | intros x Hx; exact Hx].
Qed.

(** C3 as the driver has it. [DeleteRepo] removes the repo record and
    nothing else: no repo record bears the name afterwards, and the commit,
    clock and diff tables are what they were. *)
Theorem DeleteRepo_deletes_repo_record_only (d : DB) (name : string) :
  snd (DeleteRepo d name) = None
  /\ (forall r, In r (repoTable (fst (DeleteRepo d name)))
                <-> In r (repoTable d) /\ Repo.Name r <> name)
  /\ commitTable (fst (DeleteRepo d name)) = commitTable d
  /\ clockTable (fst (DeleteRepo d name)) = clockTable d
  /\ diffTable (fst (DeleteRepo d name)) = diffTable d.
Proof.
  unfold DeleteRepo. simpl. split; [reflexivity|].
  split; [intros r; apply In_Delete|]. repeat split.
Qed.

(** C3 fails: after [DeleteRepo "r"] has succeeded on the small repository,
    its commits (and clocks and diffs) still bear the name. *)
Lemma DeleteRepo_leaves_commits :
  snd (DeleteRepo exampleDB "r") = None
  /\ ~ noRecordOfRepo (fst (DeleteRepo exampleDB "r")) "r".
Proof.
  split; [reflexivity|]. intros (_ & Hc & _).
  apply (Hc commit0); [simpl; now left | reflexivity].
Qed.

(** C4 as the driver has it. [FinishCommit] does not look at the commit's
    finished field: on a commit that is finished already it returns without
    error as soon as the parent reference resolves and the parent, if there
    is one, is finished; it has then added the commit's size to the repo
    once more and overwritten the commit's size, finished and cancelled
    fields. *)
Theorem FinishCommit_ignores_finished (d : DB) (commit : pfs.Commit)
  (finished : option Timestamp) (cancel : bool) (rawCommit : Commit.t)
  (t : Timestamp) (parentID : string) (parentCancelled : bool) :
  getCommitByAmbiguousID d (pfs.Repo commit) (pfs.ID commit) = Ok rawCommit ->
  Commit.Finished rawCommit = Some t ->
  getIDOfParentCommit d (pfs.Repo commit) (pfs.ID commit) = Ok parentID ->
  parentCancelledOf d parentID = Some parentCancelled ->
  exists d',
    FinishCommit d commit finished cancel = Returned d' None
    /\ Get Commit.ID (commitTable d') (Commit.ID rawCommit)
       = Some (finishedCommit rawCommit (computeCommitSize d (Commit.ID rawCommit))
                              finished (parentCancelled || cancel))
    /\ Get Repo.Name (repoTable d') (Commit.Repo rawCommit)
       = option_map (addRepoSize (computeCommitSize d (Commit.ID rawCommit)))
                    (Get Repo.Name (repoTable d) (Commit.Repo rawCommit)).
Proof.
  intros Hc _ Hp Hf. eexists. split; [eapply FinishCommit_steps; eassumption|].
  split.
  - apply finishedDB_commit. eapply getCommitByAmbiguousID_In; eassumption.
  - rewrite finishedDB_repo, String.eqb_refl. reflexivity.
Qed.

Lemma FinishCommit_ignores_finished_witness :
  exists d',
    FinishCommit exampleDB (pfs.mkCommit "r" "c0") (Some 9) false = Returned d' None
    /\ Get Commit.ID (commitTable d') "c0"
       = Some (Commit.mk "c0" "r" (Some 1) (Some 9) false [master 0] [] 2)
    /\ Get Repo.Name (repoTable d') "r" = Some (Repo.mk "r" (Some 0) 4).
Proof.
  exact (FinishCommit_ignores_finished exampleDB (pfs.mkCommit "r" "c0") (Some 9)
           false commit0 2 "" false eq_refl eq_refl eq_refl eq_refl).
Defined.

(** C4 fails: [c0] of the small repository is finished, and finishing it
    again returns without error, with both its record and the repo record
    changed. *)
Lemma FinishCommit_finished_is_not_refused :
  exists rawCommit t d',
    getCommitByAmbiguousID exampleDB "r" "c0" = Ok rawCommit
    /\ Commit.Finished rawCommit = Some t
    /\ FinishCommit exampleDB (pfs.mkCommit "r" "c0") (Some 9) false
       = Returned d' None
    /\ Get Commit.ID (commitTable d') "c0" <> Get Commit.ID (commitTable exampleDB) "c0"
    /\ Get Repo.Name (repoTable d') "r" <> Get Repo.Name (repoTable exampleDB) "r".
Proof.
  exists commit0, 2. eexists. split; [reflexivity|]. split; [reflexivity|].
  split; [reflexivity|]. split; discriminate.
Qed.

(** C8 as the driver has it. [DeleteCommit] returns its not-supported error
    and [Merge] returns an empty list of commits with no error; neither
    reads or writes the database. *)
Theorem DeleteCommit_Merge_placeholders (d : DB) (commit parent : pfs.Commit)
  (from : list pfs.Commit) (strategy : MergeStrategy) :
  DeleteCommit d commit = (d, Some ErrDeleteCommitNotSupported)
  /\ Merge d from parent strategy = (d, Ok []).
Proof. split; reflexivity. Qed.

(** C8 fails: [Merge] returns no error. *)
Lemma Merge_returns_no_error :
  ~ exists e,
      snd (Merge exampleDB [pfs.mkCommit "r" "c1"] (pfs.mkCommit "r" "c0")
                 MergeStrategy_SQUASH) = Err e.
Proof. intros [e H]. discriminate H. Qed.

(** C10. The commit id of the [CommitInfo] that [InspectCommit] returns is
    the reference the caller passed, whatever record it resolved to; the
    other fields are those of the resolved record, the size of an open
    commit being computed from its diffs. *)
Theorem InspectCommit_returns_reference (d : DB) (commit : pfs.Commit)
  (info : pfs.CommitInfo) :
  InspectCommit d commit = Ok info ->
  pfs.ID (pfs.Commit_ info) = pfs.ID commit
  /\ exists rawCommit,
      getCommitByAmbiguousID d (pfs.Repo commit) (pfs.ID commit) = Ok rawCommit
      /\ pfs.Repo (pfs.Commit_ info) = Commit.Repo rawCommit
      /\ pfs.Started info = Commit.Started rawCommit
      /\ pfs.Finished info = Commit.Finished rawCommit
      /\ pfs.Cancelled info = Commit.Cancelled rawCommit
      /\ pfs.Branch info = pfs.Branch (rawCommitToCommitInfo rawCommit)
      /\ pfs.SizeBytes info
         = match Commit.Finished rawCommit with
           | Some _ => Commit.Size rawCommit
           | None => computeCommitSize d (Commit.ID rawCommit)
           end.
Proof.
  unfold InspectCommit.
  destruct (getCommitByAmbiguousID d (pfs.Repo commit) (pfs.ID commit))
    as [rawCommit|e]; simpl; [|discriminate].
  intros H. injection H as <-. simpl. split; [reflexivity|].
  exists rawCommit. repeat split.
Qed.

Lemma InspectCommit_returns_reference_witness :
  pfs.ID (pfs.Commit_
            (pfs.mkCommitInfo (pfs.mkCommit "r" "master/1") "master" (Some 3) None
                              false pfs.CommitType_COMMIT_TYPE_WRITE 3))
  = "master/1"
  /\ getCommitByAmbiguousID exampleDB "r" "master/1" = Ok commit1
  /\ Commit.ID commit1 = "c1".
Proof.
  destruct (InspectCommit_returns_reference exampleDB (pfs.mkCommit "r" "master/1")
              (pfs.mkCommitInfo (pfs.mkCommit "r" "master/1") "master" (Some 3) None
                                false pfs.CommitType_COMMIT_TYPE_WRITE 3)
              eq_refl) as [Hid _].
  split; [exact Hid|]. split; reflexivity.
Defined.

(** ** Inserting with a conflict function *)

Section UpsertFacts.
Context {D : Type} (key : D -> string) (resolve : D -> D -> result D).
Hypothesis resolve_key : forall old new d, resolve old new = Ok d -> key d = key old.

(** What one upsert does, read through [Get]. *)
Lemma Upsert_spec (t : list D) (new : D) :
  match Get key t (key new) with
  | None =>
      exists t', Upsert key resolve t new = Ok t'
                 /\ Get key t' (key new) = Some new
                 /\ forall k, k <> key new -> Get key t' k = Get key t k
  | Some old =>
      match resolve old new with
      | Err e => Upsert key resolve t new = Err e
      | Ok d =>
          exists t', Upsert key resolve t new = Ok t'
                     /\ Get key t' (key new) = Some d
                     /\ forall k, k <> key new -> Get key t' k = Get key t k
      end
  end.
Proof.
  unfold Get. induction t as [|x t IH]; simpl.
  - exists [new]. split; [reflexivity|]. simpl. rewrite String.eqb_refl.
    split; [reflexivity|]. intros k Hk.
    destruct (String.eqb_spec (key new) k); [congruence | reflexivity].
  - destruct (String.eqb_spec (key x) (key new)) as [E|E].
    + destruct (resolve x new) as [d|e] eqn:R; [|reflexivity].
      exists (d :: t). split; [reflexivity|]. simpl.
      rewrite (resolve_key _ _ _ R), E, String.eqb_refl.
      split; [reflexivity|]. intros k Hk.
      destruct (String.eqb_spec (key new) k); [congruence | reflexivity].
    + destruct (find (fun d => (key d =? key new)%string) t) as [old|].
      * destruct (resolve old new) as [d|e].
        -- destruct IH as (t' & -> & Hg & Ho). exists (x :: t').
           split; [reflexivity|]. simpl.
           apply String.eqb_neq in E. rewrite E. split; [exact Hg|].
           intros k Hk. destruct (key x =? k)%string; [reflexivity | now apply Ho].
        -- rewrite IH. reflexivity.
      * destruct IH as (t' & -> & Hg & Ho). exists (x :: t').
        split; [reflexivity|]. simpl.
        apply String.eqb_neq in E. rewrite E. split; [exact Hg|].
        intros k Hk. destruct (key x =? k)%string; [reflexivity | now apply Ho].
Qed.

Lemma Upsert_total (t : list D) (new : D) :
  exists t1,
    fst (UpsertAll key resolve t [new]) = t1
    /\ Get key t1 (key new)
       = match Get key t (key new) with
         | None => Some new
         | Some old =>
             match resolve old new with
             | Ok d => Some d
             | Err _ => Some old
             end
         end
    /\ forall k, k <> key new -> Get key t1 k = Get key t k.
Proof.
  pose proof (Upsert_spec t new) as S. simpl.
  destruct (Get key t (key new)) as [old|] eqn:G.
  - destruct (resolve old new) as [d|e].
    + destruct S as (t' & -> & Hg & Ho). now exists t'.
    + rewrite S. exists t. simpl. now rewrite G.
  - destruct S as (t' & -> & Hg & Ho). now exists t'.
Qed.

(** What a batch of documents with distinct keys leaves: a document with
    a new key is stored as it is, one with a key of the table as the
    resolver merged it, or the old document when the resolver refused;
    the other keys are untouched. *)
Lemma UpsertAll_each (news : list D) :
  forall t,
    NoDup (map key news) ->
    (forall new, In new news ->
                 Get key (fst (UpsertAll key resolve t news)) (key new)
                 = match Get key t (key new) with
                   | None => Some new
                   | Some old =>
                       match resolve old new with
                       | Ok d => Some d
                       | Err _ => Some old
                       end
                   end)
    /\ (forall k, ~ In k (map key news) ->
                  Get key (fst (UpsertAll key resolve t news)) k = Get key t k).
Proof.
  induction news as [|new news IH]; intros t Hnd.
  - split; [intros ? []| reflexivity].
  - inversion Hnd as [|? ? Hnotin Hnd']; subst.
    destruct (Upsert_total t new) as (t1 & E1 & Hg1 & Ho1).
    assert (fst (UpsertAll key resolve t (new :: news))
            = fst (UpsertAll key resolve t1 news)) as ->.
    { simpl in *. destruct (Upsert key resolve t new) as [t'|e]; simpl in *;
        now subst. }
    destruct (IH t1 Hnd') as [Hin Hout]. split.
    + intros new' [<-|Hnew'].
      * rewrite (Hout _ Hnotin). exact Hg1.
      * rewrite (Hin _ Hnew'). rewrite Ho1; [reflexivity|].
        intros E. apply Hnotin. rewrite <- E. now apply in_map.
    + intros k Hk. rewrite Hout by (intros Hc; apply Hk; now right).
      apply Ho1. intros ->. apply Hk. now left.
Qed.

(** The error of a batch is an error of the resolver. *)
Lemma UpsertAll_error (news : list D) :
  forall t e,
    snd (UpsertAll key resolve t news) = Some e ->
    exists old new, resolve old new = Err e.
Proof.
  induction news as [|new news IH]; simpl; intros t e H; [discriminate|].
  pose proof (Upsert_spec t new) as S.
  destruct (Upsert key resolve t new) as [t1|e1] eqn:U; [now apply IH in H|].
  simpl in H. injection H as <-.
  destruct (Get key t (key new)) as [old|].
  - destruct (resolve old new) as [d|e2] eqn:R.
    + destruct S as (? & ? & _). discriminate.
    + injection S as <-. now exists old, new.
  - destruct S as (? & ? & _). discriminate.
Qed.

(** A document of the batch that the resolver refuses makes the batch
    report an error. *)
Lemma UpsertAll_conflict (news : list D) :
  forall t new old e,
    NoDup (map key news) ->
    In new news ->
    Get key t (key new) = Some old ->
    resolve old new = Err e ->
    snd (UpsertAll key resolve t news) <> None.
Proof.
  induction news as [|x news IH]; simpl; intros t new old e Hnd Hin Hg Hr; [easy|].
  inversion Hnd as [|? ? Hnotin Hnd']; subst.
  pose proof (Upsert_spec t x) as S.
  destruct (Upsert key resolve t x) as [t1|e1] eqn:U; [|discriminate].
  destruct Hin as [->|Hin].
  - rewrite Hg, Hr in S. discriminate.
  - assert (key new <> key x) as Hne.
    { intros E. apply Hnotin. rewrite <- E. now apply in_map. }
    apply (IH t1 new old e Hnd' Hin); [|exact Hr]. rewrite <- Hg.
    destruct (Get key t (key x)) as [old'|].
    + destruct (resolve old' x) as [d|e2]; [|discriminate].
      destruct S as (t1' & E & _ & Ho). injection E as <-. now apply Ho.
    + destruct S as (t1' & E & _ & Ho). injection E as <-. now apply Ho.
Qed.

(** A batch none of whose documents the resolver refuses reports no
    error. *)
Lemma UpsertAll_no_conflict (news : list D) :
  forall t,
    NoDup (map key news) ->
    (forall new old, In new news -> Get key t (key new) = Some old ->
                     exists d, resolve old new = Ok d) ->
    snd (UpsertAll key resolve t news) = None.
Proof.
  induction news as [|x news IH]; simpl; intros t Hnd Hok; [reflexivity|].
  inversion Hnd as [|? ? Hnotin Hnd']; subst.
  pose proof (Upsert_spec t x) as S.
  assert (exists t1, Upsert key resolve t x = Ok t1
                     /\ forall k, k <> key x -> Get key t1 k = Get key t k)
    as (t1 & U & Ho).
  { destruct (Get key t (key x)) as [old|] eqn:G.
    - destruct (Hok x old (or_introl eq_refl) G) as [d R]. rewrite R in S.
      destruct S as (t1 & U & _ & Ho). now exists t1.
    - destruct S as (t1 & U & _ & Ho). now exists t1. }
  rewrite U. apply IH; [exact Hnd'|].
  intros new old Hin Hg. apply (Hok new old); [now right|].
  rewrite <- Hg. symmetry. apply Ho.
  intros E. apply Hnotin. rewrite <- E. now apply in_map.
Qed.
End UpsertFacts.

(** ** Paths and diff ids *)

Lemma getDiffID_path (c p1 p2 : string) : getDiffID c p1 = getDiffID c p2 -> p1 = p2.
Proof.
  unfold getDiffID. induction c as [|a c IH]; simpl; intros E.
  - now injection E.
  - injection E as E. now apply IH.
Qed.

Section PathFacts.
Local Open Scope nat_scope.

Lemma length_append (a b : string) :
  String.length (a ++ b) = String.length a + String.length b.
Proof. induction a as [|c a IH]; simpl; [reflexivity | now rewrite IH]. Qed.

Lemma prefixesFrom_longer (parts : list string) :
  forall prefix q,
    In q (prefixesFrom prefix parts) -> String.length prefix < String.length q.
Proof.
  induction parts as [|part parts IH]; simpl; intros prefix q H; [easy|].
  destruct (part =? "")%string; [now apply IH|].
  assert (String.length prefix < String.length (prefix ++ "/" ++ part)) as Hlt
      by (rewrite length_append; simpl; lia).
  destruct H as [<-|H]; [exact Hlt|]. apply IH in H. simpl in *. lia.
Qed.

Lemma prefixesFrom_NoDup (parts : list string) :
  forall prefix, NoDup (prefixesFrom prefix parts).
Proof.
  induction parts as [|part parts IH]; simpl; intros prefix; [constructor|].
  destruct (part =? "")%string; [apply IH|].
  constructor; [|apply IH]. intros H. apply prefixesFrom_longer in H. lia.
Qed.

Lemma prefixesFrom_bound (parts : list string) :
  forall prefix q,
    In q (prefixesFrom prefix parts) ->
    String.length q <= String.length prefix + weight parts.
Proof.
  induction parts as [|part parts IH]; simpl; intros prefix q H; [easy|].
  destruct (part =? "")%string; [apply IH in H; lia|].
  assert (String.length (prefix ++ "/" ++ part)
          = String.length prefix + (String.length part + 1)) as Hlen
      by (rewrite length_append; simpl; lia).
  simpl in Hlen. destruct H as [<-|H]; [lia|]. apply IH in H. lia.
Qed.

Lemma weight_le_total (parts : list string) : weight parts <= total parts.
Proof.
  induction parts as [|part parts IH]; simpl; [lia|].
  destruct (part =? "")%string; lia.
Qed.

Lemma split_slash_total (s : string) :
  total (split_slash s) = String.length s + 1.
Proof.
  induction s as [|a s IH]; simpl; [reflexivity|].
  destruct (Ascii.eqb a "/"); simpl; [lia|].
  destruct (split_slash s) as [|p ps]; simpl in *; lia.
Qed.

Lemma total_removelast (parts : list string) :
  parts <> [] -> total (removelast parts) + 1 <= total parts.
Proof.
  induction parts as [|p parts IH]; [easy|]. intros _.
  destruct parts as [|p' parts]; [simpl; lia|].
  change (removelast (p :: p' :: parts)) with (p :: removelast (p' :: parts)).
  assert (p' :: parts <> []) as Hne by easy. apply IH in Hne. simpl in *. lia.
Qed.

Lemma getPrefixes_shorter (rest q : string) :
  In q (getPrefixes (String "/" rest)) ->
  String.length q < String.length (String "/" rest).
Proof.
  unfold getPrefixes.
  change (split_slash (String "/" rest)) with (EmptyString :: split_slash rest).
  pose proof (split_slash_total rest) as Ht.
  destruct (split_slash rest) as [|p ps] eqn:E; [simpl in Ht; lia|].
  change (removelast (EmptyString :: p :: ps))
    with (EmptyString :: removelast (p :: ps)).
  intros H. apply prefixesFrom_bound in H.
  change (weight (EmptyString :: removelast (p :: ps)))
    with (weight (removelast (p :: ps))) in H.
  pose proof (weight_le_total (removelast (p :: ps))).
  assert (p :: ps <> []) as Hne by easy. apply total_removelast in Hne.
  simpl String.length in *. lia.
Qed.

Lemma fixPath_slash (path : string) : exists rest, fixPath path = String "/" rest.
Proof.
  assert (forall r, exists rest,
             match lastChar (String "/" r) with
             | Some c =>
                 if (1 <? String.length (String "/" r)) && Ascii.eqb c "/"
                 then dropLast (String "/" r) else String "/" r
             | None => String "/" r
             end = String "/" rest) as Htrim.
  { intros r. destruct (lastChar (String "/" r)) as [c|]; [|now exists r].
    destruct (_ && _) eqn:C; [|now exists r].
    destruct r as [|b r]; [discriminate|].
    now exists (dropLast (String b r)). }
  unfold fixPath. destruct path as [|c r].
  - apply (Htrim EmptyString).
  - destruct (Ascii.eqb_spec c "/") as [->|_].
    + apply Htrim.
    + apply (Htrim (String c r)).
Qed.
End PathFacts.

Lemma map_combine_seq {A B : Type} (f : nat -> A -> B) (g : A -> B) (l : list A) :
  (forall i x, f i x = g x) ->
  forall s, map (fun '(i, x) => f i x) (combine (seq s (List.length l)) l) = map g l.
Proof.
  intros Hfg. induction l as [|x l IH]; intros s; simpl; [reflexivity|].
  now rewrite Hfg, IH.
Qed.

Lemma putFileDiffs_IDs (commit : Commit.t) (path : string) (refs : list BlockRef.t)
  (now : nat -> Timestamp) :
  map Diff.ID (putFileDiffs commit path refs now)
  = map (getDiffID (Commit.ID commit)) (getPrefixes path ++ [path]).
Proof.
  unfold putFileDiffs. rewrite !map_app, map_map. simpl. f_equal.
  rewrite <- (map_combine_seq
                (fun i prefix => Diff.ID (dirDiff commit prefix (now i)))
                (getDiffID (Commit.ID commit)) (getPrefixes path)
                (fun _ _ => eq_refl) 0%nat).
  apply map_ext. now intros [i prefix].
Qed.

Lemma putFileDiffs_NoDup (commit : Commit.t) (rest : string)
  (refs : list BlockRef.t) (now : nat -> Timestamp) :
  NoDup (map Diff.ID (putFileDiffs commit (String "/" rest) refs now)).
Proof.
  rewrite putFileDiffs_IDs. apply Finite.Injective_map_NoDup.
  - intros p1 p2. apply getDiffID_path.
  - apply NoDup_app.
    + apply prefixesFrom_NoDup.
    + constructor; [easy | constructor].
    + intros q Hq [<-|[]]. apply getPrefixes_shorter in Hq. lia.
Qed.

(** ** PutFile *)

Lemma FileType_eqb_spec (a b : FileType) : reflect (a = b) (FileType_eqb a b).
Proof. destruct a, b; constructor; congruence. Qed.

Lemma putFileConflict_key (oldDoc newDoc d : Diff.t) :
  putFileConflict oldDoc newDoc = Ok d -> Diff.ID d = Diff.ID oldDoc.
Proof.
  unfold putFileConflict. destruct (_ && _); [discriminate|].
  intros H. now injection H as <-.
Qed.

Lemma putFileConflict_Err (oldDoc newDoc : Diff.t) (e : error) :
  putFileConflict oldDoc newDoc = Err e ->
  e = ErrConflictFileType
  /\ Diff.FileType oldDoc <> FileType_NONE
  /\ Diff.FileType oldDoc <> Diff.FileType newDoc.
Proof.
  unfold putFileConflict.
  destruct (FileType_eqb_spec (Diff.FileType oldDoc) FileType_NONE);
    destruct (FileType_eqb_spec (Diff.FileType oldDoc) (Diff.FileType newDoc));
    simpl; intros H; try discriminate.
  injection H as <-. now repeat split.
Qed.

Lemma putFileConflict_Ok (oldDoc newDoc d : Diff.t) :
  putFileConflict oldDoc newDoc = Ok d ->
  (Diff.FileType oldDoc = FileType_NONE
   \/ Diff.FileType oldDoc = Diff.FileType newDoc)
  /\ Diff.FileType d = Diff.FileType newDoc.
Proof.
  unfold putFileConflict.
  destruct (FileType_eqb_spec (Diff.FileType oldDoc) FileType_NONE);
    destruct (FileType_eqb_spec (Diff.FileType oldDoc) (Diff.FileType newDoc));
    simpl; intros H; try discriminate; injection H as <-; simpl; tauto.
Qed.

(** Past the type check, [PutFile] is the batch insert of its diffs. *)
Lemma PutFile_insert (d : DB) (file : pfs.File) (refs : list BlockRef.t)
  (now : nat -> Timestamp) (commit : Commit.t) :
  getCommitByAmbiguousID d (pfs.Repo (pfs.FileCommit file))
                         (pfs.ID (pfs.FileCommit file)) = Ok commit ->
  firstTypeConflict d (putFileDiffs commit (fixPath (pfs.Path file)) refs now) = None ->
  PutFile d file (Ok refs) now
  = (set_diffTable d
       (fst (UpsertAll Diff.ID putFileConflict (diffTable d)
                       (putFileDiffs commit (fixPath (pfs.Path file)) refs now))),
     snd (UpsertAll Diff.ID putFileConflict (diffTable d)
                    (putFileDiffs commit (fixPath (pfs.Path file)) refs now))).
Proof.
  intros Hc Hf. unfold PutFile. rewrite Hc, Hf.
  now destruct (UpsertAll Diff.ID putFileConflict _ _).
Qed.

Lemma PutFile_success (d : DB) (file : pfs.File) (refs : list BlockRef.t)
  (now : nat -> Timestamp) (commit : Commit.t) :
  getCommitByAmbiguousID d (pfs.Repo (pfs.FileCommit file))
                         (pfs.ID (pfs.FileCommit file)) = Ok commit ->
  snd (PutFile d file (Ok refs) now) = None ->
  firstTypeConflict d (putFileDiffs commit (fixPath (pfs.Path file)) refs now) = None.
Proof.
  intros Hc. unfold PutFile. rewrite Hc.
  destruct (firstTypeConflict d _) as [e|]; [discriminate | reflexivity].
Qed.

Lemma putFileDiffs_In (commit : Commit.t) (path : string) (refs : list BlockRef.t)
  (now : nat -> Timestamp) (new : Diff.t) :
  In new (putFileDiffs commit path refs now) ->
  (Diff.FileType new = FileType_DIR
   /\ exists prefix, In prefix (getPrefixes path)
                     /\ Diff.ID new = getDiffID (Commit.ID commit) prefix)
  \/ (Diff.FileType new = FileType_FILE
      /\ Diff.ID new = getDiffID (Commit.ID commit) path).
Proof.
  unfold putFileDiffs. rewrite in_app_iff. intros [H|[<-|[]]].
  - left. apply in_map_iff in H. destruct H as [[i prefix] [<- H]].
    apply in_combine_r in H. split; [reflexivity|]. now exists prefix.
  - right. now split.
Qed.

Lemma putFileDiffs_file (commit : Commit.t) (path : string) (refs : list BlockRef.t)
  (now : nat -> Timestamp) :
  exists new, In new (putFileDiffs commit path refs now)
              /\ Diff.ID new = getDiffID (Commit.ID commit) path
              /\ Diff.FileType new = FileType_FILE.
Proof.
  eexists. split; [unfold putFileDiffs; apply in_or_app; right; now left|].
  now split.
Qed.

Lemma putFileDiffs_dir (commit : Commit.t) (rest : string) (refs : list BlockRef.t)
  (now : nat -> Timestamp) (prefix : string) :
  In prefix (getPrefixes (String "/" rest)) ->
  exists new, In new (putFileDiffs commit (String "/" rest) refs now)
              /\ Diff.ID new = getDiffID (Commit.ID commit) prefix
              /\ Diff.FileType new = FileType_DIR.
Proof.
  intros Hp.
  assert (In (getDiffID (Commit.ID commit) prefix)
             (map Diff.ID (putFileDiffs commit (String "/" rest) refs now))) as H.
  { rewrite putFileDiffs_IDs. apply in_map, in_or_app. now left. }
  apply in_map_iff in H. destruct H as (new & Hid & Hin). exists new.
  split; [exact Hin|]. split; [exact Hid|].
  destruct (putFileDiffs_In _ _ _ _ _ Hin) as [[Hdir _]|[_ Hfile]]; [exact Hdir|].
  rewrite Hfile in Hid. apply getDiffID_path in Hid. subst prefix.
  apply getPrefixes_shorter in Hp. lia.
Qed.

(** ** Ordering by clock *)

Section SortFacts.
Context {A : Type} (leb : A -> A -> bool).
Hypothesis leb_total : forall a b, leb a b = true \/ leb b a = true.

Lemma insertSorted_Permutation (x : A) (l : list A) :
  Permutation (insertSorted leb x l) (x :: l).
Proof.
  induction l as [|y l IH]; simpl; [reflexivity|].
  destruct (leb x y); [reflexivity|].
  rewrite IH. apply perm_swap.
Qed.

Lemma sortBy_Permutation (l : list A) : Permutation (sortBy leb l) l.
Proof.
  induction l as [|x l IH]; simpl; [reflexivity|].
  rewrite insertSorted_Permutation. now constructor.
Qed.

Lemma insertSorted_HdRel (x y : A) (l : list A) :
  leRel leb y x -> HdRel (leRel leb) y l -> HdRel (leRel leb) y (insertSorted leb x l).
Proof.
  intros Hyx Hhd. destruct l as [|z l]; simpl; [now constructor|].
  destruct (leb x z); constructor; [exact Hyx|]. now inversion Hhd.
Qed.

Lemma insertSorted_Sorted (x : A) (l : list A) :
  Sorted (leRel leb) l -> Sorted (leRel leb) (insertSorted leb x l).
Proof.
  induction l as [|y l IH]; simpl; intros Hs; [now repeat constructor|].
  destruct (leb x y) eqn:E.
  - constructor; [exact Hs | now constructor].
  - inversion Hs as [|? ? Hs' Hhd]; subst. constructor; [now apply IH|].
    apply insertSorted_HdRel; [|exact Hhd].
    destruct (leb_total x y) as [H|H]; [congruence | exact H].
Qed.

Lemma sortBy_Sorted (l : list A) : Sorted (leRel leb) (sortBy leb l).
Proof.
  induction l as [|x l IH]; simpl; [constructor | now apply insertSorted_Sorted].
Qed.
End SortFacts.

Lemma pair_compare_antisym (a b : string * Z) :
  pair_compare a b = CompOpp (pair_compare b a).
Proof.
  unfold pair_compare. rewrite String.compare_antisym, Z.compare_antisym.
  destruct (String.compare (fst b) (fst a)); reflexivity.
Qed.

Lemma ClockArray_compare_antisym (a : ClockArray) :
  forall b, ClockArray_compare a b = CompOpp (ClockArray_compare b a).
Proof.
  induction a as [|x a IH]; intros [|y b]; simpl; try reflexivity.
  rewrite pair_compare_antisym, IH. destruct (pair_compare y x); reflexivity.
Qed.

Lemma ClockArray_compare_eq (a : ClockArray) :
  forall b, ClockArray_compare a b = Eq <-> a = b.
Proof.
  induction a as [|[s n] a IH]; intros [|[s' n'] b]; simpl; try easy.
  unfold pair_compare. simpl. split.
  - destruct (String.compare s s') eqn:Es; try discriminate.
    destruct (Z.compare n n') eqn:En; try discriminate.
    intros H. apply String.compare_eq_iff in Es. apply Z.compare_eq in En.
    apply IH in H. congruence.
  - intros H. injection H as <- <- <-.
    assert (String.compare s s = Eq) as ->.
    { pose proof (String.compare_antisym s s) as H.
      destruct (String.compare s s); simpl in H; congruence. }
    rewrite Z.compare_refl. now apply IH.
Qed.

Lemma clockLeb_total (a b : Diff.t) : clockLeb a b = true \/ clockLeb b a = true.
Proof.
  unfold clockLeb, ClockArray_leb.
  rewrite (ClockArray_compare_antisym (orderKey b)).
  destruct (ClockArray_compare (orderKey a) (orderKey b)); simpl; tauto.
Qed.

Lemma String_compare_lt_trans (a b c : string) :
  String.compare a b = Lt -> String.compare b c = Lt -> String.compare a c = Lt.
Proof.
  intros H1 H2. apply String_as_OT.cmp_lt.
  apply String_as_OT.lt_trans with b; now apply String_as_OT.cmp_lt.
Qed.

Lemma pair_compare_eq (a b : string * Z) : pair_compare a b = Eq <-> a = b.
Proof.
  destruct a as [s n], b as [s' n']. unfold pair_compare. simpl. split.
  - destruct (String.compare s s') eqn:Es; try discriminate.
    intros En. apply String.compare_eq_iff in Es. apply Z.compare_eq in En.
    congruence.
  - intros H. injection H as <- <-.
    assert (String.compare s s = Eq) as -> by now apply String_as_OT.cmp_eq.
    apply Z.compare_refl.
Qed.

Lemma pair_compare_lt_trans (a b c : string * Z) :
  pair_compare a b = Lt -> pair_compare b c = Lt -> pair_compare a c = Lt.
Proof.
  destruct a as [s1 n1], b as [s2 n2], c as [s3 n3]. unfold pair_compare. simpl.
  destruct (String.compare s1 s2) eqn:E12; try discriminate;
    destruct (String.compare s2 s3) eqn:E23; try discriminate; intros H1 H2.
  - apply String.compare_eq_iff in E12, E23. subst.
    assert (String.compare s3 s3 = Eq) as -> by now apply String_as_OT.cmp_eq.
    rewrite Z.compare_lt_iff in *. lia.
  - apply String.compare_eq_iff in E12. subst. now rewrite E23.
  - apply String.compare_eq_iff in E23. subst. now rewrite E12.
  - now rewrite (String_compare_lt_trans _ _ _ E12 E23).
Qed.

Lemma ClockArray_compare_lt_trans (a : ClockArray) :
  forall b c,
    ClockArray_compare a b = Lt -> ClockArray_compare b c = Lt ->
    ClockArray_compare a c = Lt.
Proof.
  induction a as [|x a IH]; intros [|y b] [|z c]; simpl; try easy.
  destruct (pair_compare x y) eqn:Exy; try discriminate;
    destruct (pair_compare y z) eqn:Eyz; try discriminate; intros H1 H2.
  - apply pair_compare_eq in Exy, Eyz. subst.
    assert (pair_compare z z = Eq) as -> by now apply pair_compare_eq.
    now apply IH with b.
  - apply pair_compare_eq in Exy. subst. now rewrite Eyz.
  - apply pair_compare_eq in Eyz. subst. now rewrite Exy.
  - now rewrite (pair_compare_lt_trans _ _ _ Exy Eyz).
Qed.

Lemma clockLe_trans (a b c : Diff.t) : clockLe a b -> clockLe b c -> clockLe a c.
Proof.
  unfold clockLe, leRel, clockLeb, ClockArray_leb.
  destruct (ClockArray_compare (orderKey a) (orderKey b)) eqn:Eab; try discriminate;
    destruct (ClockArray_compare (orderKey b) (orderKey c)) eqn:Ebc;
    try discriminate; intros _ _.
  - apply ClockArray_compare_eq in Eab. rewrite Eab, Ebc. reflexivity.
  - apply ClockArray_compare_eq in Eab. rewrite Eab, Ebc. reflexivity.
  - apply ClockArray_compare_eq in Ebc. rewrite <- Ebc, Eab. reflexivity.
  - now rewrite (ClockArray_compare_lt_trans _ _ _ Eab Ebc).
Qed.

Lemma fold_unionOrdered_Err (xs : list (list Diff.t)) (e : error) :
  fold_left unionOrdered xs (Err e) = Err e.
Proof. induction xs as [|x xs IH]; simpl; [reflexivity | exact IH]. Qed.

Lemma fold_unionOrdered (ds : list Diff.t) :
  forall acc l,
    Sorted clockLe acc ->
    fold_left unionOrdered (map (fun diff => [diff]) ds) (Ok acc) = Ok l ->
    Sorted clockLe l /\ Permutation l (acc ++ ds).
Proof.
  induction ds as [|x ds IH]; simpl; intros acc l Hs H.
  - injection H as <-. rewrite app_nil_r. now split.
  - unfold OrderByClock in H. destruct (forallb hasBranchClock (acc ++ [x])).
    + apply IH in H; [|apply sortBy_Sorted, clockLeb_total].
      destruct H as [Hl Hp]. split; [exact Hl|].
      rewrite Hp, (sortBy_Permutation clockLeb (acc ++ [x])), <- app_assoc.
      reflexivity.
    + rewrite fold_unionOrdered_Err in H. discriminate.
Qed.

Lemma orderedDiffs_sorted (diffs l : list Diff.t) :
  orderedDiffs diffs = Ok l -> StronglySorted clockLe l /\ Permutation l diffs.
Proof.
  assert (Sorted clockLe l /\ Permutation l diffs -> 
          StronglySorted clockLe l /\ Permutation l diffs) as Hstrong.
  { intros [Hs Hp]. split; [|exact Hp].
    apply Sorted_StronglySorted; [|exact Hs].
    intros a b c. apply clockLe_trans. }
  intros H. apply Hstrong. revert H.
  unfold orderedDiffs. destruct diffs as [|x ds]; simpl; intros H.
  - injection H as <-. now split.
  - apply (fold_unionOrdered ds [x] l); [now repeat constructor | exact H].
Qed.

(** ** The diffs of a path in a clock interval *)

Lemma PathKey_eqb_eq (a b : PathKey) : PathKey_eqb a b = true <-> a = b.
Proof.
  destruct a as [[r1 p1] c1], b as [[r2 p2] c2]. unfold PathKey_eqb, ClockArray_eqb.
  rewrite !andb_true_iff, !String.eqb_eq.
  pose proof (ClockArray_compare_eq c1 c2) as Hc.
  destruct (ClockArray_compare c1 c2); split; intros H.
  - destruct H as [[-> ->] _]. f_equal. now apply Hc.
  - injection H as -> -> _. tauto.
  - now destruct H.
  - injection H as _ _ H. now apply Hc in H.
  - now destruct H.
  - injection H as _ _ H. now apply Hc in H.
Qed.

Lemma pathDiffs_In (d : DB) (repo path : string) (query : list ClockArray)
  (x : Diff.t) :
  In x (pathDiffs d repo path query)
  <-> In x (diffTable d)
      /\ Diff.Repo x = repo /\ Diff.Path x = path
      /\ exists bc, In bc (Diff.BranchClocks x) /\ In (BranchClockToArray bc) query.
Proof.
  unfold pathDiffs, EqJoin, DiffPathIndex_keys. rewrite in_flat_map. split.
  - intros (k & Hk & H). apply in_map_iff in Hk. destruct Hk as (clocks & <- & Hq).
    apply filter_In in H. destruct H as [Hin H]. apply existsb_exists in H.
    destruct H as (k' & Hk' & E). apply PathKey_eqb_eq in E. subst k'.
    apply in_map_iff in Hk'. destruct Hk' as (bc & E & Hbc).
    injection E as -> -> <-. split; [exact Hin|]. repeat split. now exists bc.
  - intros (Hin & <- & <- & bc & Hbc & Hq).
    exists (Diff.Repo x, Diff.Path x, BranchClockToArray bc). split.
    + apply in_map_iff. now exists (BranchClockToArray bc).
    + apply filter_In. split; [exact Hin|]. apply existsb_exists.
      exists (Diff.Repo x, Diff.Path x, BranchClockToArray bc).
      split; [|now apply PathKey_eqb_eq]. apply in_map_iff. now exists bc.
Qed.

(** ** inspectFile and InspectFile *)

Lemma inspectFile_fold (d : DB) (file : pfs.File) (filterShard : option Shard)
  (from : option pfs.Commit) (query : list ClockArray) (folded diff : Diff.t) :
  getIntervalQueryFromCommitRange d from (pfs.FileCommit file) = Ok query ->
  foldDiffs (pathDiffs d (pfs.Repo (pfs.FileCommit file)) (pfs.Path file) query)
  = Ok folded ->
  inspectFile d file filterShard from = Ok diff ->
  Diff.FileType diff = Diff.FileType folded
  /\ Diff.Size diff = Diff.Size folded
  /\ Diff.Modified diff = Diff.Modified folded
  /\ Diff.BlockRefs diff = filterBlockRefs filterShard file (Diff.BlockRefs folded).
Proof.
  intros Hq Hf. unfold inspectFile.
  destruct (FileInShard filterShard file); simpl; [|discriminate].
  rewrite Hq. simpl. rewrite Hf. simpl.
  destruct (Diff.BlockRefs folded) as [|ref refs] eqn:B.
  - destruct (BlockInShard filterShard file None); simpl; [|discriminate].
    intros H. injection H as <-. now rewrite B.
  - destruct (filterBlockRefs filterShard file (ref :: refs)) as [|r rs];
      [discriminate|].
    intros H. injection H as <-. now repeat split.
Qed.

Lemma InspectFile_NONE (d : DB) (file : pfs.File) (filterShard : option Shard)
  (from : option pfs.Commit) (query : list ClockArray) (folded : Diff.t) :
  getIntervalQueryFromCommitRange d from (pfs.FileCommit file) = Ok query ->
  foldDiffs (pathDiffs d (pfs.Repo (pfs.FileCommit file))
                       (fixPath (pfs.Path file)) query) = Ok folded ->
  Diff.FileType folded = FileType_NONE ->
  InspectFile d file filterShard from
  = Err (fileNotFound (pfs.mkFile (pfs.FileCommit file) (fixPath (pfs.Path file)))).
Proof.
  intros Hq Hf Hty. unfold InspectFile.
  destruct (inspectFile d (pfs.mkFile (pfs.FileCommit file) (fixPath (pfs.Path file)))
                        filterShard from) as [diff|e] eqn:E; simpl.
  - destruct (inspectFile_fold d
                (pfs.mkFile (pfs.FileCommit file) (fixPath (pfs.Path file)))
                filterShard from query folded diff Hq Hf E) as [Ht _].
    rewrite Ht, Hty. reflexivity.
  - revert E. unfold inspectFile.
    destruct (FileInShard filterShard _); simpl; [|congruence].
    simpl in Hq. rewrite Hq. simpl. simpl in Hf. rewrite Hf. simpl.
    destruct (Diff.BlockRefs folded) as [|ref refs].
    + destruct (BlockInShard filterShard _ None); simpl; congruence.
    + destruct (filterBlockRefs filterShard _ (ref :: refs)); congruence.
Qed.

(** ** GetFile and its reader *)

(** C6 fails on a path whose fold is NONE: [/a/b] is deleted in the head
    commit, [InspectFile] reports file-not-found, and [GetFile] returns a
    reader, one without block refs whose first [Read] is the end of the
    file. *)
Theorem GetFile_reads_deleted_file :
  InspectFile deletedDB headFile (Some wholeShard) None
  = Err (ErrFileNotFound "/a/b" "r" "master/1")
  /\ exists r,
      GetFile blockStore deletedDB headFile (Some wholeShard) 0 0 None = Ok r
      /\ blockRefs r = []
      /\ snd (Read r 16) = mkReadResult 0 (Some io_EOF) [].
Proof.
  split; [vm_compute; reflexivity|].
  eexists. split; [vm_compute; reflexivity|]. split; reflexivity.
Qed.

(** A directory is refused, and a file gives the reader of its block
    refs. *)
Lemma GetFile_directory_and_file :
  GetFile blockStore exampleDB (pfs.mkFile (pfs.mkCommit "r" "master/1") "/a/")
          (Some wholeShard) 0 0 None
  = Err (ErrIsDirectory "r" "master/1" "/a")
  /\ GetFile blockStore exampleDB headFile (Some wholeShard) 3 0 None
     = Ok (newFileReader blockStore
             [BlockRef.mk "h0" 0 2; BlockRef.mk "h1" 0 3]
             (pfs.mkFile (pfs.mkCommit "r" "master/1") "/a/b") 3 0).
Proof. split; vm_compute; reflexivity. Qed.

Lemma int64_small (z : Z) : 0 <= z < 2 ^ 63 -> int64 z = z.
Proof. intros H. unfold int64. rewrite Z.mod_small; lia. Qed.

(** The reader drops whole blocks until the offset falls inside the next
    one: the blocks dropped are a leading run of the block refs, the offset
    left is the offset less their sizes, and it lies inside the block the
    loop stops at. *)
Lemma skipBlocks_spec (refs : list BlockRef.t) :
  forall offset,
    0 <= offset < 2 ^ 63 ->
    Forall (fun b => BlockRef_Size b < 2 ^ 63) refs ->
    match skipBlocks offset refs with
    | (Some blockRef, offset', rest) =>
        exists skipped,
          refs = (skipped ++ blockRef :: rest)%list
          /\ offset' = offset - sumBlockSizes skipped
          /\ 0 <= offset' < BlockRef_Size blockRef
    | (None, offset', rest) =>
        rest = [] /\ offset' = offset - sumBlockSizes refs /\ 0 <= offset'
    end.
Proof.
  induction refs as [|b refs IH]; simpl; intros offset Ho Hall.
  - repeat split; lia.
  - inversion Hall as [|? ? Hb Hrest]; subst.
    assert (0 <= BlockRef_Size b) as Hb0
        by (unfold BlockRef_Size, uint64; apply Z.mod_pos_bound; lia).
    rewrite (int64_small (BlockRef_Size b)) by lia.
    destruct (Z.leb_spec (BlockRef_Size b) offset) as [Hle|Hlt].
    + rewrite int64_small by lia.
      specialize (IH (offset - BlockRef_Size b) ltac:(lia) Hrest).
      destruct (skipBlocks (offset - BlockRef_Size b) refs)
        as [[[blockRef|] offset'] rest].
      * destruct IH as (skipped & -> & -> & Hin). exists (b :: skipped).
        simpl. repeat split; lia.
      * destruct IH as (-> & -> & Hin). repeat split; lia.
    + exists []. simpl. repeat split; lia.
Qed.

(** [GetFile] refuses exactly the directories among the diffs that
    [inspectFile] returns. *)
Lemma GetFile_spec (client : BlockAPIClient) (d : DB) (file : pfs.File)
  (filterShard : option Shard) (offset size : Z) (from : option pfs.Commit) :
  GetFile client d file filterShard offset size from
  = match inspectFile d (pfs.mkFile (pfs.FileCommit file) (fixPath (pfs.Path file)))
                      filterShard from with
    | Err e => Err e
    | Ok diff =>
        if FileType_eqb (Diff.FileType diff) FileType_DIR
        then Err (ErrIsDirectory (pfs.Repo (pfs.FileCommit file))
                                 (pfs.ID (pfs.FileCommit file))
                                 (fixPath (pfs.Path file)))
        else Ok (newFileReader client (Diff.BlockRefs diff)
                               (pfs.mkFile (pfs.FileCommit file)
                                           (fixPath (pfs.Path file)))
                               offset size)
    end.
Proof.
  unfold GetFile. destruct (inspectFile d _ filterShard from) as [diff|e]; simpl;
    [|reflexivity].
  now destruct (Diff.FileType diff).
Qed.

(** A read from an open block ends the file when the bytes read reach
    [size], and is an error, with a count of zero, when they pass a [size]
    that is positive. *)
Lemma readOpen_limits (r : fileReader) (open : list ascii) (n : nat) :
  let r' := fst (readOpen r open n) in
  let res := snd (readOpen r open n) in
  (sizeRead r' = size r -> readErr res = Some io_EOF)
  /\ (0 < size r < sizeRead r' ->
      readErr res = Some (io_Err ErrReadMore) /\ count res = 0)
  /\ (sizeRead r' <> size r -> ~ 0 < size r < sizeRead r' -> readErr res = None).
Proof.
  unfold readOpen. cbv zeta.
  destruct (match open with
            | [] => ([], None)
            | _ :: _ => (firstn n open, Some (skipn n open))
            end) as [bytes reader'].
  set (sizeRead' := int64 (sizeRead r + Z.of_nat (List.length bytes))).
  destruct (Z.eqb_spec sizeRead' (size r)) as [E|E]; simpl.
  - repeat split; try reflexivity; intros; lia.
  - destruct (Z.ltb_spec 0 (size r)); destruct (Z.ltb_spec (size r) sizeRead');
      simpl; repeat split; try reflexivity; intros; try lia; tauto.
Qed.

(** The reader of [/a/b] at the head of the small repository, asked for
    everything from offset 3 on: the first block, of two bytes, is dropped
    whole and the read starts one byte into the second. *)
Lemma Read_example :
  let r := newFileReader blockStore [BlockRef.mk "h0" 0 2; BlockRef.mk "h1" 0 3]
                         headFile 3 0 in
  skipBlocks (offset r) (blockRefs r) = (Some (BlockRef.mk "h1" 0 3), 1, [])
  /\ data (snd (Read r 16)) = list_ascii_of_string "01"
  /\ readErr (snd (Read r 16)) = None
  /\ readErr (snd (Read (fst (Read r 16)) 16)) = None
  /\ reader (fst (Read (fst (Read r 16)) 16)) = None
  /\ snd (Read (fst (Read (fst (Read r 16)) 16)) 16)
     = mkReadResult 0 (Some io_EOF) [].
Proof. repeat split. Qed.

(** The clocks from the root to [[(master,3),(dev,2)]], ascending and in
    reverse. *)
Lemma intervalToClocks_example :
  intervalToClocks None
    (BranchClock.mk [Clock.mk "master" 3; Clock.mk "dev" 2]) false
  = Ok [[("master", 0)]; [("master", 1)]; [("master", 2)]; [("master", 3)];
        [("master", 3); ("dev", 0)]; [("master", 3); ("dev", 1)];
        [("master", 3); ("dev", 2)]]
  /\ intervalToClocks None
       (BranchClock.mk [Clock.mk "master" 3; Clock.mk "dev" 2]) true
     = Ok [[("master", 3); ("dev", 2)]; [("master", 3); ("dev", 1)];
           [("master", 3); ("dev", 0)];
           [("master", 3)]; [("master", 2)]; [("master", 1)]; [("master", 0)]].
Proof. split; vm_compute; reflexivity. Qed.

(** The three forms of a commit reference, all resolving to [c1]: the id
    of the returned info is the reference in each case. *)
Lemma InspectCommit_three_references :
  getCommitByAmbiguousID exampleDB "r" "c1" = Ok commit1
  /\ getCommitByAmbiguousID exampleDB "r" "master" = Ok commit1
  /\ getCommitByAmbiguousID exampleDB "r" "master/1" = Ok commit1
  /\ (forall ref, In ref ["c1"; "master"; "master/1"] ->
                  exists info,
                    InspectCommit exampleDB (pfs.mkCommit "r" ref) = Ok info
                    /\ pfs.ID (pfs.Commit_ info) = ref
                    /\ pfs.SizeBytes info = 3).
Proof.
  repeat split.
  intros ref [<-|[<-|[<-|[]]]]; eexists; repeat split.
Qed.

(** * Further properties of the driver *)

(** ** Path normalisation *)

Lemma dropLast_length (s : string) :
  s <> EmptyString -> S (String.length (dropLast s)) = String.length s.
Proof.
  induction s as [|a s IH]; [easy|]. intros _.
  destruct s as [|b s]; [reflexivity|].
  change (S (S (String.length (dropLast (String b s))))
          = S (String.length (String b s))).
  f_equal. now apply IH.
Qed.

Lemma lastChar_Some (a : ascii) (s : string) :
  exists c, lastChar (String a s) = Some c.
Proof.
  revert a. induction s as [|b s IH]; intros a; [now exists a|].
  destruct (IH b) as [c Hc]. exists c. exact Hc.
Qed.

Lemma trim_fixed (r : string) :
  match lastChar (String "/" r) with
  | Some c =>
      if (1 <? String.length (String "/" r))%nat && Ascii.eqb c "/"%char
      then dropLast (String "/" r) else String "/" r
  | None => String "/" r
  end = String "/" r
  <-> (String "/" r = "/" \/ endsWithSlash (String "/" r) = false).
Proof.
  unfold endsWithSlash.
  destruct (lastChar_Some "/" r) as [c' L]. rewrite L.
  destruct r as [|b r].
  - simpl. split; [now left | reflexivity].
  - change (1 <? String.length (String "/" (String b r)))%nat with true.
    cbv beta iota delta [andb]. destruct (Ascii.eqb c' "/") eqn:E.
    + split.
      * intros H. apply (f_equal String.length) in H.
        pose proof (dropLast_length (String "/" (String b r)) ltac:(easy)) as Hl.
        rewrite H in Hl. lia.
      * intros [H|H]; discriminate.
    + split; [now right | reflexivity].
Qed.

(** X1. [fixPath] always gives a path with a leading slash, and it leaves
    a path as it is exactly when the path has a leading slash and, unless
    it is the root, no trailing one. *)
Theorem fixPath_fixed_points (path : string) :
  startsWithSlash (fixPath path) = true
  /\ (fixPath path = path
      <-> startsWithSlash path = true
          /\ (path = "/" \/ endsWithSlash path = false)).
Proof.
  split.
  { destruct (fixPath_slash path) as [rest ->]. reflexivity. }
  unfold fixPath. destruct path as [|c r].
  - simpl. split; [discriminate | intros [H _]; discriminate].
  - simpl startsWithSlash. destruct (Ascii.eqb_spec c "/"%char) as [->|Hc].
    + rewrite trim_fixed. tauto.
    + split; [|intros [H _]; discriminate].
      change ("/" ++ String c r) with (String "/" (String c r)).
      destruct (lastChar (String "/" (String c r))) as [c'|];
        [destruct (_ && _)|]; intros H; injection H as H _; congruence.
Qed.

Lemma prefixesFrom_skips_empty (parts : list string) :
  forall prefix,
    prefixesFrom prefix parts = prefixesFrom prefix (filter nonEmptyPart parts).
Proof.
  induction parts as [|part parts IH]; intros prefix; simpl; [reflexivity|].
  unfold nonEmptyPart at 1. destruct (String.eqb part "") eqn:E; simpl.
  - apply IH.
  - rewrite E. f_equal. apply IH.
Qed.

Lemma prefixesFrom_length (parts : list string) :
  forall prefix,
    List.length (prefixesFrom prefix parts)
    = List.length (filter nonEmptyPart parts).
Proof.
  induction parts as [|part parts IH]; intros prefix; simpl; [reflexivity|].
  unfold nonEmptyPart at 1. destruct (String.eqb part ""); simpl; now rewrite IH.
Qed.

Lemma prefixesFrom_growing (parts : list string) :
  forall prefix,
    StronglySorted (fun a b => (String.length a < String.length b)%nat)
                   (prefixesFrom prefix parts).
Proof.
  induction parts as [|part parts IH]; intros prefix; simpl; [constructor|].
  destruct (String.eqb part ""); [apply IH|].
  constructor; [apply IH|]. apply Forall_forall. intros q Hq.
  now apply prefixesFrom_longer in Hq.
Qed.

(** ** The fold over the diffs of a path *)

Lemma fold_foldStep_frame (l : list Diff.t) :
  forall acc,
    Diff.ID (fold_left foldStep l acc) = Diff.ID acc
    /\ Diff.Repo (fold_left foldStep l acc) = Diff.Repo acc
    /\ Diff.Delete (fold_left foldStep l acc) = Diff.Delete acc
    /\ Diff.BranchClocks (fold_left foldStep l acc) = Diff.BranchClocks acc.
Proof.
  induction l as [|x l IH]; intros acc; simpl; [now repeat split|].
  destruct (IH (foldStep acc x)) as (H1 & H2 & H3 & H4).
  rewrite H1, H2, H3, H4. unfold foldStep. now destruct (Diff.Delete x).
Qed.

(** X3. A delete diff hides what came before it: the fold of a sequence
    of diffs is the fold of the sequence from its delete diff on. *)
Theorem foldStep_delete_hides_history (before after : list Diff.t) (del : Diff.t) :
  Diff.Delete del = true ->
  fold_left foldStep (before ++ del :: after) Diff.zero
  = fold_left foldStep (del :: after) Diff.zero.
Proof.
  intros Hdel. rewrite fold_left_app. simpl.
  assert (foldStep (fold_left foldStep before Diff.zero) del = foldStep Diff.zero del)
    as ->; [|reflexivity].
  destruct (fold_foldStep_frame before Diff.zero) as (H1 & H2 & H3 & H4).
  revert H1 H2 H3 H4. generalize (fold_left foldStep before Diff.zero).
  intros acc H1 H2 H3 H4. unfold foldStep. rewrite Hdel, H1, H2, H3, H4. reflexivity.
Qed.

Lemma foldStep_delete_hides_history_witness :
  fold_left foldStep
    ([fileDiff commit0 "/a/b" [BlockRef.mk "h0" 0 2] 2 1]
       ++ deleteDiff commit1 "/a/b" :: [fileDiff commit1 "/a/b" secondRefs 4 6])
    Diff.zero
  = Diff.mk "" "" false "c1" "/a/b" secondRefs FileType_FILE 4 [] (Some 6).
Proof.
  rewrite (foldStep_delete_hides_history
             [fileDiff commit0 "/a/b" [BlockRef.mk "h0" 0 2] 2 1]
             [fileDiff commit1 "/a/b" secondRefs 4 6]
             (deleteDiff commit1 "/a/b") eq_refl).
  reflexivity.
Defined.

Lemma fold_foldStep_appends (l : list Diff.t) :
  Forall (fun diff => Diff.Delete diff = false) l ->
  forall acc,
    Diff.BlockRefs (fold_left foldStep l acc)
    = (Diff.BlockRefs acc ++ List.concat (map Diff.BlockRefs l))%list
    /\ Diff.Size (fold_left foldStep l acc) = Diff.Size acc + sumSizes l.
Proof.
  induction 1 as [|x l Hx Hl IH]; intros acc; simpl.
  - rewrite app_nil_r. split; [reflexivity | lia].
  - destruct (IH (foldStep acc x)) as [Hb Hs]. rewrite Hb, Hs.
    unfold foldStep. rewrite Hx. simpl. rewrite app_assoc. split; [reflexivity | lia].
Qed.

(** X4. Without a delete diff among them, the fold of a sequence of diffs
    holds their block refs one diff after the other and the sum of their
    sizes. *)
Theorem fold_without_deletes (l : list Diff.t) :
  Forall (fun diff => Diff.Delete diff = false) l ->
  Diff.BlockRefs (fold_left foldStep l Diff.zero) = List.concat (map Diff.BlockRefs l)
  /\ Diff.Size (fold_left foldStep l Diff.zero) = sumSizes l.
Proof.
  intros H. destruct (fold_foldStep_appends l H Diff.zero) as [Hb Hs].
  rewrite Hb, Hs. now split.
Qed.

Lemma fold_without_deletes_witness :
  Diff.BlockRefs
    (fold_left foldStep
       [fileDiff commit0 "/a/b" [BlockRef.mk "h0" 0 2] 2 1;
        fileDiff commit1 "/a/b" [BlockRef.mk "h1" 0 3] 3 4] Diff.zero)
  = [BlockRef.mk "h0" 0 2; BlockRef.mk "h1" 0 3]
  /\ Diff.Size
       (fold_left foldStep
          [fileDiff commit0 "/a/b" [BlockRef.mk "h0" 0 2] 2 1;
           fileDiff commit1 "/a/b" [BlockRef.mk "h1" 0 3] 3 4] Diff.zero)
     = 5.
Proof.
  apply (fold_without_deletes
           [fileDiff commit0 "/a/b" [BlockRef.mk "h0" 0 2] 2 1;
            fileDiff commit1 "/a/b" [BlockRef.mk "h1" 0 3] 3 4]).
  repeat constructor.
Defined.

Lemma StronglySorted_last {A : Type} (R : A -> A -> Prop) (l : list A) (x : A) :
  StronglySorted R (l ++ [x]) -> forall y, In y l -> R y x.
Proof.
  induction l as [|a l IH]; simpl; intros Hs y Hy; [easy|].
  inversion Hs as [|? ? Hs' Hall]; subst. destruct Hy as [<-|Hy].
  - rewrite Forall_forall in Hall. apply Hall, in_or_app. right. now left.
  - now apply IH.
Qed.

(** The fold of a stream of diffs takes its path, commit, file type and
    modification time from a diff of the stream that no other one comes
    after in clock order. *)
Lemma foldDiffs_latest (diffs : list Diff.t) (folded : Diff.t) :
  foldDiffs diffs = Ok folded ->
  diffs <> [] ->
  exists latest,
    In latest diffs
    /\ (forall y, In y diffs -> clockLe y latest)
    /\ Diff.FileType folded = Diff.FileType latest
    /\ Diff.CommitID folded = Diff.CommitID latest
    /\ Diff.Path folded = Diff.Path latest
    /\ Diff.Modified folded = Diff.Modified latest.
Proof.
  unfold foldDiffs. destruct (orderedDiffs diffs) as [ordered|e] eqn:E; [|discriminate].
  simpl. intros H Hne. injection H as <-.
  apply orderedDiffs_sorted in E. destruct E as [Hs Hp].
  destruct (exists_last (l := ordered)) as (l & latest & ->).
  { intros ->. apply Permutation_nil in Hp. contradiction. }
  exists latest. split.
  - apply (Permutation_in _ Hp), in_or_app. right. now left.
  - split.
    + intros y Hy. apply (Permutation_in _ (Permutation_sym Hp)) in Hy.
      apply in_app_or in Hy. destruct Hy as [Hy|[Hy|[]]].
      * now apply (StronglySorted_last clockLe l latest).
      * subst y. destruct (clockLeb_total latest latest); assumption.
    + rewrite fold_left_app. simpl. unfold foldStep.
      now destruct (Diff.Delete latest).
Qed.

(** ** InspectFile and the latest diff *)

Lemma foldDiffs_nil : foldDiffs [] = Ok Diff.zero.
Proof. reflexivity. Qed.

Lemma inspectFile_Ok_fold (d : DB) (file : pfs.File) (filterShard : option Shard)
  (from : option pfs.Commit) (query : list ClockArray) (diff : Diff.t) :
  getIntervalQueryFromCommitRange d from (pfs.FileCommit file) = Ok query ->
  inspectFile d file filterShard from = Ok diff ->
  exists folded,
    foldDiffs (pathDiffs d (pfs.Repo (pfs.FileCommit file)) (pfs.Path file) query)
    = Ok folded.
Proof.
  intros Hq. unfold inspectFile.
  destruct (FileInShard filterShard file); simpl; [|discriminate].
  rewrite Hq. simpl.
  destruct (foldDiffs _) as [folded|e]; simpl; [|discriminate].
  intros _. now exists folded.
Qed.

(** X5. What [InspectFile] reports comes from the latest diff of the path:
    when it returns a file info, the path has a diff in the clock interval
    that no other one comes after, that diff is not of type NONE, and the
    info has its modification time and its type, and for a regular file its
    commit as the commit that modified the file. *)
Theorem InspectFile_reports_latest_diff (d : DB) (file : pfs.File)
  (filterShard : option Shard) (from : option pfs.Commit)
  (query : list ClockArray) (info : pfs.FileInfo) :
  getIntervalQueryFromCommitRange d from (pfs.FileCommit file) = Ok query ->
  InspectFile d file filterShard from = Ok info ->
  exists latest,
    In latest (pathDiffs d (pfs.Repo (pfs.FileCommit file))
                         (fixPath (pfs.Path file)) query)
    /\ (forall y,
           In y (pathDiffs d (pfs.Repo (pfs.FileCommit file))
                           (fixPath (pfs.Path file)) query) ->
           clockLe y latest)
    /\ pfs.Modified info = Diff.Modified latest
    /\ match Diff.FileType latest with
       | FileType_FILE =>
           pfs.FileType_ info = Some pfs.FileType_FILE_TYPE_REGULAR
           /\ pfs.CommitModified info
              = Some (pfs.mkCommit (pfs.Repo (pfs.FileCommit file))
                                   (Diff.CommitID latest))
       | FileType_DIR => pfs.FileType_ info = Some pfs.FileType_FILE_TYPE_DIR
       | FileType_NONE => False
       end.
Proof.
  intros Hq Hinfo.
  set (file' := pfs.mkFile (pfs.FileCommit file) (fixPath (pfs.Path file))).
  destruct (inspectFile d file' filterShard from) as [diff|e] eqn:E.
  2:{ unfold InspectFile in Hinfo. fold file' in Hinfo. rewrite E in Hinfo.
      discriminate. }
  destruct (inspectFile_Ok_fold d file' filterShard from query diff Hq E)
    as [folded Hf].
  destruct (inspectFile_fold d file' filterShard from query folded diff Hq Hf E)
    as (Hty & _ & Hmod & _).
  simpl in Hf.
  assert (pathDiffs d (pfs.Repo (pfs.FileCommit file)) (fixPath (pfs.Path file))
                    query <> []) as Hne.
  { intros Hnil. rewrite Hnil, foldDiffs_nil in Hf. injection Hf as <-.
    unfold InspectFile in Hinfo. fold file' in Hinfo. rewrite E in Hinfo.
    simpl in Hinfo. rewrite Hty in Hinfo. discriminate. }
  destruct (foldDiffs_latest _ _ Hf Hne) as (latest & Hin & Hmax & Hlt & Hlc & _ & Hlm).
  exists latest. split; [exact Hin|]. split; [exact Hmax|].
  unfold InspectFile in Hinfo. fold file' in Hinfo. rewrite E in Hinfo.
  simpl in Hinfo. rewrite <- Hlt, <- Hty, <- Hlm, <- Hmod, <- Hlc.
  assert (Diff.CommitID diff = Diff.CommitID folded) as Hcid.
  { revert E. unfold inspectFile.
    destruct (FileInShard filterShard file'); simpl; [|discriminate].
    rewrite Hq. simpl. rewrite Hf. simpl.
    destruct (Diff.BlockRefs folded).
    - destruct (BlockInShard filterShard file' None); simpl; [|discriminate].
      intros H. now injection H as <-.
    - destruct (filterBlockRefs filterShard file' _); [discriminate|].
      intros H. now injection H as <-. }
  rewrite <- Hcid.
  destruct (Diff.FileType diff).
  - discriminate.
  - injection Hinfo as <-. simpl. now repeat split.
  - destruct (getChildren d _ _ from _) as [children|e]; simpl in Hinfo;
      [|discriminate].
    injection Hinfo as <-. simpl. now split.
Qed.

Lemma InspectFile_reports_latest_diff_witness :
  exists latest,
    In latest (pathDiffs exampleDB "r" "/a/b" [[("master", 1)]; [("master", 0)]])
    /\ Diff.CommitID latest = "c1"
    /\ Diff.Modified latest = Some 4.
Proof.
  destruct (InspectFile_reports_latest_diff exampleDB headFile None None
              [[("master", 1)]; [("master", 0)]]
              (pfs.mkFileInfo (pfs.mkFile (pfs.mkCommit "r" "master/1") "/a/b")
                              (Some pfs.FileType_FILE_TYPE_REGULAR) (Some 4)
                              (Some (pfs.mkCommit "r" "c1")) 5 [])
              eq_refl)
    as (latest & Hin & _ & Hmod & Hty).
  { vm_compute. reflexivity. }
  exists latest. split; [exact Hin|]. simpl in Hmod.
  split; [|now symmetry].
  vm_compute in Hin. destruct Hin as [<-|[<-|[]]]; [reflexivity|].
  simpl in Hmod. discriminate.
Defined.

(** X6. A path whose latest diff is of type NONE, as a delete diff is, is
    not found, whatever the diffs before it: if the query of the fold runs
    and no other diff of the path comes at or after a diff of type NONE in
    clock order, [InspectFile] reports file-not-found. *)
Theorem InspectFile_after_delete (d : DB) (file : pfs.File)
  (filterShard : option Shard) (from : option pfs.Commit)
  (query : list ClockArray) (folded x : Diff.t) :
  getIntervalQueryFromCommitRange d from (pfs.FileCommit file) = Ok query ->
  foldDiffs (pathDiffs d (pfs.Repo (pfs.FileCommit file))
                       (fixPath (pfs.Path file)) query) = Ok folded ->
  In x (pathDiffs d (pfs.Repo (pfs.FileCommit file)) (fixPath (pfs.Path file)) query) ->
  Diff.FileType x = FileType_NONE ->
  (forall y,
      In y (pathDiffs d (pfs.Repo (pfs.FileCommit file))
                      (fixPath (pfs.Path file)) query) ->
      clockLe x y -> y = x) ->
  InspectFile d file filterShard from
  = Err (ErrFileNotFound (fixPath (pfs.Path file)) (pfs.Repo (pfs.FileCommit file))
                         (pfs.ID (pfs.FileCommit file))).
Proof.
  intros Hq Hf Hx Hty Hlast.
  apply (InspectFile_NONE d file filterShard from query folded Hq Hf).
  destruct (foldDiffs_latest _ _ Hf) as (latest & Hin & Hmax & Hlt & _).
  { intros Hnil. rewrite Hnil in Hx. contradiction. }
  rewrite Hlt, (Hlast latest Hin (Hmax x Hx)). exact Hty.
Qed.

Lemma InspectFile_after_delete_witness :
  InspectFile deletedDB headFile None None
  = Err (ErrFileNotFound "/a/b" "r" "master/1").
Proof.
  apply (InspectFile_after_delete deletedDB headFile None None
           [[("master", 1)]; [("master", 0)]]
           (Diff.mk "" "" false "c1" "/a/b" [] FileType_NONE 0 [] None)
           (deleteDiff commit1 "/a/b") eq_refl).
  - vm_compute. reflexivity.
  - vm_compute. now left.
  - reflexivity.
  - intros y Hy. vm_compute in Hy. destruct Hy as [<-|[<-|[]]].
    + reflexivity.
    + vm_compute. discriminate.
Defined.

(** ** Repositories *)

Section DeleteFacts.
Context {D : Type} (key : D -> string).

Lemma Get_Delete_same (t : list D) (k : string) : Get key (Delete key t k) k = None.
Proof.
  unfold Get, Delete. induction t as [|x t IH]; simpl; [reflexivity|].
  destruct (String.eqb (key x) k) eqn:E; simpl; [exact IH|]. now rewrite E.
Qed.

Lemma Get_Delete_other (t : list D) (k k' : string) :
  k' <> k -> Get key (Delete key t k) k' = Get key t k'.
Proof.
  intros Hne. unfold Get, Delete. induction t as [|x t IH]; simpl; [reflexivity|].
  destruct (String.eqb_spec (key x) k) as [E|E]; simpl.
  - destruct (String.eqb_spec (key x) k'); [congruence | exact IH].
  - destruct (String.eqb (key x) k'); [reflexivity | exact IH].
Qed.

Lemma Delete_absent (t : list D) (k : string) :
  Get key t k = None -> Delete key t k = t.
Proof.
  unfold Get, Delete. induction t as [|x t IH]; simpl; [reflexivity|].
  destruct (String.eqb (key x) k); simpl; [discriminate|].
  intros H. now rewrite IH.
Qed.

Lemma Get_app_new (t : list D) (x : D) (k : string) :
  Get key (t ++ [x]) k
  = match Get key t k with
    | Some y => Some y
    | None => if String.eqb (key x) k then Some x else None
    end.
Proof.
  unfold Get. induction t as [|y t IH]; simpl; [reflexivity|].
  destruct (String.eqb (key y) k); [reflexivity | exact IH].
Qed.

Lemma Insert_Delete (t t' : list D) (x : D) :
  Insert key t x = Ok t' -> Delete key t' (key x) = t.
Proof.
  unfold Insert. destruct (Get key t (key x)) eqn:G; [discriminate|].
  intros H. injection H as <-. unfold Delete. rewrite filter_app. simpl.
  rewrite String.eqb_refl. simpl. rewrite app_nil_r. now apply Delete_absent.
Qed.
End DeleteFacts.

(** X8. A [CreateRepo] that returns an error has changed nothing: the
    error is the invalid-name error of a name that is empty or has a byte
    other than a letter, a digit or an underscore, or the conflict of a
    name a repo bears already, and that repo keeps its record. *)
Theorem CreateRepo_refusal (d : DB) (repo : string) (created : option Timestamp)
  (e : createRepoError) :
  snd (CreateRepo d repo created) = Some e ->
  fst (CreateRepo d repo created) = d
  /\ ((e = ErrInvalidRepoName repo
       /\ (repo = "" \/ allRepoNameChars repo = false))
      \/ (e = ErrRepoInsert ErrInsertConflict
          /\ exists rawRepo,
              Get Repo.Name (repoTable d) repo = Some rawRepo
              /\ InspectRepo d repo = Ok (rawRepoToRepoInfo rawRepo))).
Proof.
  unfold CreateRepo, Insert, InspectRepo.
  destruct (validateRepoName repo) eqn:V; simpl.
  - destruct (Get Repo.Name (repoTable d) repo) as [rawRepo|]; simpl; [|discriminate].
    intros H. injection H as <-. split; [reflexivity|]. right.
    split; [reflexivity|]. now exists rawRepo.
  - intros H. injection H as <-. split; [reflexivity|]. left.
    split; [reflexivity|]. unfold validateRepoName in V.
    destruct repo; [now left | now right].
Qed.

Lemma CreateRepo_refusal_witness :
  fst (CreateRepo exampleDB "r" (Some 8)) = exampleDB
  /\ fst (CreateRepo exampleDB "my-repo" (Some 8)) = exampleDB.
Proof.
  split.
  - exact (proj1 (CreateRepo_refusal exampleDB "r" (Some 8)
                    (ErrRepoInsert ErrInsertConflict) eq_refl)).
  - exact (proj1 (CreateRepo_refusal exampleDB "my-repo" (Some 8)
                    (ErrInvalidRepoName "my-repo") eq_refl)).
Defined.

(** X9. After [DeleteRepo] the repo is not there to inspect and the other
    repos inspect as before; on a name no repo bears [DeleteRepo] returns
    no error and changes nothing, so deleting twice is deleting once. *)
Theorem DeleteRepo_then_InspectRepo (d : DB) (name : string) :
  InspectRepo (fst (DeleteRepo d name)) name = Err ErrEmptyResult
  /\ (forall other, other <> name ->
                    InspectRepo (fst (DeleteRepo d name)) other
                    = InspectRepo d other)
  /\ DeleteRepo (fst (DeleteRepo d name)) name = DeleteRepo d name
  /\ (InspectRepo d name = Err ErrEmptyResult -> DeleteRepo d name = (d, None)).
Proof.
  unfold DeleteRepo, InspectRepo. simpl. split; [|split; [|split]].
  - now rewrite Get_Delete_same.
  - intros other Hne. now rewrite Get_Delete_other.
  - rewrite (Delete_absent Repo.Name (Delete Repo.Name (repoTable d) name) name)
      by apply Get_Delete_same.
    reflexivity.
  - destruct (Get Repo.Name (repoTable d) name) eqn:G; [discriminate|]. intros _.
    rewrite (Delete_absent _ _ _ G). now destruct d.
Qed.

(** ** StartCommit *)

Lemma reserveOnBranch_Reserved (lc : Libclock) (d : DB) (repo branch : string)
  (bcs : list BranchClock.t) (clockID : ClockID.t) (clocks : list ClockID.t) :
  reserveOnBranch lc d repo branch = Reserved bcs clockID clocks ->
  Insert ClockID.ID (clockTable d) clockID = Ok clocks
  /\ exists clock, GetClockForBranch lc bcs branch = Ok clock
                   /\ clockID = getClockID repo clock.
Proof.
  unfold reserveOnBranch.
  destruct (match getHeadOfBranch d repo branch with
            | Ok parentCommit =>
                NewChildOfBranchClocks lc (Commit.BranchClocks parentCommit) branch
            | Err ErrEmptyResult => Ok (NewBranchClocks lc branch)
            | Err e => Err e
            end) as [bcs'|e]; [|discriminate].
  destruct (GetClockForBranch lc bcs' branch) as [clock|e] eqn:G; [|discriminate].
  destruct (Insert ClockID.ID (clockTable d) (getClockID repo clock)) as [t|e] eqn:I;
    [|discriminate].
  intros H. injection H as <- <- <-. split; [exact I|]. now exists clock.
Qed.

Lemma reserveFromParent_Reserved (lc : Libclock) (d : DB) (repo parentID branch : string)
  (bcs : list BranchClock.t) (clockID : ClockID.t) (clocks : list ClockID.t) :
  reserveFromParent lc d repo parentID branch = Reserved bcs clockID clocks ->
  Insert ClockID.ID (clockTable d) clockID = Ok clocks
  /\ exists b clock, GetClockForBranch lc bcs b = Ok clock
                     /\ clockID = getClockID repo clock.
Proof.
  unfold reserveFromParent.
  destruct (getCommitByAmbiguousID d repo parentID) as [parentCommit|e]; [|discriminate].
  destruct (Commit.BranchClocks parentCommit) as [|bc0 rest]; [discriminate|].
  destruct (lastClock bc0) as [parentLast|]; [|discriminate].
  destruct (if (branch =? "")%string then Ok [NewChild lc bc0]
            else NewBranchOffBranchClocks lc (bc0 :: rest) (Clock.Branch parentLast)
                                          branch) as [bcs'|e]; [|discriminate].
  destruct (GetClockForBranch lc bcs' _) as [clock|e] eqn:G; [|discriminate].
  destruct (Insert ClockID.ID (clockTable d) (getClockID repo clock)) as [t|e] eqn:I;
    [|discriminate].
  intros H. injection H as <- <- <-. split; [exact I|]. eauto.
Qed.

Lemma reservation_Reserved (lc : Libclock) (uuid : string) (d : DB)
  (repo parentID branch : string)
  (bcs : list BranchClock.t) (clockID : ClockID.t) (clocks : list ClockID.t) :
  (if String.eqb parentID ""
   then reserveOnBranch lc d repo (if String.eqb branch "" then uuid else branch)
   else reserveFromParent lc d repo parentID branch) = Reserved bcs clockID clocks ->
  Insert ClockID.ID (clockTable d) clockID = Ok clocks
  /\ exists b clock, GetClockForBranch lc bcs b = Ok clock
                     /\ clockID = getClockID repo clock.
Proof.
  destruct (String.eqb parentID "").
  - intros H. apply reserveOnBranch_Reserved in H.
    destruct H as (I & clock & G & E). split; [exact I|]. eauto.
  - apply reserveFromParent_Reserved.
Qed.

(** X12. A [StartCommit] that succeeds has inserted one commit record and
    one clock record and nothing else: the commit bears the given id and
    repo, the time of the call as its start (not the [started] argument),
    the ids of the provenance, no finish time, no cancel flag and size
    zero; the clock record is the one of the clock the commit has on its
    branch; neither the commit id nor the clock id was in use before. *)
Theorem StartCommit_success (lc : Libclock) (uuid : string) (now : Timestamp)
  (d d' : DB) (repo commitID parentID branch : string) (started : option Timestamp)
  (provenance : list pfs.Commit) :
  StartCommit lc uuid now d repo commitID parentID branch started provenance
  = Started d' None ->
  exists branchClocks b clock,
    GetClockForBranch lc branchClocks b = Ok clock
    /\ commitTable d'
       = (commitTable d
            ++ [Commit.mk commitID repo (Some now) None false branchClocks
                          (map pfs.ID provenance) 0])%list
    /\ clockTable d' = (clockTable d ++ [getClockID repo clock])%list
    /\ repoTable d' = repoTable d
    /\ diffTable d' = diffTable d
    /\ Get Commit.ID (commitTable d) commitID = None
    /\ Get ClockID.ID (clockTable d) (ClockID.ID (getClockID repo clock)) = None.
Proof.
  unfold StartCommit.
  destruct (if String.eqb parentID "" then _ else _)
    as [bcs clockID clocks|e'|] eqn:R; [|discriminate|discriminate].
  apply reservation_Reserved in R. destruct R as (I & b & clock & G & ->).
  unfold Insert in *. simpl.
  destruct (Get ClockID.ID (clockTable d) _) eqn:GC; [discriminate|].
  injection I as <-.
  destruct (Get Commit.ID (commitTable d) commitID) eqn:GM; [discriminate|].
  intros H. injection H as <-. exists bcs, b, clock. simpl. now repeat split.
Qed.

Lemma StartCommit_success_witness :
  exists branchClocks b clock,
    GetClockForBranch specClock branchClocks b = Ok clock
    /\ commitTable startedDB
       = (commitTable exampleDB
            ++ [Commit.mk "c2" "r" (Some 7) None false branchClocks
                          (map pfs.ID [pfs.mkCommit "in" "x"]) 0])%list
    /\ clockTable startedDB = (clockTable exampleDB ++ [getClockID "r" clock])%list
    /\ repoTable startedDB = repoTable exampleDB
    /\ diffTable startedDB = diffTable exampleDB
    /\ Get Commit.ID (commitTable exampleDB) "c2" = None
    /\ Get ClockID.ID (clockTable exampleDB) (ClockID.ID (getClockID "r" clock)) = None.
Proof.
  apply (StartCommit_success specClock "u" 7 exampleDB startedDB "r" "c2" "" "master"
           (Some 5) [pfs.mkCommit "in" "x"]).
  vm_compute. reflexivity.
Defined.

(** ** ListBranch *)

Lemma branchesOf_In (d : DB) (repo branch : string) :
  In branch (branchesOf d repo)
  <-> exists c, In c (clockTable d) /\ ClockID.Repo c = repo
                /\ ClockID.Branch c = branch.
Proof.
  unfold branchesOf. rewrite nodup_In, in_map_iff. split.
  - intros (c & E & H). apply filter_In in H. destruct H as [H R].
    apply String.eqb_eq in R. now exists c.
  - intros (c & H & R & E). exists c. split; [exact E|]. apply filter_In.
    split; [exact H|]. now apply String.eqb_eq.
Qed.

Lemma getHeadOfBranch_error (d : DB) (repo branch : string) (e : error) :
  getHeadOfBranch d repo branch = Err e -> e = ErrEmptyResult.
Proof.
  unfold getHeadOfBranch. destruct (fold_left later _ None) as [[n c]|]; [discriminate|].
  intros H. now injection H.
Qed.

Lemma headsOf_Ok (d : DB) (repo : string) (branches : list string) :
  forall infos,
    headsOf d repo branches = Ok infos ->
    map snd infos = branches
    /\ forall c b, In (c, b) infos ->
                   pfs.Repo c = repo
                   /\ exists commit, getHeadOfBranch d repo b = Ok commit
                                     /\ pfs.ID c = Commit.ID commit.
Proof.
  induction branches as [|branch rest IH]; simpl; intros infos H.
  - injection H as <-. split; [reflexivity | intros c b []].
  - destruct (getHeadOfBranch d repo branch) as [commit|e] eqn:G; [|discriminate].
    simpl in H. destruct (headsOf d repo rest) as [infos'|e]; [|discriminate].
    simpl in H. injection H as <-. destruct (IH _ eq_refl) as [Hm Hi]. split.
    + simpl. now rewrite Hm.
    + intros c b [E|Hin]; [|now apply Hi]. injection E as <- <-.
      split; [reflexivity|]. now exists commit.
Qed.

Lemma headsOf_Err (d : DB) (repo : string) (branches : list string) :
  (exists e, headsOf d repo branches = Err e)
  <-> exists b, In b branches /\ getHeadOfBranch d repo b = Err ErrEmptyResult.
Proof.
  induction branches as [|branch rest IH]; simpl.
  - split; [intros [e H]; discriminate | intros (b & [] & _)].
  - destruct (getHeadOfBranch d repo branch) as [commit|e] eqn:G; simpl.
    + destruct (headsOf d repo rest) as [infos'|e]; simpl.
      * split; [intros [e H]; discriminate|].
        intros (b & [<-|Hin] & H); [congruence|].
        destruct (proj2 IH) as [e He]; [now exists b | discriminate].
      * split.
        -- intros _. destruct (proj1 IH) as (b & Hin & H); [now exists e|].
           exists b. split; [now right | exact H].
        -- intros _. now exists e.
    + split.
      * intros _. exists branch. split; [now left|].
        now rewrite (getHeadOfBranch_error _ _ _ _ G) in G.
      * intros _. now exists e.
Qed.

(** X14. What [ListBranch] returns: one entry per branch that has a clock
    record in the repo, no branch twice, each with the id of the commit
    that [getHeadOfBranch] finds for the branch, a commit of the commit
    table. *)
Theorem ListBranch_heads (d : DB) (repo : string) (infos : list (pfs.Commit * string)) :
  ListBranch d repo = Ok infos ->
  NoDup (map snd infos)
  /\ (forall branch,
         In branch (map snd infos)
         <-> exists c, In c (clockTable d) /\ ClockID.Repo c = repo
                       /\ ClockID.Branch c = branch)
  /\ forall c branch,
      In (c, branch) infos ->
      pfs.Repo c = repo
      /\ exists commit, getHeadOfBranch d repo branch = Ok commit
                        /\ In commit (commitTable d)
                        /\ pfs.ID c = Commit.ID commit.
Proof.
  unfold ListBranch. intros H. apply headsOf_Ok in H. destruct H as [Hm Hi].
  rewrite Hm. split; [apply NoDup_nodup|]. split; [apply branchesOf_In|].
  intros c branch Hin. destruct (Hi _ _ Hin) as (Hr & commit & G & E).
  split; [exact Hr|]. exists commit. split; [exact G|].
  split; [|exact E]. eapply getHeadOfBranch_In; eassumption.
Qed.

Lemma ListBranch_heads_witness :
  NoDup (map snd [(pfs.mkCommit "r" "c1", "master")])
  /\ In (pfs.mkCommit "r" "c1", "master") [(pfs.mkCommit "r" "c1", "master")]
  /\ ListBranch exampleDB "r" = Ok [(pfs.mkCommit "r" "c1", "master")].
Proof.
  split; [|split; [now left | reflexivity]].
  exact (proj1 (ListBranch_heads exampleDB "r" [(pfs.mkCommit "r" "c1", "master")]
                  eq_refl)).
Defined.

(** X15. [ListBranch] fails, with the error of an empty result, exactly
    when some clock record of the repo names a branch on which no commit
    is indexed; it has no other error, and one such clock record hides
    every branch of the repo. *)
Theorem ListBranch_fails (d : DB) (repo : string) :
  (ListBranch d repo = Err ErrEmptyResult
   <-> exists c, In c (clockTable d) /\ ClockID.Repo c = repo
                 /\ getHeadOfBranch d repo (ClockID.Branch c) = Err ErrEmptyResult)
  /\ forall e, ListBranch d repo = Err e -> e = ErrEmptyResult.
Proof.
  assert (HE : forall e, ListBranch d repo = Err e -> e = ErrEmptyResult).
  { unfold ListBranch. generalize (branchesOf d repo).
    induction l as [|branch rest IH]; simpl; intros e; [discriminate|].
    destruct (getHeadOfBranch d repo branch) as [commit|e'] eqn:G; simpl.
    - destruct (headsOf d repo rest) as [infos|e'']; simpl; [discriminate|].
      intros H. injection H as <-. now apply IH.
    - intros H. injection H as <-. eapply getHeadOfBranch_error; eassumption. }
  split; [|exact HE]. split.
  - intros H. destruct (proj1 (headsOf_Err d repo (branchesOf d repo)))
      as (b & Hin & G); [now exists ErrEmptyResult|].
    apply branchesOf_In in Hin. destruct Hin as (c & Hc & Hr & <-). now exists c.
  - intros (c & Hc & Hr & G).
    destruct (proj2 (headsOf_Err d repo (branchesOf d repo))) as [e H].
    + exists (ClockID.Branch c). split; [|exact G]. apply branchesOf_In. now exists c.
    + unfold ListBranch. rewrite H. f_equal. apply HE. exact H.
Qed.

(** ** DeleteFile *)



(** ** PutFile only adds *)

Lemma putFileDiffs_Size (commit : Commit.t) (path : string) (refs : list BlockRef.t)
  (now : nat -> Timestamp) (new : Diff.t) :
  In new (putFileDiffs commit path refs now) -> 0 <= Diff.Size new.
Proof.
  unfold putFileDiffs. rewrite in_app_iff. intros [H|[<-|[]]].
  - apply in_map_iff in H. destruct H as [[i prefix] [<- _]]. simpl. lia.
  - simpl. assert (forall l acc, 0 <= acc ->
                     0 <= fold_left (fun size ref => uint64 (size + BlockRef_Size ref))
                                    l acc) as Hf.
    { induction l as [|r l IH]; simpl; intros acc Ha; [exact Ha|].
      apply IH. unfold uint64. apply Z.mod_pos_bound. lia. }
    apply Hf. lia.
Qed.

(** X17. [PutFile] only adds to the stored diffs, whatever it returns:
    every diff of the table is still stored under its id with the same
    repo, commit, path, delete flag and branch clocks, its block refs are
    the old ones with, possibly, more refs after them, and its size has not
    gone down.  The repo, commit and clock tables are untouched. *)
Theorem PutFile_only_appends (d : DB) (file : pfs.File)
  (putBlock : result (list BlockRef.t)) (now : nat -> Timestamp) :
  repoTable (fst (PutFile d file putBlock now)) = repoTable d
  /\ commitTable (fst (PutFile d file putBlock now)) = commitTable d
  /\ clockTable (fst (PutFile d file putBlock now)) = clockTable d
  /\ forall k old,
      Get Diff.ID (diffTable d) k = Some old ->
      exists new,
        Get Diff.ID (diffTable (fst (PutFile d file putBlock now))) k = Some new
        /\ Diff.ID new = Diff.ID old
        /\ Diff.Repo new = Diff.Repo old
        /\ Diff.CommitID new = Diff.CommitID old
        /\ Diff.Path new = Diff.Path old
        /\ Diff.Delete new = Diff.Delete old
        /\ Diff.BranchClocks new = Diff.BranchClocks old
        /\ (exists refs, Diff.BlockRefs new = (Diff.BlockRefs old ++ refs)%list)
        /\ Diff.Size old <= Diff.Size new.
Proof.
  assert (Hsame : forall k old,
             Get Diff.ID (diffTable d) k = Some old ->
             exists new,
               Get Diff.ID (diffTable d) k = Some new
               /\ Diff.ID new = Diff.ID old
               /\ Diff.Repo new = Diff.Repo old
               /\ Diff.CommitID new = Diff.CommitID old
               /\ Diff.Path new = Diff.Path old
               /\ Diff.Delete new = Diff.Delete old
               /\ Diff.BranchClocks new = Diff.BranchClocks old
               /\ (exists refs, Diff.BlockRefs new = (Diff.BlockRefs old ++ refs)%list)
               /\ Diff.Size old <= Diff.Size new).
  { intros k old G. exists old. split; [exact G|]. repeat split; try lia.
    exists []. now rewrite app_nil_r. }
  unfold PutFile.
  destruct (getCommitByAmbiguousID d _ _) as [commit|e1]; [|now repeat split].
  destruct putBlock as [refs|e1]; [|now repeat split].
  destruct (firstTypeConflict d _) as [e1|]; [now repeat split|].
  destruct (fixPath_slash (pfs.Path file)) as [rest ->].
  destruct (UpsertAll_each Diff.ID putFileConflict putFileConflict_key
              (putFileDiffs commit (String "/" rest) refs now) (diffTable d)
              (putFileDiffs_NoDup commit rest refs now)) as [Hin Hout].
  destruct (UpsertAll Diff.ID putFileConflict (diffTable d) _) as [table err].
  simpl in *. split; [reflexivity|]. split; [reflexivity|]. split; [reflexivity|].
  intros k old G.
  destruct (in_dec string_dec k
              (map Diff.ID (putFileDiffs commit (String "/" rest) refs now)))
    as [Hk|Hk].
  - apply in_map_iff in Hk. destruct Hk as (n & <- & Hn).
    rewrite (Hin _ Hn), G.
    pose proof (putFileDiffs_Size _ _ _ _ _ Hn) as Hsize.
    unfold putFileConflict. destruct (_ && _).
    + apply Get_In in G. destruct G as [_ G]. exists old.
      split; [reflexivity|]. repeat split; try lia. exists []. now rewrite app_nil_r.
    + apply Get_In in G. destruct G as [_ G]. eexists. split; [reflexivity|]. simpl.
      repeat split; try lia. now exists (Diff.BlockRefs n).
  - rewrite (Hout _ Hk). now apply Hsame.
Qed.

(** ** Resolving in a changed commit table *)

Section Resolution.
Variable g : Commit.t -> Commit.t.
Variables d d' : DB.
Hypothesis table : commitTable d' = map g (commitTable d).
Hypothesis kept :
  forall c, In c (commitTable d) ->
            Commit.ID (g c) = Commit.ID c
            /\ Commit.Repo (g c) = Commit.Repo c
            /\ Commit.BranchClocks (g c) = Commit.BranchClocks c.

Lemma CommitBranchIndex_keys_kept (c : Commit.t) :
  In c (commitTable d) -> CommitBranchIndex_keys (g c) = CommitBranchIndex_keys c.
Proof.
  intros H. destruct (kept c H) as (_ & Hr & Hb). unfold CommitBranchIndex_keys.
  now rewrite Hr, Hb.
Qed.

Lemma commitsOfBranch_kept (repo branch : string) :
  commitsOfBranch d' repo branch
  = map (fun x => (fst x, g (snd x))) (commitsOfBranch d repo branch).
Proof.
  unfold commitsOfBranch. rewrite table.
  pose proof CommitBranchIndex_keys_kept as Hk. clear table kept. revert Hk.
  generalize (commitTable d) as t.
  induction t as [|c t IH]; intros Hk; simpl; [reflexivity|].
  rewrite map_app, IH by (intros c' H'; apply Hk; now right). f_equal.
  rewrite (Hk c) by now left.
  induction (CommitBranchIndex_keys c) as [|[[r b] n] ks IHk]; simpl; [reflexivity|].
  rewrite map_app, IHk. f_equal.
  now destruct ((r =? repo)%string && (b =? branch)%string && (0 <=? n)).
Qed.

Lemma fold_later_kept (l : list (Z * Commit.t)) :
  forall acc,
    fold_left later (map (fun x => (fst x, g (snd x))) l)
              (option_map (fun x => (fst x, g (snd x))) acc)
    = option_map (fun x => (fst x, g (snd x))) (fold_left later l acc).
Proof.
  induction l as [|x l IH]; intros acc; simpl; [reflexivity|].
  rewrite <- IH. f_equal. destruct acc as [b|]; simpl; [|reflexivity].
  now destruct (fst b <? fst x).
Qed.

Lemma getHeadOfBranch_kept (repo branch : string) :
  getHeadOfBranch d' repo branch
  = match getHeadOfBranch d repo branch with
    | Ok c => Ok (g c)
    | Err e => Err e
    end.
Proof.
  unfold getHeadOfBranch. rewrite commitsOfBranch_kept.
  rewrite (fold_later_kept _ None).
  now destruct (fold_left later (commitsOfBranch d repo branch) None) as [[n c]|].
Qed.

Lemma getCommitByIndex_kept (k : IndexKey) :
  getCommitByIndex d' k
  = match getCommitByIndex d k with
    | Ok c => Ok (g c)
    | Err e => Err e
    end.
Proof.
  unfold getCommitByIndex. rewrite table.
  pose proof CommitBranchIndex_keys_kept as Hk. clear table kept. revert Hk.
  generalize (commitTable d) as t.
  induction t as [|c t IH]; intros Hk; simpl; [reflexivity|].
  rewrite (Hk c) by now left.
  destruct (existsb (IndexKey_eqb k) (CommitBranchIndex_keys c)); [reflexivity|].
  apply IH. intros c' H'. apply Hk. now right.
Qed.

Lemma Get_Commit_kept (k : string) :
  Get Commit.ID (commitTable d') k = option_map g (Get Commit.ID (commitTable d) k).
Proof.
  unfold Get. rewrite table. pose proof kept as Hk. clear table kept. revert Hk.
  generalize (commitTable d) as t.
  induction t as [|c t IH]; intros Hk; simpl; [reflexivity|].
  destruct (Hk c) as (-> & _); [now left|].
  destruct (Commit.ID c =? k)%string; [reflexivity|].
  apply IH. intros c' H'. apply Hk. now right.
Qed.

Lemma getCommitByAmbiguousID_kept (repo commitID : string) :
  getCommitByAmbiguousID d' repo commitID
  = match getCommitByAmbiguousID d repo commitID with
    | Ok c => Ok (g c)
    | Err e => Err e
    end.
Proof.
  unfold getCommitByAmbiguousID. destruct (parseClock commitID) as [alias|].
  - apply getCommitByIndex_kept.
  - rewrite getHeadOfBranch_kept, Get_Commit_kept.
    destruct (getHeadOfBranch d repo commitID); [reflexivity|].
    now destruct (Get Commit.ID (commitTable d) commitID).
Qed.
End Resolution.

Lemma NoDup_key_eq {D : Type} (key : D -> string) (t : list D) (x y : D) :
  NoDup (map key t) -> In x t -> In y t -> key x = key y -> x = y.
Proof.
  induction t as [|z t IH]; simpl; [intros _ []|].
  intros Hnd Hx Hy E. inversion Hnd as [|? ? Hnotin Hnd']; subst.
  destruct Hx as [->|Hx], Hy as [->|Hy].
  - reflexivity.
  - exfalso. apply Hnotin. rewrite E. now apply in_map.
  - exfalso. apply Hnotin. rewrite <- E. now apply in_map.
  - now apply IH.
Qed.

(** ** intervalToClocks *)

Lemma rev_map_seq {A : Type} (f : nat -> A) (n : nat) :
  rev (map f (seq 0 n)) = map (fun i => f (n - 1 - i)%nat) (seq 0 n).
Proof.
  induction n as [|n IH]; [reflexivity|].
  rewrite seq_S at 1. rewrite map_app, rev_app_distr. simpl rev at 1. simpl app.
  rewrite IH. simpl. f_equal; [f_equal; lia|].
  rewrite <- seq_shift, map_map. apply map_ext. intros i. f_equal. lia.
Qed.

Lemma clocksOfInterval_reverse (interval : Interval) :
  clocksOfInterval true interval
  = match clocksOfInterval false interval with
    | Ok clocks => Ok (rev clocks)
    | Err e => Err e
    end.
Proof.
  unfold clocksOfInterval.
  destruct (lastClockOf (BranchClockToArray (fst interval))) as [lo|e]; [|reflexivity].
  destruct (lastClockOf (BranchClockToArray (snd interval))) as [hi|e]; [|reflexivity].
  cbn [bind]. f_equal. unfold Range. rewrite !map_map, rev_map_seq.
  replace (0 - lo + 1 - (0 - hi)) with (hi + 1 - lo) by lia.
  apply map_ext_in. intros i Hi. apply in_seq in Hi. f_equal. lia.
Qed.

Lemma clocksOfInterval_error (reverse : bool) (interval : Interval) (e : error) :
  clocksOfInterval reverse interval = Err e -> e = ErrReQL.
Proof.
  unfold clocksOfInterval, lastClockOf.
  destruct (rev (BranchClockToArray (fst interval))) as [|[b n] r]; simpl;
    [intros H; now injection H|].
  destruct (rev (BranchClockToArray (snd interval))) as [|[b' n'] r']; simpl;
    [intros H; now injection H | discriminate].
Qed.

Lemma ConcatMap_error (reverse : bool) (l : list Interval) (e : error) :
  ConcatMap (clocksOfInterval reverse) l = Err e -> e = ErrReQL.
Proof.
  induction l as [|x l IH]; simpl; [discriminate|].
  destruct (clocksOfInterval reverse x) as [ys|e1] eqn:E; simpl.
  - destruct (ConcatMap (clocksOfInterval reverse) l) as [zs|e2]; simpl;
      [discriminate|].
    intros H. injection H as <-. now apply IH.
  - intros H. injection H as <-. eapply clocksOfInterval_error; eassumption.
Qed.

Lemma ConcatMap_app {A B : Type} (f : A -> result (list B)) (l1 l2 : list A) :
  forall ys zs,
    ConcatMap f l1 = Ok ys -> ConcatMap f l2 = Ok zs ->
    ConcatMap f (l1 ++ l2) = Ok (ys ++ zs)%list.
Proof.
  induction l1 as [|x l1 IH]; simpl; intros ys zs H1 H2.
  - injection H1 as <-. exact H2.
  - destruct (f x) as [xs|e]; [|discriminate]. simpl in *.
    destruct (ConcatMap f l1) as [ys'|e]; [|discriminate]. simpl in *.
    injection H1 as <-. rewrite (IH _ _ eq_refl H2). simpl. now rewrite app_assoc.
Qed.

Lemma ConcatMap_app_Err {A B : Type} (f : A -> result (list B)) (l1 l2 : list A) :
  (exists e, ConcatMap f l1 = Err e) \/ (exists e, ConcatMap f l2 = Err e) ->
  exists e, ConcatMap f (l1 ++ l2) = Err e.
Proof.
  induction l1 as [|x l1 IH]; simpl.
  - intros [[e H]|H]; [discriminate | exact H].
  - destruct (f x) as [xs|e]; simpl; [|intros _; now exists e].
    intros H.
    assert (H' : (exists e, ConcatMap f l1 = Err e)
                 \/ (exists e, ConcatMap f l2 = Err e)).
    { destruct H as [[e H]|H]; [left | now right].
      destruct (ConcatMap f l1) as [ys|e']; [discriminate | now exists e']. }
    destruct (IH H') as [e ->]. now exists e.
Qed.

Lemma ConcatMap_reverse (l : list Interval) :
  ConcatMap (clocksOfInterval true) (rev l)
  = match ConcatMap (clocksOfInterval false) l with
    | Ok clocks => Ok (rev clocks)
    | Err e => Err e
    end.
Proof.
  induction l as [|x l IH]; [reflexivity|]. simpl.
  pose proof (clocksOfInterval_reverse x) as Hx.
  destruct (clocksOfInterval false x) as [ys|e1] eqn:Ex; simpl.
  - destruct (ConcatMap (clocksOfInterval false) l) as [zs|e2] eqn:El; simpl.
    + rewrite (ConcatMap_app _ _ _ (rev zs) (rev ys) IH).
      * now rewrite rev_app_distr.
      * simpl. rewrite Hx. simpl. now rewrite app_nil_r.
    + destruct (ConcatMap_app_Err (clocksOfInterval true) (rev l) [x]) as [e He].
      * left. now exists e2.
      * rewrite He. f_equal. rewrite (ConcatMap_error _ _ _ He).
        symmetry. eapply ConcatMap_error. exact El.
  - destruct (ConcatMap_app_Err (clocksOfInterval true) (rev l) [x]) as [e He].
    + right. exists e1. simpl. now rewrite Hx.
    + rewrite He. f_equal. rewrite (ConcatMap_error _ _ _ He).
      symmetry. eapply clocksOfInterval_error. exact Ex.
Qed.

(** X19. The reverse flag of [intervalToClocks] reverses: its two branches
    build the same clocks, in opposite orders, and fail on the same
    inputs. *)
Theorem intervalToClocks_reverse (fromClock : option BranchClock.t)
  (toClock : BranchClock.t) :
  intervalToClocks fromClock toClock true
  = match intervalToClocks fromClock toClock false with
    | Ok clocks => Ok (rev clocks)
    | Err e => Err e
    end.
Proof.
  unfold intervalToClocks.
  destruct (GetClockIntervals fromClock toClock) as [intervals|e]; [|reflexivity].
  simpl. apply ConcatMap_reverse.
Qed.

(** ** Readers *)

(** X20. The reader [GetFile] returns holds the block refs of the fold of
    the path's diffs that lie in the shard, in their order, and no other:
    the fold is not a directory, a fold with block refs leaves the reader at
    least one, and the reader starts unopened at the given offset and size,
    on the file with its path fixed. *)
Theorem GetFile_reader_in_shard (client : BlockAPIClient) (d : DB) (f : pfs.File)
  (filterShard : option Shard) (offset0 size0 : Z) (from : option pfs.Commit)
  (r : fileReader) :
  GetFile client d f filterShard offset0 size0 from = Ok r ->
  exists query folded,
    getIntervalQueryFromCommitRange d from (pfs.FileCommit f) = Ok query
    /\ foldDiffs (pathDiffs d (pfs.Repo (pfs.FileCommit f)) (fixPath (pfs.Path f))
                            query) = Ok folded
    /\ Diff.FileType folded <> FileType_DIR
    /\ blockRefs r = filterBlockRefs filterShard (file r) (Diff.BlockRefs folded)
    /\ Forall (fun ref => BlockInShard filterShard (file r) (Some (BlockRef.Hash ref))
                          = true) (blockRefs r)
    /\ (Diff.BlockRefs folded <> [] -> blockRefs r <> [])
    /\ file r = pfs.mkFile (pfs.FileCommit f) (fixPath (pfs.Path f))
    /\ reader r = None /\ offset r = offset0 /\ size r = size0 /\ sizeRead r = 0.
Proof.
  rewrite GetFile_spec.
  set (file' := pfs.mkFile (pfs.FileCommit f) (fixPath (pfs.Path f))).
  destruct (inspectFile d file' filterShard from) as [diff|e] eqn:I; [|discriminate].
  destruct (FileType_eqb (Diff.FileType diff) FileType_DIR) eqn:T; [discriminate|].
  intros H. injection H as <-. simpl.
  assert (Hq : exists query,
             getIntervalQueryFromCommitRange d from (pfs.FileCommit f) = Ok query).
  { unfold inspectFile in I. destruct (FileInShard filterShard file'); [|discriminate].
    simpl in I.
    destruct (getIntervalQueryFromCommitRange d from (pfs.FileCommit f))
      as [query|e]; [now exists query | discriminate]. }
  destruct Hq as [query Hq].
  destruct (inspectFile_Ok_fold d file' filterShard from query diff Hq I)
    as [folded Hf].
  destruct (inspectFile_fold d file' filterShard from query folded diff Hq Hf I)
    as (Ht & _ & _ & Hb).
  exists query, folded. split; [exact Hq|]. split; [exact Hf|]. split; [|split; [|split]].
  - rewrite <- Ht. intros E. now rewrite E in T.
  - exact Hb.
  - rewrite Hb. unfold filterBlockRefs. apply Forall_forall. intros ref Hin.
    apply filter_In in Hin. now destruct Hin.
  - split; [|now repeat split]. intros Hne. rewrite Hb.
    unfold inspectFile in I. destruct (FileInShard filterShard file'); [|discriminate].
    simpl in I. simpl in Hq. rewrite Hq in I. simpl in I. simpl in Hf.
    rewrite Hf in I. simpl in I.
    destruct (Diff.BlockRefs folded) as [|ref refs]; [contradiction|].
    destruct (filterBlockRefs filterShard file' (ref :: refs)); [discriminate|].
    discriminate.
Qed.

Lemma GetFile_reader_in_shard_witness :
  exists r,
    GetFile blockStore exampleDB headFile (Some (hashShard "h1")) 1 0 None = Ok r
    /\ blockRefs r = [BlockRef.mk "h1" 0 3]
    /\ offset r = 1.
Proof.
  eexists. split; [vm_compute; reflexivity|].
  destruct (GetFile_reader_in_shard blockStore exampleDB headFile
              (Some (hashShard "h1")) 1 0 None _ eq_refl)
    as (query & folded & Hq & Hf & _ & Hb & _ & _ & _ & _ & Ho & _).
  split; [|exact Ho]. vm_compute in Hq. injection Hq as <-.
  vm_compute in Hf. injection Hf as <-. exact Hb.
Defined.

Lemma sumBlockSizes_app (l1 l2 : list BlockRef.t) :
  sumBlockSizes (l1 ++ l2) = sumBlockSizes l1 + sumBlockSizes l2.
Proof.
  unfold sumBlockSizes. induction l1 as [|b l1 IH]; simpl; [reflexivity|].
  rewrite IH. lia.
Qed.

Lemma sumBlockSizes_nonneg (l : list BlockRef.t) : 0 <= sumBlockSizes l.
Proof.
  unfold sumBlockSizes. induction l as [|b l IH]; simpl; [lia|].
  assert (0 <= BlockRef_Size b)
    by (unfold BlockRef_Size, uint64; apply Z.mod_pos_bound; lia).
  lia.
Qed.

(** X21. The first [Read] of a reader seeks its offset through the block
    refs.  The reader has no block open yet, its offset is at least zero
    and below 2^63, and each of its block refs has a size below 2^63, so
    that the conversions to [int64] and [uint64] change no number.
    An offset at or past the end of the blocks gives a count of zero
    with EOF and uses up every block ref.  Otherwise the block the offset
    falls in is the one asked of the block store, at the offset less the
    sizes of the blocks before it and with the whole size of the reader; an
    error of the store is returned with a count of zero, and the blocks up
    to and including that one are gone from the reader. *)
Theorem Read_seeks_offset (r : fileReader) (n : nat) :
  reader r = None ->
  0 <= offset r < 2 ^ 63 ->
  Forall (fun b => BlockRef_Size b < 2 ^ 63) (blockRefs r) ->
  (sumBlockSizes (blockRefs r) <= offset r ->
   Read r n = (withSource r None (offset r - sumBlockSizes (blockRefs r)) [],
               mkReadResult 0 (Some io_EOF) []))
  /\ (offset r < sumBlockSizes (blockRefs r) ->
      exists skipped blockRef rest,
        blockRefs r = (skipped ++ blockRef :: rest)%list
        /\ sumBlockSizes skipped <= offset r
           < sumBlockSizes skipped + BlockRef_Size blockRef
        /\ Read r n
           = match GetBlock (blockClient r) (BlockRef.Hash blockRef)
                            (offset r - sumBlockSizes skipped) (uint64 (size r)) with
             | Err e =>
                 (withSource r None (offset r - sumBlockSizes skipped) rest,
                  mkReadResult 0 (Some (io_Err e)) [])
             | Ok open => readOpen (withSource r (Some open) 0 rest) open n
             end).
Proof.
  intros Hr Ho Hall. unfold Read. rewrite Hr.
  pose proof (skipBlocks_spec (blockRefs r) (offset r) Ho Hall) as S.
  destruct (skipBlocks (offset r) (blockRefs r)) as [[[blockRef|] offset'] rest].
  - destruct S as (skipped & E & -> & Hin). split.
    + intros Hle. rewrite E, sumBlockSizes_app in Hle.
      change (sumBlockSizes (blockRef :: rest))
        with (BlockRef_Size blockRef + sumBlockSizes rest) in Hle.
      pose proof (sumBlockSizes_nonneg rest). lia.
    + intros _. exists skipped, blockRef, rest. split; [exact E|]. split; [lia|].
      unfold uint64 at 1. rewrite (Z.mod_small (offset r - sumBlockSizes skipped))
        by (pose proof (sumBlockSizes_nonneg skipped); lia).
      reflexivity.
  - destruct S as (-> & -> & Hle). split; [reflexivity | lia].
Qed.

Lemma Read_seeks_offset_witness :
  Read (newFileReader blockStore [BlockRef.mk "h0" 0 2; BlockRef.mk "h1" 0 3]
                      headFile 5 0) 16
  = (newFileReader blockStore [] headFile 0 0, mkReadResult 0 (Some io_EOF) []).
Proof.
  apply (proj1 (Read_seeks_offset
                  (newFileReader blockStore [BlockRef.mk "h0" 0 2; BlockRef.mk "h1" 0 3]
                                 headFile 5 0) 16 eq_refl
                  ltac:(simpl; lia)
                  ltac:(repeat constructor))).
  vm_compute. discriminate.
Defined.

(** ** Commit references *)

Lemma split_slash_parts (s : string) :
  Forall (fun part => noSlash part = true) (split_slash s)
  /\ String.concat "/" (split_slash s) = s
  /\ split_slash s <> [].
Proof.
  induction s as [|a r (Hall & Hcat & Hne)]; simpl.
  - split; [now repeat constructor|]. split; [reflexivity | discriminate].
  - destruct (Ascii.eqb a "/"%char) eqn:E.
    + apply Ascii.eqb_eq in E. subst a. split; [now constructor|].
      split; [|discriminate]. simpl. destruct (split_slash r); [contradiction|].
      simpl in *. now rewrite Hcat.
    + destruct (split_slash r) as [|p ps]; [contradiction|].
      inversion Hall as [|? ? Hp Hps]; subst. split; [|split; [|discriminate]].
      * constructor; [simpl; now rewrite E, Hp | exact Hps].
      * destruct ps; reflexivity.
Qed.

Lemma split_slash_noSlash (s : string) : noSlash s = true -> split_slash s = [s].
Proof.
  induction s as [|a r IH]; simpl; [reflexivity|].
  destruct (Ascii.eqb a "/"%char); simpl; [discriminate|].
  intros H. now rewrite (IH H).
Qed.

Lemma split_slash_app (b r : string) :
  noSlash b = true -> split_slash (b ++ String "/" r) = b :: split_slash r.
Proof.
  induction b as [|a b IH]; simpl; [reflexivity|].
  destruct (Ascii.eqb a "/"%char); simpl; [discriminate|].
  intros H. now rewrite (IH H).
Qed.

(** X23. The commit references [parseClock] accepts are exactly the
    strings [branch/n] with one slash whose second part [strconv.Atoi]
    reads; the clock is that number converted to [uint64], so that a
    negative number gives a clock of [2^64] less its size. *)
Theorem parseClock_accepts (s : string) (c : Clock.t) :
  parseClock s = Some c
  <-> exists n v,
      s = Clock.Branch c ++ "/" ++ n
      /\ noSlash (Clock.Branch c) = true
      /\ noSlash n = true
      /\ Atoi n = Some v
      /\ Clock.Clock c = uint64 v.
Proof.
  unfold parseClock. split.
  - destruct (split_slash_parts s) as (Hall & Hcat & _).
    destruct (split_slash s) as [|b [|n [|x l]]]; try discriminate.
    destruct (Atoi n) as [v|] eqn:A; [|discriminate].
    intros H. injection H as <-. exists n, v. simpl.
    inversion Hall as [|? ? Hb Hn]; subst. inversion Hn as [|? ? Hn' _]; subst.
    now repeat split.
  - intros (n & v & -> & Hb & Hn & A & Hc).
    change (Clock.Branch c ++ "/" ++ n) with (Clock.Branch c ++ String "/" n).
    rewrite (split_slash_app _ _ Hb), (split_slash_noSlash _ Hn), A.
    destruct c as [branch clock]. simpl in *. now subst.
Qed.

(** X24. A commit that [StartCommit] has created is there to inspect
    under its id, where the id does not read as a clock and names no
    branch: it is open, of type WRITE, not cancelled, started at the time
    of the call, and its size is the sum of the sizes of the diffs stored
    under its id. *)
Theorem StartCommit_then_InspectCommit (lc : Libclock) (uuid : string)
  (now : Timestamp) (d d' : DB) (repo commitID parentID branch : string)
  (started : option Timestamp) (provenance : list pfs.Commit) :
  StartCommit lc uuid now d repo commitID parentID branch started provenance
  = Started d' None ->
  parseClock commitID = None ->
  getHeadOfBranch d' repo commitID = Err ErrEmptyResult ->
  exists info,
    InspectCommit d' (pfs.mkCommit repo commitID) = Ok info
    /\ pfs.Commit_ info = pfs.mkCommit repo commitID
    /\ pfs.Started info = Some now
    /\ pfs.Finished info = None
    /\ pfs.CommitType_ info = pfs.CommitType_COMMIT_TYPE_WRITE
    /\ pfs.Cancelled info = false
    /\ pfs.SizeBytes info
       = sumSizes (filter (fun x => String.eqb (Diff.CommitID x) commitID)
                          (diffTable d)).
Proof.
  unfold StartCommit.
  destruct (if String.eqb parentID "" then _ else _)
    as [bcs clockID clocks|e'|] eqn:R; [|discriminate|discriminate].
  apply reservation_Reserved in R. destruct R as (I & _).
  unfold Insert in *. simpl.
  destruct (Get ClockID.ID (clockTable d) _); [discriminate|]. injection I as <-.
  destruct (Get Commit.ID (commitTable d) commitID) eqn:Hg; [discriminate|].
  intros H Hp Hh. injection H as <-.
  unfold InspectCommit, getCommitByAmbiguousID. simpl. rewrite Hp, Hh. simpl.
  rewrite Get_app_new, Hg. simpl. rewrite String.eqb_refl. simpl.
  eexists. split; [reflexivity|]. simpl. repeat split.
  now rewrite computeCommitSize_sum.
Qed.

Lemma StartCommit_then_InspectCommit_witness :
  exists info,
    InspectCommit startedDB (pfs.mkCommit "r" "c2") = Ok info
    /\ pfs.Commit_ info = pfs.mkCommit "r" "c2"
    /\ pfs.Started info = Some 7
    /\ pfs.Finished info = None
    /\ pfs.CommitType_ info = pfs.CommitType_COMMIT_TYPE_WRITE
    /\ pfs.Cancelled info = false
    /\ pfs.SizeBytes info
       = sumSizes (filter (fun x => String.eqb (Diff.CommitID x) "c2")
                          (diffTable exampleDB)).
Proof.
  apply (StartCommit_then_InspectCommit specClock "u" 7 exampleDB startedDB "r" "c2"
           "" "master" (Some 5) [pfs.mkCommit "in" "x"]).
  - vm_compute. reflexivity.
  - reflexivity.
  - reflexivity.
Defined.

(** ** Round trips and refusals *)

(** X25. [DeleteRepo] undoes [CreateRepo]: deleting a repo that has just
    been created gives back the tables as they were before. *)
Theorem CreateRepo_then_DeleteRepo (d : DB) (repo : string)
  (created : option Timestamp) :
  snd (CreateRepo d repo created) = None ->
  DeleteRepo (fst (CreateRepo d repo created)) repo = (d, None).
Proof.
  unfold CreateRepo. destruct (validateRepoName repo); [|discriminate].
  destruct (Insert Repo.Name (repoTable d) (Repo.mk repo created 0)) as [t|e] eqn:I;
    [|discriminate].
  intros _. unfold DeleteRepo. simpl.
  rewrite (Insert_Delete Repo.Name _ _ _ I : Delete Repo.Name t repo = repoTable d).
  now destruct d.
Qed.

Lemma CreateRepo_then_DeleteRepo_witness :
  DeleteRepo (fst (CreateRepo exampleDB "logs_2" (Some 8))) "logs_2" = (exampleDB, None).
Proof. exact (CreateRepo_then_DeleteRepo exampleDB "logs_2" (Some 8) eq_refl). Defined.

(** * The driver among other clients *)

Local Open Scope Z_scope.

(** ** FinishCommit while the database moves *)



Lemma awaitParent_first (parentID : string) (later : list DB) :
  forall d ds parentCancelled,
    Live.awaitParent parentID d later = Some (ds, parentCancelled) ->
    exists before after,
      d :: later = (before ++ ds :: after)%list
      /\ (forall s, In s before -> parentFinished s parentID = None)
      /\ parentFinished ds parentID = Some parentCancelled.
Proof.
  induction later as [|d1 later IH]; intros d ds pc; simpl.
  - destruct (parentFinished d parentID) as [c|] eqn:F; [|discriminate].
    intros H. injection H as <- <-. exists [], []. now repeat split.
  - destruct (parentFinished d parentID) as [c|] eqn:F.
    + intros H. injection H as <- <-. exists [], (d1 :: later). now repeat split.
    + intros H. destruct (IH _ _ _ H) as (before & after & E & Hb & Hs).
      exists (d :: before), after. rewrite E. split; [reflexivity|].
      split; [|exact Hs]. intros s [<-|Hin]; [exact F | now apply Hb].
Qed.

(** With no other client at work and updates that succeed, the call is
    [FinishCommit] as modelled for a database at rest. *)
Lemma Live_FinishCommit_quiet (d : DB) (commit : pfs.Commit)
  (finished : option Timestamp) (cancel : bool) :
  Live.FinishCommit Live.quiet d commit finished cancel
  = FinishCommit d commit finished cancel.
Proof.
  unfold Live.FinishCommit, FinishCommit.
  destruct (getCommitByAmbiguousID d _ _) as [rawCommit|e]; [|reflexivity].
  destruct (getIDOfParentCommit d _ _) as [parentID|e]; [|reflexivity].
  destruct (String.eqb parentID ""); [reflexivity|]. simpl.
  now destruct (parentFinished d parentID).
Qed.

(** What a call that returns has done. *)
Lemma Live_FinishCommit_Returned (w : Live.World) (d d' : DB) (commit : pfs.Commit)
  (finished : option Timestamp) (cancel : bool) (err : option error) :
  Live.FinishCommit w d commit finished cancel = Returned d' err ->
  (d' = d /\ err <> None)
  \/ exists rawCommit parentID ds parentCancelled,
      getCommitByAmbiguousID d (pfs.Repo commit) (pfs.ID commit) = Ok rawCommit
      /\ getIDOfParentCommit d (pfs.Repo commit) (pfs.ID commit) = Ok parentID
      /\ (if String.eqb parentID "" then Some (d, false)
          else Live.awaitParent parentID d (Live.history w))
         = Some (ds, parentCancelled)
      /\ ((d' = ds /\ err <> None /\ err = Live.repoUpdate w)
          \/ (d' = set_repoTable ds
                     (Update Repo.Name (repoTable ds) (Commit.Repo rawCommit)
                             (addRepoSize (computeCommitSize d (Commit.ID rawCommit))))
              /\ Live.repoUpdate w = None
              /\ err <> None /\ err = Live.commitUpdate w)
          \/ (d' = finishedWith ds rawCommit (computeCommitSize d (Commit.ID rawCommit))
                                finished (parentCancelled || cancel)
              /\ Live.repoUpdate w = None /\ Live.commitUpdate w = None
              /\ err = None)).
Proof.
  unfold Live.FinishCommit.
  destruct (getCommitByAmbiguousID d _ _) as [rawCommit|e];
    [|intros H; injection H as <- <-; left; split; [reflexivity | discriminate]].
  destruct (getIDOfParentCommit d _ _) as [parentID|e];
    [|intros H; injection H as <- <-; left; split; [reflexivity | discriminate]].
  destruct (if String.eqb parentID "" then _ else _) as [[ds pc]|] eqn:S;
    [|discriminate].
  intros H. right. exists rawCommit, parentID, ds, pc.
  split; [reflexivity|]. split; [reflexivity|]. split; [exact S|].
  destruct (Live.repoUpdate w) as [e|].
  - injection H as <- <-. left. split; [reflexivity|]. split; [discriminate | reflexivity].
  - destruct (Live.commitUpdate w) as [e|].
    + injection H as <- <-. right. left. split; [reflexivity|].
      split; [reflexivity|]. split; [discriminate | reflexivity].
    + injection H as <- <-. right. right. now repeat split.
Qed.



Lemma finishedWith_commit (ds : DB) (rawCommit : Commit.t) (size : Z)
  (finished : option Timestamp) (cancelled : bool) (id : string) :
  Get Commit.ID (commitTable (finishedWith ds rawCommit size finished cancelled)) id
  = if String.eqb id (Commit.ID rawCommit)
    then option_map (fun _ => finishedCommit rawCommit size finished cancelled)
                    (Get Commit.ID (commitTable ds) id)
    else Get Commit.ID (commitTable ds) id.
Proof.
  unfold finishedWith. simpl.
  destruct (String.eqb_spec id (Commit.ID rawCommit)) as [->|Hne].
  - apply Get_Update_same. intros; reflexivity.
  - apply Get_Update_other; [exact Hne | intros; reflexivity].
Qed.

Lemma finishedWith_repo (ds : DB) (rawCommit : Commit.t) (size : Z)
  (finished : option Timestamp) (cancelled : bool) (name : string) :
  Get Repo.Name (repoTable (finishedWith ds rawCommit size finished cancelled)) name
  = if String.eqb name (Commit.Repo rawCommit)
    then option_map (addRepoSize size) (Get Repo.Name (repoTable ds) name)
    else Get Repo.Name (repoTable ds) name.
Proof.
  unfold finishedWith. simpl.
  destruct (String.eqb_spec name (Commit.Repo rawCommit)) as [->|Hne].
  - apply Get_Update_same. intros x Hx. exact Hx.
  - apply Get_Update_other; [exact Hne | intros x Hx; exact Hx].
Qed.

Lemma Live_FinishCommit_success (w : Live.World) (d d' : DB) (commit : pfs.Commit)
  (finished : option Timestamp) (cancel : bool) :
  Live.FinishCommit w d commit finished cancel = Returned d' None ->
  exists rawCommit parentID ds parentCancelled,
    getCommitByAmbiguousID d (pfs.Repo commit) (pfs.ID commit) = Ok rawCommit
    /\ getIDOfParentCommit d (pfs.Repo commit) (pfs.ID commit) = Ok parentID
    /\ (if String.eqb parentID "" then Some (d, false)
        else Live.awaitParent parentID d (Live.history w))
       = Some (ds, parentCancelled)
    /\ Live.repoUpdate w = None /\ Live.commitUpdate w = None
    /\ d' = finishedWith ds rawCommit (computeCommitSize d (Commit.ID rawCommit))
                         finished (parentCancelled || cancel).
Proof.
  intros H. apply Live_FinishCommit_Returned in H.
  destruct H as [[_ H]|(rawCommit & parentID & ds & pc & Hc & Hp & Hs & H)];
    [contradiction|].
  exists rawCommit, parentID, ds, pc. split; [exact Hc|]. split; [exact Hp|].
  split; [exact Hs|].
  destruct H as [(_ & H & _)|[(_ & _ & H & _)|(-> & Hr & Hu & _)]];
    [contradiction | contradiction | now repeat split].
Qed.



(** C2 fails on a call that waits.  [FinishCommit] of [master/1] comes in
    while its parent [c0] is open and [c1] holds one diff of 3 bytes.
    While it waits, another client puts 4 more bytes into [c1], and then
    [c0] is finished.  The call returns without an error: it has recorded
    the size 3 on [c1], whose diffs now sum to 7, and has raised the size
    of the repo from 0 to 5 while the diffs of the two commits sum to 9. *)
Theorem FinishCommit_records_stale_size :
  Live.FinishCommit busyWorld openDB (pfs.mkCommit "r" "master/1") (Some 9) false
  = Returned staleDB None
  /\ Get Commit.ID (commitTable staleDB) "c1"
     = Some (Commit.mk "c1" "r" (Some 3) (Some 9) true [master 1] [] 3)
  /\ sumSizes (filter (fun diff => String.eqb (Diff.CommitID diff) "c1")
                      (diffTable staleDB)) = 7
  /\ computeCommitSize staleDB "c1" = 7
  /\ Get Repo.Name (repoTable openDB) "r" = Some (Repo.mk "r" (Some 0) 0)
  /\ Get Repo.Name (repoTable staleDB) "r" = Some (Repo.mk "r" (Some 0) 5)
  /\ sumSizes (diffTable staleDB) = 9.
Proof. repeat split. Qed.

(** X10. What [FinishCommit] writes, among other clients and with updates
    that can fail.  A call that returns has left the database as it stood
    when the parent was seen finished, [ds], but for the record of the
    commit it resolved and the record of that commit's repo: the diff and
    clock tables, the keys of the other two, and every other commit and
    repo are those of [ds].  A call that returns an error has either
    written nothing, or it is the update of the commit that failed: then
    the commit table is untouched and the size of the repo stays raised,
    for the driver does not take the first update back. *)
Theorem FinishCommit_frame (w : Live.World) (d d' : DB) (commit : pfs.Commit)
  (finished : option Timestamp) (cancel : bool) (err : option error) :
  Live.FinishCommit w d commit finished cancel = Returned d' err ->
  exists ds,
    In ds (d :: Live.history w)
    /\ diffTable d' = diffTable ds
    /\ clockTable d' = clockTable ds
    /\ map Commit.ID (commitTable d') = map Commit.ID (commitTable ds)
    /\ map Repo.Name (repoTable d') = map Repo.Name (repoTable ds)
    /\ (forall rawCommit id,
           getCommitByAmbiguousID d (pfs.Repo commit) (pfs.ID commit) = Ok rawCommit ->
           id <> Commit.ID rawCommit ->
           Get Commit.ID (commitTable d') id = Get Commit.ID (commitTable ds) id)
    /\ (forall rawCommit name,
           getCommitByAmbiguousID d (pfs.Repo commit) (pfs.ID commit) = Ok rawCommit ->
           name <> Commit.Repo rawCommit ->
           Get Repo.Name (repoTable d') name = Get Repo.Name (repoTable ds) name)
    /\ (err <> None ->
        d' = ds
        \/ (Live.repoUpdate w = None /\ err = Live.commitUpdate w
            /\ commitTable d' = commitTable ds
            /\ exists rawCommit,
                getCommitByAmbiguousID d (pfs.Repo commit) (pfs.ID commit)
                = Ok rawCommit
                /\ Get Repo.Name (repoTable d') (Commit.Repo rawCommit)
                   = option_map
                       (addRepoSize (computeCommitSize d (Commit.ID rawCommit)))
                       (Get Repo.Name (repoTable ds) (Commit.Repo rawCommit)))).
Proof.
  intros H. apply Live_FinishCommit_Returned in H.
  destruct H as [[-> He]|(rawCommit & parentID & ds & pc & Hc & Hp & Hs & H)].
  - exists d. split; [now left|]. repeat split; auto.
  - exists ds.
    assert (Hin : In ds (d :: Live.history w)).
    { destruct (String.eqb parentID "").
      - injection Hs as <- _. now left.
      - apply awaitParent_first in Hs. destruct Hs as (before & after & -> & _).
        apply in_or_app. right. now left. }
    split; [exact Hin|].
    assert (Hnames : forall t size,
               map Repo.Name (Update Repo.Name t (Commit.Repo rawCommit)
                                     (addRepoSize size)) = map Repo.Name t).
    { intros t size. unfold Update. rewrite map_map. apply map_ext. intros r.
      now destruct (String.eqb (Repo.Name r) (Commit.Repo rawCommit)). }
    destruct H as [(-> & He & _)|[(-> & Hr & He & Hu)|(-> & Hr & Hu & ->)]].
    + repeat split; auto.
    + simpl. split; [reflexivity|]. split; [reflexivity|]. split; [reflexivity|].
      split; [apply Hnames|]. split; [reflexivity|]. split.
      * intros rawCommit' name Hc' Hne. rewrite Hc in Hc'. injection Hc' as <-.
        apply Get_Update_other; [exact Hne | intros x Hx; exact Hx].
      * intros _. right. split; [exact Hr|]. split; [exact Hu|].
        split; [reflexivity|]. exists rawCommit. split; [exact Hc|].
        apply Get_Update_same. intros x Hx. exact Hx.
    + unfold finishedWith. simpl. split; [reflexivity|]. split; [reflexivity|]. split.
      * unfold Update. rewrite map_map. apply map_ext_in. intros c _.
        destruct (String.eqb_spec (Commit.ID c) (Commit.ID rawCommit));
          [now simpl | reflexivity].
      * split; [apply Hnames|]. split; [|split; [|congruence]].
        -- intros rawCommit' id Hc' Hne. rewrite Hc in Hc'. injection Hc' as <-.
           apply Get_Update_other; [exact Hne | reflexivity].
        -- intros rawCommit' name Hc' Hne. rewrite Hc in Hc'. injection Hc' as <-.
           apply Get_Update_other; [exact Hne | intros x Hx; exact Hx].
Qed.

Lemma FinishCommit_frame_witness :
  Get Repo.Name
      (repoTable (set_repoTable exampleDB [Repo.mk "r" (Some 0) 5])) "r"
  = option_map (addRepoSize (computeCommitSize exampleDB "c1"))
               (Get Repo.Name (repoTable exampleDB) "r")
  /\ commitTable (set_repoTable exampleDB [Repo.mk "r" (Some 0) 5])
     = commitTable exampleDB.
Proof.
  destruct (FinishCommit_frame (Live.mkWorld [] None (Some ErrReQL)) exampleDB
              (set_repoTable exampleDB [Repo.mk "r" (Some 0) 5])
              (pfs.mkCommit "r" "master/1") (Some 9) false (Some ErrReQL) eq_refl)
    as (ds & Hin & _ & _ & _ & _ & _ & _ & Herr).
  destruct Hin as [<-|[]].
  destruct (Herr ltac:(discriminate)) as [Hd|(_ & _ & Ht & rawCommit & Hc & Hg)].
  - discriminate Hd.
  - injection Hc as <-. split; [exact Hg | exact Ht].
Defined.

(** X18. After a [FinishCommit] that went through, among other clients,
    [InspectCommit] of the same reference, where it still resolves to the
    same record in the state the updates were made on: the commit is
    reported with the finish time given and the cancelled flag stored, as
    a read commit for a finish time that is set, and its size is the size
    stored, which is the sum of the sizes of the commit's diffs as they
    were when the call came in; for a finish time that is not set the
    size is summed anew from the diffs. *)
Theorem FinishCommit_then_InspectCommit (w : Live.World) (d d' : DB)
  (commit : pfs.Commit) (finished : option Timestamp) (cancel : bool) :
  Live.FinishCommit w d commit finished cancel = Returned d' None ->
  exists rawCommit ds,
    getCommitByAmbiguousID d (pfs.Repo commit) (pfs.ID commit) = Ok rawCommit
    /\ In ds (d :: Live.history w)
    /\ (NoDup (map Commit.ID (commitTable ds)) ->
        getCommitByAmbiguousID ds (pfs.Repo commit) (pfs.ID commit) = Ok rawCommit ->
        exists stored info,
          Get Commit.ID (commitTable d') (Commit.ID rawCommit) = Some stored
          /\ Commit.Finished stored = finished
          /\ Commit.Size stored
             = sumSizes (filter (fun x => String.eqb (Diff.CommitID x)
                                                    (Commit.ID rawCommit))
                                (diffTable d))
          /\ InspectCommit d' commit = Ok info
          /\ pfs.Commit_ info = pfs.mkCommit (Commit.Repo rawCommit) (pfs.ID commit)
          /\ pfs.Started info = Commit.Started rawCommit
          /\ pfs.Finished info = finished
          /\ pfs.CommitType_ info
             = match finished with
               | Some _ => pfs.CommitType_COMMIT_TYPE_READ
               | None => pfs.CommitType_COMMIT_TYPE_WRITE
               end
          /\ pfs.Cancelled info = Commit.Cancelled stored
          /\ pfs.SizeBytes info
             = match finished with
               | Some _ => Commit.Size stored
               | None =>
                   sumSizes (filter (fun x => String.eqb (Diff.CommitID x)
                                                         (Commit.ID rawCommit))
                                    (diffTable ds))
               end).
Proof.
  intros H. apply Live_FinishCommit_success in H.
  destruct H as (rawCommit & parentID & ds & pc & Hc & Hp & Hs & _ & _ & ->).
  pose proof (computeCommitSize_sum d (Commit.ID rawCommit)) as Hsum.
  unfold diffsOfCommit, DiffCommitIndex_key in Hsum.
  set (size := computeCommitSize d (Commit.ID rawCommit)) in *.
  set (new := finishedCommit rawCommit size finished (pc || cancel)).
  exists rawCommit, ds. split; [exact Hc|].
  split.
  { destruct (String.eqb parentID "").
    - injection Hs as <- _. now left.
    - apply awaitParent_first in Hs. destruct Hs as (before & after & -> & _).
      apply in_or_app. right. now left. }
  intros Hnd Hres.
  pose proof (getCommitByAmbiguousID_In _ _ _ _ Hres) as Hin.
  set (g := fun c : Commit.t =>
              if String.eqb (Commit.ID c) (Commit.ID rawCommit) then new else c).
  assert (Hnew : getCommitByAmbiguousID
                   (finishedWith ds rawCommit size finished (pc || cancel))
                   (pfs.Repo commit) (pfs.ID commit) = Ok new).
  { rewrite (getCommitByAmbiguousID_kept g ds); [| reflexivity |].
    - rewrite Hres. unfold g. now rewrite String.eqb_refl.
    - intros c Hcin. unfold g.
      destruct (String.eqb_spec (Commit.ID c) (Commit.ID rawCommit)) as [E|E];
        [|now repeat split].
      rewrite (NoDup_key_eq Commit.ID _ _ _ Hnd Hcin Hin E). now repeat split. }
  exists new. eexists.
  split.
  { rewrite finishedWith_commit, String.eqb_refl.
    destruct (In_Get Commit.ID _ _ Hin) as [y ->]. reflexivity. }
  split; [reflexivity|]. split; [exact Hsum|].
  split; [unfold InspectCommit; rewrite Hnew; reflexivity|].
  simpl. repeat split. destruct finished; [reflexivity|].
  now rewrite computeCommitSize_sum.
Qed.

Lemma FinishCommit_then_InspectCommit_witness :
  exists stored info,
    Get Commit.ID (commitTable staleDB) "c1" = Some stored
    /\ Commit.Size stored
       = sumSizes (filter (fun x => String.eqb (Diff.CommitID x) "c1")
                          (diffTable openDB))
    /\ InspectCommit staleDB (pfs.mkCommit "r" "master/1") = Ok info
    /\ pfs.Finished info = Some 9
    /\ pfs.SizeBytes info = Commit.Size stored.
Proof.
  destruct (FinishCommit_then_InspectCommit busyWorld openDB staleDB
              (pfs.mkCommit "r" "master/1") (Some 9) false eq_refl)
    as (rawCommit & ds & Hc & Hin & H).
  vm_compute in Hc. injection Hc as <-.
  assert (Hds : forall s, In s [openDB; putDB; parentDoneDB] ->
                          NoDup (map Commit.ID (commitTable s))
                          /\ getCommitByAmbiguousID s "r" "master/1" = Ok commit1).
  { intros s [<-|[<-|[<-|[]]]]; (split; [|reflexivity]);
      (constructor; [intros [E|[]]; discriminate E|]);
      (constructor; [intros []|constructor]). }
  destruct (Hds ds Hin) as [Hnd Hres].
  destruct (H Hnd Hres) as (stored & info & Hg & _ & Hsz & Hi & _ & _ & Hf & _ & _ & Hs).
  exists stored, info. split; [exact Hg|]. split; [exact Hsz|].
  split; [exact Hi|]. split; [exact Hf | exact Hs].
Defined.

(** ** StartCommit and its deferred delete *)

(** With a deferred delete that works, the call is [StartCommit]. *)
Lemma Live_StartCommit_quiet (lc : Libclock) (uuid : string) (now : Timestamp)
  (d : DB) (repo commitID parentID branch : string) (started : option Timestamp)
  (provenance : list pfs.Commit) :
  Live.StartCommit false lc uuid now d repo commitID parentID branch started provenance
  = StartCommit lc uuid now d repo commitID parentID branch started provenance.
Proof. reflexivity. Qed.

(** X11. What a [StartCommit] that returns an error leaves behind.  Where
    the deferred delete of the clock works, nothing has changed.  Where it
    fails, which the driver only logs, the database is unchanged unless it
    was the insert of the commit that failed, on an id that is taken: then
    the clock document inserted before stays in the table. *)
Theorem StartCommit_error_restores (deleteFails : bool) (lc : Libclock)
  (uuid : string) (now : Timestamp) (d d' : DB)
  (repo commitID parentID branch : string) (started : option Timestamp)
  (provenance : list pfs.Commit) (e : startError) :
  Live.StartCommit deleteFails lc uuid now d repo commitID parentID branch started
                   provenance
  = Started d' (Some e) ->
  (deleteFails = false -> d' = d)
  /\ (d' = d
      \/ (deleteFails = true
          /\ e = ErrStart ErrInsertConflict
          /\ Get Commit.ID (commitTable d) commitID <> None
          /\ exists branchClocks b clock,
              GetClockForBranch lc branchClocks b = Ok clock
              /\ Get ClockID.ID (clockTable d) (ClockID.ID (getClockID repo clock))
                 = None
              /\ d' = set_clockTable d (clockTable d ++ [getClockID repo clock])%list)).
Proof.
  unfold Live.StartCommit.
  destruct (if String.eqb parentID "" then _ else _)
    as [bcs clockID clocks|e'|] eqn:R; [| |discriminate].
  - apply reservation_Reserved in R. destruct R as (I & b & clock & G & ->).
    unfold Insert at 1. simpl.
    destruct (Get Commit.ID (commitTable d) commitID) as [c|] eqn:GC; [|discriminate].
    intros H. injection H as <- <-.
    assert (Hback : set_clockTable (set_clockTable d clocks)
                      (Delete ClockID.ID clocks (ClockID.ID (getClockID repo clock)))
                    = d).
    { rewrite (Insert_Delete _ _ _ _ I). now destruct d. }
    destruct deleteFails.
    + split; [discriminate|]. right. split; [reflexivity|]. split; [reflexivity|].
      split; [discriminate|]. exists bcs, b, clock. split; [exact G|].
      unfold Insert in I.
      destruct (Get ClockID.ID (clockTable d) _); [discriminate|].
      injection I as <-. now split.
    + split; [intros _; exact Hback | left; exact Hback].
  - intros H. injection H as <- _. split; [reflexivity | now left].
Qed.

Lemma StartCommit_error_restores_witness :
  Live.StartCommit false specClock "u" 7 exampleDB "r" "c1" "" "master" None []
  = Started exampleDB (Some (ErrStart ErrInsertConflict))
  /\ Live.StartCommit true specClock "u" 7 exampleDB "r" "c1" "" "master" None []
     = Started staleClockDB (Some (ErrStart ErrInsertConflict)).
Proof.
  assert (H1 : exists d', Live.StartCommit false specClock "u" 7 exampleDB "r" "c1" ""
                                           "master" None []
                          = Started d' (Some (ErrStart ErrInsertConflict)))
    by (eexists; vm_compute; reflexivity).
  destruct H1 as [d1 H1]. split.
  - rewrite H1. f_equal.
    exact (proj1 (StartCommit_error_restores _ _ _ _ _ _ _ _ _ _ _ _ _ H1) eq_refl).
  - vm_compute. reflexivity.
Defined.

Lemma Insert_Err {D : Type} (key : D -> string) (t : list D) (doc : D) (e : error) :
  Insert key t doc = Err e <-> e = ErrInsertConflict /\ Get key t (key doc) <> None.
Proof.
  unfold Insert. destruct (Get key t (key doc)); split.
  - intros H. injection H as <-. split; [reflexivity | discriminate].
  - intros [-> _]. reflexivity.
  - discriminate.
  - intros [_ H]. contradiction.
Qed.

Lemma reserveOnBranch_Taken (lc : Libclock) (d : DB) (repo br : string) :
  reserveOnBranch lc d repo br = Taken
  <-> exists branchClocks clock,
      ((getHeadOfBranch d repo br = Err ErrEmptyResult
        /\ branchClocks = NewBranchClocks lc br)
       \/ exists head,
           getHeadOfBranch d repo br = Ok head
           /\ NewChildOfBranchClocks lc (Commit.BranchClocks head) br
              = Ok branchClocks)
      /\ GetClockForBranch lc branchClocks br = Ok clock
      /\ Get ClockID.ID (clockTable d) (ClockID.ID (getClockID repo clock)) <> None.
Proof.
  unfold reserveOnBranch. split.
  - destruct (getHeadOfBranch d repo br) as [head|e] eqn:H.
    + destruct (NewChildOfBranchClocks lc _ br) as [bcs|e] eqn:N; [|discriminate].
      destruct (GetClockForBranch lc bcs br) as [clock|e] eqn:G; [|discriminate].
      destruct (Insert ClockID.ID _ _) as [t|e] eqn:I; [discriminate|].
      intros _. exists bcs, clock. split; [right; now exists head|].
      split; [exact G|]. now apply Insert_Err in I.
    + rewrite (getHeadOfBranch_error _ _ _ _ H) in *.
      destruct (GetClockForBranch lc _ br) as [clock|e'] eqn:G; [|discriminate].
      destruct (Insert ClockID.ID _ _) as [t|e'] eqn:I; [discriminate|].
      intros _. exists (NewBranchClocks lc br), clock. split; [left; now split|].
      split; [exact G|]. now apply Insert_Err in I.
  - intros (bcs & clock & [[-> ->]|(head & -> & ->)] & -> & Hg);
      unfold Insert; simpl;
      now destruct (Get ClockID.ID (clockTable d) _).
Qed.

Lemma reserveOnBranch_no_branch_error (lc : Libclock) (d : DB) (repo br b : string) :
  reserveOnBranch lc d repo br <> Refused (ErrBranchExists b).
Proof.
  unfold reserveOnBranch.
  destruct (match getHeadOfBranch d repo br with
            | Ok parentCommit =>
                NewChildOfBranchClocks lc (Commit.BranchClocks parentCommit) br
            | Err ErrEmptyResult => Ok (NewBranchClocks lc br)
            | Err e => Err e
            end) as [bcs|e]; [|discriminate].
  destruct (GetClockForBranch lc bcs br) as [clock|e]; [|discriminate].
  destruct (Insert ClockID.ID _ _); discriminate.
Qed.

Lemma reserveFromParent_not_Taken (lc : Libclock) (d : DB)
  (repo parentID branch : string) :
  reserveFromParent lc d repo parentID branch <> Taken.
Proof.
  unfold reserveFromParent.
  destruct (getCommitByAmbiguousID d repo parentID) as [parentCommit|e]; [|discriminate].
  destruct (Commit.BranchClocks parentCommit) as [|bc0 rest]; [discriminate|].
  destruct (lastClock bc0) as [parentLast|]; [|discriminate].
  destruct (if (branch =? "")%string then _ else _) as [bcs|e]; [|discriminate].
  destruct (GetClockForBranch lc bcs _) as [clock|e]; [|discriminate].
  destruct (Insert ClockID.ID _ _); discriminate.
Qed.

Lemma reserveFromParent_branch_exists (lc : Libclock) (d : DB)
  (repo parentID branch b : string) :
  reserveFromParent lc d repo parentID branch = Refused (ErrBranchExists b)
  <-> exists parentCommit bc0 rest parentLast branchClocks clock,
      getCommitByAmbiguousID d repo parentID = Ok parentCommit
      /\ Commit.BranchClocks parentCommit = bc0 :: rest
      /\ lastClock bc0 = Some parentLast
      /\ ((branch = "" /\ branchClocks = [NewChild lc bc0]
           /\ b = Clock.Branch parentLast)
          \/ (branch <> ""
              /\ NewBranchOffBranchClocks lc (bc0 :: rest) (Clock.Branch parentLast)
                                          branch = Ok branchClocks
              /\ b = branch))
      /\ GetClockForBranch lc branchClocks b = Ok clock
      /\ Get ClockID.ID (clockTable d) (ClockID.ID (getClockID repo clock)) <> None.
Proof.
  unfold reserveFromParent. split.
  - destruct (getCommitByAmbiguousID d repo parentID) as [parentCommit|e];
      [|discriminate].
    destruct (Commit.BranchClocks parentCommit) as [|bc0 rest] eqn:B; [discriminate|].
    destruct (lastClock bc0) as [parentLast|] eqn:L; [|discriminate].
    destruct (String.eqb_spec branch "") as [->|Hne].
    + destruct (GetClockForBranch lc _ _) as [clock|e] eqn:G; [|discriminate].
      destruct (Insert ClockID.ID _ _) as [t|e] eqn:I; [discriminate|].
      intros H. injection H as <-.
      exists parentCommit, bc0, rest, parentLast, [NewChild lc bc0], clock.
      split; [reflexivity|]. split; [exact B|]. split; [exact L|].
      split; [left; now repeat split|]. split; [exact G|]. now apply Insert_Err in I.
    + destruct (NewBranchOffBranchClocks lc _ _ branch) as [bcs|e] eqn:N;
        [|discriminate].
      destruct (GetClockForBranch lc bcs branch) as [clock|e] eqn:G; [|discriminate].
      destruct (Insert ClockID.ID _ _) as [t|e] eqn:I; [discriminate|].
      intros H. injection H as <-.
      exists parentCommit, bc0, rest, parentLast, bcs, clock.
      split; [reflexivity|]. split; [exact B|]. split; [exact L|].
      split; [right; now repeat split|]. split; [exact G|]. now apply Insert_Err in I.
  - intros (parentCommit & bc0 & rest & parentLast & bcs & clock
            & -> & -> & -> & [(-> & -> & ->)|(Hne & N & ->)] & G & Hg).
    + simpl. rewrite G. unfold Insert.
      now destruct (Get ClockID.ID (clockTable d) _).
    + apply String.eqb_neq in Hne. rewrite Hne, N, G. unfold Insert.
      now destruct (Get ClockID.ID (clockTable d) _).
Qed.

(** X13. The two ways [StartCommit] meets a clock that is taken, each
    characterised by the data.  Without a parent it tries again for ever,
    exactly when the clock it computes, from the head of the branch or as
    the first of a new branch, has its document in the clock table
    already.  With a parent it returns the branch-exists error for a
    branch, exactly when the parent resolves and the clock of the child,
    on the parent's branch or on the named new branch, has its document
    already; the database is then unchanged. *)
Theorem StartCommit_clock_taken (lc : Libclock) (uuid : string) (now : Timestamp)
  (d : DB) (repo commitID parentID branch : string) (started : option Timestamp)
  (provenance : list pfs.Commit) :
  (StartCommit lc uuid now d repo commitID parentID branch started provenance
   = RetriesForever
   <-> parentID = ""
       /\ exists branchClocks clock,
           ((getHeadOfBranch d repo (if String.eqb branch "" then uuid else branch)
             = Err ErrEmptyResult
             /\ branchClocks
                = NewBranchClocks lc (if String.eqb branch "" then uuid else branch))
            \/ exists head,
                getHeadOfBranch d repo (if String.eqb branch "" then uuid else branch)
                = Ok head
                /\ NewChildOfBranchClocks
                     lc (Commit.BranchClocks head)
                     (if String.eqb branch "" then uuid else branch)
                   = Ok branchClocks)
           /\ GetClockForBranch lc branchClocks
                                (if String.eqb branch "" then uuid else branch)
              = Ok clock
           /\ Get ClockID.ID (clockTable d) (ClockID.ID (getClockID repo clock))
              <> None)
  /\ (forall b,
         StartCommit lc uuid now d repo commitID parentID branch started provenance
         = Started d (Some (ErrBranchExists b))
         <-> parentID <> ""
             /\ exists parentCommit bc0 rest parentLast branchClocks clock,
                 getCommitByAmbiguousID d repo parentID = Ok parentCommit
                 /\ Commit.BranchClocks parentCommit = bc0 :: rest
                 /\ lastClock bc0 = Some parentLast
                 /\ ((branch = "" /\ branchClocks = [NewChild lc bc0]
                      /\ b = Clock.Branch parentLast)
                     \/ (branch <> ""
                         /\ NewBranchOffBranchClocks lc (bc0 :: rest)
                                                     (Clock.Branch parentLast) branch
                            = Ok branchClocks
                         /\ b = branch))
                 /\ GetClockForBranch lc branchClocks b = Ok clock
                 /\ Get ClockID.ID (clockTable d) (ClockID.ID (getClockID repo clock))
                    <> None)
  /\ (forall d' b,
         StartCommit lc uuid now d repo commitID parentID branch started provenance
         = Started d' (Some (ErrBranchExists b)) -> d' = d).
Proof.
  unfold StartCommit. destruct (String.eqb_spec parentID "") as [->|Hne].
  - split; [|split].
    + rewrite <- reserveOnBranch_Taken.
      destruct (reserveOnBranch lc d repo _) as [bcs clockID clocks|e'|] eqn:R.
      * destruct (Insert Commit.ID _ _); split; try discriminate;
          intros [_ H]; discriminate.
      * split; [discriminate | intros [_ H]; discriminate].
      * split; [now split | reflexivity].
    + intros b. split; [|intros [H _]; contradiction].
      destruct (reserveOnBranch lc d repo _) as [bcs clockID clocks|e'|] eqn:R.
      * destruct (Insert Commit.ID _ _); discriminate.
      * intros H. injection H as ->. now apply reserveOnBranch_no_branch_error in R.
      * discriminate.
    + intros d' b.
      destruct (reserveOnBranch lc d repo _) as [bcs clockID clocks|e'|] eqn:R.
      * destruct (Insert Commit.ID _ _); discriminate.
      * intros H. now injection H.
      * discriminate.
  - split; [|split].
    + split; [|intros [H _]; contradiction].
      destruct (reserveFromParent lc d repo parentID branch)
        as [bcs clockID clocks|e'|] eqn:R.
      * destruct (Insert Commit.ID _ _); discriminate.
      * discriminate.
      * now apply reserveFromParent_not_Taken in R.
    + intros b. rewrite <- reserveFromParent_branch_exists.
      destruct (reserveFromParent lc d repo parentID branch)
        as [bcs clockID clocks|e'|] eqn:R.
      * destruct (Insert Commit.ID _ _); split; try discriminate;
          intros [_ H]; discriminate.
      * split.
        -- intros H. injection H as ->. now split.
        -- intros [_ H]. now injection H as ->.
      * split; [discriminate | intros [_ H]; discriminate].
    + intros d' b.
      destruct (reserveFromParent lc d repo parentID branch)
        as [bcs clockID clocks|e'|] eqn:R.
      * destruct (Insert Commit.ID _ _); discriminate.
      * intros H. now injection H.
      * discriminate.
Qed.

Lemma StartCommit_clock_taken_witness :
  StartCommit specClock "u" 7 staleClockDB "r" "c2" "" "master" None []
  = RetriesForever
  /\ StartCommit specClock "u" 7 staleClockDB "r" "c2" "master/1" "" None []
     = Started staleClockDB (Some (ErrBranchExists "master")).
Proof.
  destruct (StartCommit_clock_taken specClock "u" 7 staleClockDB "r" "c2" ""
              "master" None []) as (H1 & _ & _).
  destruct (StartCommit_clock_taken specClock "u" 7 staleClockDB "r" "c2" "master/1"
              "" None []) as (_ & H2 & _).
  split.
  - apply H1. split; [reflexivity|].
    exists [master 2], (Clock.mk "master" 2). split.
    + right. exists commit1. split; reflexivity.
    + split; [reflexivity | vm_compute; discriminate].
  - apply H2. split; [discriminate|].
    exists commit1, (master 1), [], (Clock.mk "master" 1), [master 2],
      (Clock.mk "master" 2).
    split; [reflexivity|]. split; [reflexivity|]. split; [reflexivity|].
    split; [left; now repeat split|]. split; [reflexivity | vm_compute; discriminate].
Defined.

(** * The read side of a path *)

Lemma fold_unionOrdered_Ok (ds : list Diff.t) :
  forall acc,
    forallb hasBranchClock acc = true ->
    forallb hasBranchClock ds = true ->
    exists l, fold_left unionOrdered (map (fun diff => [diff]) ds) (Ok acc) = Ok l.
Proof.
  induction ds as [|x ds IH]; simpl; intros acc Ha Hd; [now exists acc|].
  apply andb_prop in Hd. destruct Hd as [Hx Hd].
  unfold OrderByClock.
  assert (Hall : forallb hasBranchClock (acc ++ [x]) = true).
  { rewrite forallb_app, Ha. simpl. now rewrite Hx. }
  rewrite Hall. apply IH; [|exact Hd].
  apply forallb_forall. intros y Hy.
  apply (Permutation_in _ (sortBy_Permutation clockLeb (acc ++ [x]))) in Hy.
  revert y Hy. now apply forallb_forall.
Qed.

Lemma foldDiffs_Ok (diffs : list Diff.t) :
  forallb hasBranchClock diffs = true -> exists folded, foldDiffs diffs = Ok folded.
Proof.
  intros H. unfold foldDiffs, orderedDiffs. destruct diffs as [|x ds]; simpl.
  - now eexists.
  - simpl in H. apply andb_prop in H. destruct H as [Hx Hd].
    destruct (fold_unionOrdered_Ok ds [x]) as [l ->]; [simpl; now rewrite Hx | exact Hd|].
    now eexists.
Qed.

(** The read-side fold of a path cannot fail: the path index lists a diff
    by its branch clocks, so every diff it finds has one to be ordered
    by. *)
Lemma foldDiffs_pathDiffs (d : DB) (repo path : string) (query : list ClockArray) :
  exists folded, foldDiffs (pathDiffs d repo path query) = Ok folded.
Proof.
  apply foldDiffs_Ok. apply forallb_forall. intros x Hx.
  apply pathDiffs_In in Hx. destruct Hx as (_ & _ & _ & bc & Hbc & _).
  unfold hasBranchClock. now destruct (Diff.BranchClocks x).
Qed.

Lemma filterBlockRefs_None (file : pfs.File) (refs : list BlockRef.t) :
  filterBlockRefs None file refs = refs.
Proof.
  unfold filterBlockRefs. simpl. induction refs as [|r refs IH]; simpl; [reflexivity|].
  now rewrite IH.
Qed.

Lemma withBlockRefs_same (diff : Diff.t) : withBlockRefs diff (Diff.BlockRefs diff) = diff.
Proof. now destruct diff. Qed.

(** Without a shard [inspectFile] returns the fold itself. *)
Lemma inspectFile_None (d : DB) (file : pfs.File) (from : option pfs.Commit)
  (query : list ClockArray) (folded : Diff.t) :
  getIntervalQueryFromCommitRange d from (pfs.FileCommit file) = Ok query ->
  foldDiffs (pathDiffs d (pfs.Repo (pfs.FileCommit file)) (pfs.Path file) query)
  = Ok folded ->
  inspectFile d file None from = Ok folded.
Proof.
  intros Hq Hf. unfold inspectFile. simpl. rewrite Hq. simpl. rewrite Hf. simpl.
  destruct (Diff.BlockRefs folded) as [|ref refs] eqn:B; [reflexivity|].
  rewrite filterBlockRefs_None, <- B. now rewrite withBlockRefs_same.
Qed.

Lemma inspectFile_query_Err (d : DB) (file : pfs.File) (from : option pfs.Commit)
  (e : error) :
  getIntervalQueryFromCommitRange d from (pfs.FileCommit file) = Err e ->
  inspectFile d file None from = Err e.
Proof. intros Hq. unfold inspectFile. simpl. now rewrite Hq. Qed.

(** What the read-side type check answers, in terms of the fold. *)
Lemma checkFileType_fold (d : DB) (repo commit path : string) (typ : FileType)
  (query : list ClockArray) (folded : Diff.t) :
  getIntervalQueryFromCommitRange d None (pfs.mkCommit repo commit) = Ok query ->
  foldDiffs (pathDiffs d repo path query) = Ok folded ->
  checkFileType d repo commit path typ
  = if negb (FileType_eqb (Diff.FileType folded) typ)
       && negb (FileType_eqb (Diff.FileType folded) FileType_NONE)
    then Some ErrConflictFileType else None.
Proof.
  intros Hq Hf. unfold checkFileType.
  now rewrite (inspectFile_None d (pfs.mkFile (pfs.mkCommit repo commit) path) None
                 query folded Hq Hf).
Qed.

Lemma checkFileType_query_Err (d : DB) (repo commit path : string) (typ : FileType)
  (e : error) :
  getIntervalQueryFromCommitRange d None (pfs.mkCommit repo commit) = Err e ->
  checkFileType d repo commit path typ
  = match e with ErrFileNotFound _ _ _ => None | _ => Some e end.
Proof.
  intros Hq. unfold checkFileType.
  now rewrite (inspectFile_query_Err d (pfs.mkFile (pfs.mkCommit repo commit) path)
                 None e Hq).
Qed.

Lemma getCommitByAmbiguousID_error (d : DB) (repo commitID : string) (e : error) :
  getCommitByAmbiguousID d repo commitID = Err e ->
  e = ErrEmptyResult \/ e = ErrNotFoundInIndex "Commits" "CommitBranchIndex".
Proof.
  unfold getCommitByAmbiguousID, getCommitByIndex.
  destruct (parseClock commitID) as [alias|].
  - destruct (find _ (commitTable d)); [discriminate|].
    intros H. injection H as <-. now right.
  - destruct (getHeadOfBranch d repo commitID); [discriminate|].
    destruct (Get Commit.ID (commitTable d) commitID); [discriminate|].
    intros H. injection H as <-. now left.
Qed.

(** The clock interval of a commit is not found for want of the commit, of
    a branch clock or of a clock in it, never for want of a file. *)
Lemma query_error (d : DB) (toCommit : pfs.Commit) (e : error) :
  getIntervalQueryFromCommitRange d None toCommit = Err e ->
  forall path repo commit, e <> ErrFileNotFound path repo commit.
Proof.
  unfold getIntervalQueryFromCommitRange, getClockByAmbiguousID. simpl.
  destruct (getCommitByAmbiguousID d _ _) as [c|e1] eqn:C; simpl.
  - destruct (Commit.BranchClocks c) as [|bc rest]; simpl.
    + intros H. injection H as <-. discriminate.
    + unfold intervalToClocks. simpl. intros H.
      apply ConcatMap_error in H. subst e. discriminate.
  - intros H. injection H as <-.
    destruct (getCommitByAmbiguousID_error _ _ _ _ C) as [-> | ->]; discriminate.
Qed.

Lemma putFileDiffs_commit (commit : Commit.t) (path : string) (refs : list BlockRef.t)
  (now : nat -> Timestamp) (new : Diff.t) :
  In new (putFileDiffs commit path refs now) ->
  Diff.Repo new = Commit.Repo commit
  /\ Diff.CommitID new = Commit.ID commit
  /\ ((Diff.Path new = path /\ Diff.FileType new = FileType_FILE)
      \/ (In (Diff.Path new) (getPrefixes path) /\ Diff.FileType new = FileType_DIR)).
Proof.
  unfold putFileDiffs. rewrite in_app_iff. intros [H|[<-|[]]].
  - apply in_map_iff in H. destruct H as [[i prefix] [<- H]].
    apply in_combine_r in H. split; [reflexivity|]. split; [reflexivity|].
    right. now split.
  - split; [reflexivity|]. split; [reflexivity|]. left. now split.
Qed.

Lemma putFileDiffs_planned (commit : Commit.t) (path : string)
  (refs : list BlockRef.t) (now : nat -> Timestamp) (path' : string) (typ : FileType) :
  (path' = path /\ typ = FileType_FILE)
  \/ (In path' (getPrefixes path) /\ typ = FileType_DIR) ->
  exists new, In new (putFileDiffs commit path refs now)
              /\ Diff.Path new = path' /\ Diff.FileType new = typ.
Proof.
  unfold putFileDiffs. intros [[-> ->]|[Hin ->]].
  - eexists. split; [apply in_or_app; right; now left|]. now split.
  - apply In_nth_error in Hin. destruct Hin as [i Hi].
    exists (dirDiff commit path' (now i)). split; [|now split].
    apply in_or_app. left. apply in_map_iff. exists (i, path'). split; [reflexivity|].
    assert (Hlt : (i < List.length (getPrefixes path))%nat)
      by (apply nth_error_Some; congruence).
    clear - Hi Hlt. revert i Hi Hlt.
    generalize (getPrefixes path) as l. intros l.
    assert (forall s i, nth_error l i = Some path' ->
                        In ((s + i)%nat, path') (combine (seq s (List.length l)) l)) as H.
    { induction l as [|x l IH]; intros s [|i] Hi; simpl in *; try discriminate.
      - injection Hi as ->. left. f_equal. lia.
      - right. replace (s + S i)%nat with (S s + i)%nat by lia. now apply IH. }
    intros i Hi _. exact (H 0%nat i Hi).
Qed.

(** The read-side check of the planned diffs, in terms of the folds. *)
Lemma firstTypeConflict_folds (d : DB) (repo commit : string)
  (query : list ClockArray) (diffs : list Diff.t) :
  getIntervalQueryFromCommitRange d None (pfs.mkCommit repo commit) = Ok query ->
  (forall diff, In diff diffs -> Diff.Repo diff = repo /\ Diff.CommitID diff = commit) ->
  (firstTypeConflict d diffs = None
   \/ firstTypeConflict d diffs = Some ErrConflictFileType)
  /\ (firstTypeConflict d diffs = None
      <-> forall diff folded,
          In diff diffs ->
          foldDiffs (pathDiffs d repo (Diff.Path diff) query) = Ok folded ->
          Diff.FileType folded = FileType_NONE
          \/ Diff.FileType folded = Diff.FileType diff).
Proof.
  intros Hq. induction diffs as [|x diffs IH]; intros Hall; simpl.
  - split; [now left|]. split; [intros _ diff folded [] | reflexivity].
  - destruct (Hall x (or_introl eq_refl)) as [Hr Hc]. rewrite Hr, Hc.
    destruct (foldDiffs_pathDiffs d repo (Diff.Path x) query) as [folded Hf].
    rewrite (checkFileType_fold _ _ _ _ _ _ _ Hq Hf).
    destruct IH as [IH1 IH2]; [intros diff Hin; apply Hall; now right|].
    destruct (FileType_eqb_spec (Diff.FileType folded) (Diff.FileType x)) as [E|E]; simpl.
    + split; [exact IH1|]. rewrite IH2. split.
      * intros H diff folded' [<-|Hin] Hf'; [|now apply H].
        rewrite Hf in Hf'. injection Hf' as <-. now right.
      * intros H diff folded' Hin. apply H. now right.
    + destruct (FileType_eqb_spec (Diff.FileType folded) FileType_NONE) as [E'|E']; simpl.
      * split; [exact IH1|]. rewrite IH2. split.
        -- intros H diff folded' [<-|Hin] Hf'; [|now apply H].
           rewrite Hf in Hf'. injection Hf' as <-. now left.
        -- intros H diff folded' Hin. apply H. now right.
      * split; [now right|]. split; [discriminate|].
        intros H. destruct (H x folded (or_introl eq_refl) Hf); contradiction.
Qed.

(** C5. [PutFile] where a diff it plans is stored already under the same
    id, in the same commit.  If the stored type is neither NONE nor the
    planned one, [PutFile] returns an error and the stored diff stays; the
    error is the file type conflict whenever the clock interval of the
    commit is found.  Otherwise, if no planned path folds to another type
    than planned, the stored diff becomes the merge: the old block refs
    followed by the new, the sum of the sizes, the new type and the new
    modification time. *)
Theorem PutFile_merges_or_conflicts (d : DB) (f : pfs.File)
  (refs : list BlockRef.t) (now : nat -> Timestamp) (commit : Commit.t)
  (new old : Diff.t) :
  getCommitByAmbiguousID d (pfs.Repo (pfs.FileCommit f))
                         (pfs.ID (pfs.FileCommit f)) = Ok commit ->
  In new (putFileDiffs commit (fixPath (pfs.Path f)) refs now) ->
  Get Diff.ID (diffTable d) (Diff.ID new) = Some old ->
  (Diff.FileType old <> FileType_NONE ->
   Diff.FileType old <> Diff.FileType new ->
   (exists e, snd (PutFile d f (Ok refs) now) = Some e)
   /\ Get Diff.ID (diffTable (fst (PutFile d f (Ok refs) now))) (Diff.ID new)
      = Some old
   /\ forall query,
       getIntervalQueryFromCommitRange
         d None (pfs.mkCommit (Commit.Repo commit) (Commit.ID commit)) = Ok query ->
       snd (PutFile d f (Ok refs) now) = Some ErrConflictFileType)
  /\ (Diff.FileType old = FileType_NONE \/ Diff.FileType old = Diff.FileType new ->
      forall query,
        getIntervalQueryFromCommitRange
          d None (pfs.mkCommit (Commit.Repo commit) (Commit.ID commit)) = Ok query ->
        (forall planned folded,
            In planned (putFileDiffs commit (fixPath (pfs.Path f)) refs now) ->
            foldDiffs (pathDiffs d (Commit.Repo commit) (Diff.Path planned) query)
            = Ok folded ->
            Diff.FileType folded = FileType_NONE
            \/ Diff.FileType folded = Diff.FileType planned) ->
        exists stored,
          Get Diff.ID (diffTable (fst (PutFile d f (Ok refs) now))) (Diff.ID new)
          = Some stored
          /\ Diff.BlockRefs stored = (Diff.BlockRefs old ++ Diff.BlockRefs new)%list
          /\ Diff.Size stored = Diff.Size old + Diff.Size new
          /\ Diff.FileType stored = Diff.FileType new
          /\ Diff.Modified stored = Diff.Modified new
          /\ Diff.Path stored = Diff.Path old
          /\ Diff.CommitID stored = Diff.CommitID old).
Proof.
  intros Hc Hin Hold.
  set (news := putFileDiffs commit (fixPath (pfs.Path f)) refs now) in *.
  assert (Hplanned : forall diff, In diff news ->
                       Diff.Repo diff = Commit.Repo commit
                       /\ Diff.CommitID diff = Commit.ID commit).
  { intros diff Hd. apply putFileDiffs_commit in Hd. now destruct Hd as (? & ? & _). }
  assert (Hnd : NoDup (map Diff.ID news)).
  { unfold news. destruct (fixPath_slash (pfs.Path f)) as [rest ->].
    apply putFileDiffs_NoDup. }
  destruct (UpsertAll_each Diff.ID putFileConflict putFileConflict_key _
              (diffTable d) Hnd) as [Heach _].
  specialize (Heach new Hin). rewrite Hold in Heach.
  split.
  - intros Hnone Hdiff.
    assert (Hr : putFileConflict old new = Err ErrConflictFileType).
    { unfold putFileConflict.
      destruct (FileType_eqb_spec (Diff.FileType old) FileType_NONE); [easy|].
      now destruct (FileType_eqb_spec (Diff.FileType old) (Diff.FileType new)). }
    rewrite Hr in Heach.
    destruct (firstTypeConflict d news) as [e|] eqn:Hcheck.
    + assert (Hput : PutFile d f (Ok refs) now = (d, Some e)).
      { unfold PutFile. rewrite Hc. fold news. now rewrite Hcheck. }
      rewrite Hput. simpl. split; [now exists e|]. split; [exact Hold|].
      intros query Hq.
      destruct (firstTypeConflict_folds d _ _ query news Hq Hplanned) as [[H|H] _];
        congruence.
    + rewrite (PutFile_insert _ _ _ _ _ Hc Hcheck). simpl. fold news.
      assert (Hsnd : snd (UpsertAll Diff.ID putFileConflict (diffTable d) news)
                     = Some ErrConflictFileType).
      { destruct (snd (UpsertAll Diff.ID putFileConflict (diffTable d) news))
          as [e|] eqn:E.
        - apply (UpsertAll_error Diff.ID putFileConflict putFileConflict_key) in E.
          destruct E as (o & n & E). apply putFileConflict_Err in E.
          now destruct E as [-> _].
        - exfalso. revert E.
          apply (UpsertAll_conflict Diff.ID putFileConflict putFileConflict_key
                   _ (diffTable d) new old ErrConflictFileType Hnd Hin Hold Hr). }
      rewrite Hsnd. split; [now eexists|]. split; [exact Heach | reflexivity].
  - intros Hcompat query Hq Hfolds.
    assert (Hcheck : firstTypeConflict d news = None).
    { apply (firstTypeConflict_folds d _ _ query news Hq Hplanned). exact Hfolds. }
    rewrite (PutFile_insert _ _ _ _ _ Hc Hcheck). simpl. fold news.
    assert (Hr : putFileConflict old new
                 = Ok (Diff.mk (Diff.ID old) (Diff.Repo old) (Diff.Delete old)
                               (Diff.CommitID old) (Diff.Path old)
                               (Diff.BlockRefs old ++ Diff.BlockRefs new)
                               (Diff.FileType new) (Diff.Size old + Diff.Size new)
                               (Diff.BranchClocks old) (Diff.Modified new))).
    { unfold putFileConflict.
      destruct (FileType_eqb_spec (Diff.FileType old) FileType_NONE);
        [reflexivity|].
      destruct (FileType_eqb_spec (Diff.FileType old) (Diff.FileType new));
        [reflexivity | tauto]. }
    rewrite Hr in Heach. eexists. split; [exact Heach|]. now repeat split.
Qed.

Lemma PutFile_merges_or_conflicts_witness :
  (exists stored,
      Get Diff.ID
          (diffTable (fst (PutFile exampleDB secondPut (Ok secondRefs) (fun _ => 6))))
          "c1:/a/b" = Some stored
      /\ Diff.BlockRefs stored = [BlockRef.mk "h1" 0 3; BlockRef.mk "h2" 3 7]
      /\ Diff.Size stored = 7
      /\ Diff.FileType stored = FileType_FILE
      /\ Diff.Modified stored = Some 6)
  /\ snd (PutFile exampleDB (pfs.mkFile (pfs.mkCommit "r" "c1") "/a/b/c")
                  (Ok secondRefs) (fun _ => 6))
     = Some ErrConflictFileType
  /\ Get Diff.ID
         (diffTable (fst (PutFile exampleDB
                                  (pfs.mkFile (pfs.mkCommit "r" "c1") "/a/b/c")
                                  (Ok secondRefs) (fun _ => 6))))
         "c1:/a/b"
     = Some (fileDiff commit1 "/a/b" [BlockRef.mk "h1" 0 3] 3 4).
Proof.
  split.
  - destruct (proj2 (PutFile_merges_or_conflicts exampleDB secondPut secondRefs
                       (fun _ => 6) commit1
                       (fileDiff commit1 "/a/b" secondRefs 4 6)
                       (fileDiff commit1 "/a/b" [BlockRef.mk "h1" 0 3] 3 4)
                       eq_refl (or_intror (or_introl eq_refl)) eq_refl)
                (or_intror eq_refl) [[("master", 1)]; [("master", 0)]] eq_refl)
      as (stored & Hg & Hb & Hs & Ht & Hm & _).
    + intros planned folded [<-|[<-|[]]] Hf; vm_compute in Hf; injection Hf as <-;
        now right.
    + exists stored. repeat split; assumption.
  - destruct (proj1 (PutFile_merges_or_conflicts exampleDB
                       (pfs.mkFile (pfs.mkCommit "r" "c1") "/a/b/c") secondRefs
                       (fun _ => 6) commit1
                       (dirDiff commit1 "/a/b" 6)
                       (fileDiff commit1 "/a/b" [BlockRef.mk "h1" 0 3] 3 4)
                       eq_refl (or_intror (or_introl eq_refl)) eq_refl))
      as (_ & Hold & Herr); [discriminate | discriminate |].
    split; [exact (Herr [[("master", 1)]; [("master", 0)]] eq_refl) | exact Hold].
Defined.

(** X26. [PutFile] checks the types before it writes.  If the clock
    interval of the commit is not found, [PutFile] returns that error.  If
    the diffs stored for the path, or for one of its prefixes, fold to a
    type that is neither NONE nor the one planned there (FILE for the
    path, DIR for a prefix), [PutFile] returns the file type conflict.
    Either way the database is unchanged. *)
Theorem PutFile_type_check_refuses (d : DB) (f : pfs.File)
  (refs : list BlockRef.t) (now : nat -> Timestamp) (commit : Commit.t) :
  getCommitByAmbiguousID d (pfs.Repo (pfs.FileCommit f))
                         (pfs.ID (pfs.FileCommit f)) = Ok commit ->
  (forall e,
      getIntervalQueryFromCommitRange
        d None (pfs.mkCommit (Commit.Repo commit) (Commit.ID commit)) = Err e ->
      PutFile d f (Ok refs) now = (d, Some e))
  /\ (forall query path typ folded,
         getIntervalQueryFromCommitRange
           d None (pfs.mkCommit (Commit.Repo commit) (Commit.ID commit)) = Ok query ->
         (path = fixPath (pfs.Path f) /\ typ = FileType_FILE)
         \/ (In path (getPrefixes (fixPath (pfs.Path f))) /\ typ = FileType_DIR) ->
         foldDiffs (pathDiffs d (Commit.Repo commit) path query) = Ok folded ->
         Diff.FileType folded <> FileType_NONE ->
         Diff.FileType folded <> typ ->
         PutFile d f (Ok refs) now = (d, Some ErrConflictFileType)).
Proof.
  intros Hc. unfold PutFile. rewrite Hc.
  set (news := putFileDiffs commit (fixPath (pfs.Path f)) refs now).
  assert (Hplanned : forall diff, In diff news ->
                       Diff.Repo diff = Commit.Repo commit
                       /\ Diff.CommitID diff = Commit.ID commit).
  { intros diff Hd. apply putFileDiffs_commit in Hd. now destruct Hd as (? & ? & _). }
  split.
  - intros e Hq.
    assert (Hne : exists x rest, news = x :: rest).
    { unfold news, putFileDiffs.
      destruct (map _ (combine _ (getPrefixes (fixPath (pfs.Path f))))); simpl; eauto. }
    destruct Hne as (x & rest & E).
    destruct (Hplanned x) as [Hr Hi]; [rewrite E; now left|].
    rewrite E. simpl. rewrite Hr, Hi, (checkFileType_query_Err _ _ _ _ _ _ Hq).
    pose proof (query_error _ _ _ Hq) as Hnf.
    destruct e; try reflexivity. exfalso. eapply Hnf. reflexivity.
  - intros query path typ folded Hq Hp Hf Hnone Htyp.
    destruct (putFileDiffs_planned commit (fixPath (pfs.Path f)) refs now path typ Hp)
      as (new & Hin & Hpath & Hty).
    destruct (firstTypeConflict_folds d _ _ query news Hq Hplanned) as [[H|H] Hiff].
    + exfalso. rewrite <- Hpath in Hf.
      destruct (proj1 Hiff H new folded Hin Hf); congruence.
    + now rewrite H.
Qed.

Lemma PutFile_type_check_refuses_witness :
  PutFile exampleDB (pfs.mkFile (pfs.mkCommit "r" "master/1") "/a/b/c")
          (Ok secondRefs) (fun _ => 6)
  = (exampleDB, Some ErrConflictFileType).
Proof.
  apply (proj2 (PutFile_type_check_refuses exampleDB
                  (pfs.mkFile (pfs.mkCommit "r" "master/1") "/a/b/c") secondRefs
                  (fun _ => 6) commit1 eq_refl)
               [[("master", 1)]; [("master", 0)]] "/a/b" FileType_DIR
               (Diff.mk "" "" false "c1" "/a/b"
                        [BlockRef.mk "h0" 0 2; BlockRef.mk "h1" 0 3]
                        FileType_FILE 5 [] (Some 4))).
  - reflexivity.
  - right. split; [vm_compute; tauto | reflexivity].
  - vm_compute. reflexivity.
  - discriminate.
  - discriminate.
Defined.



(** * Prefixes and ancestors *)

Lemma append_assoc_string (a b c : string) : (a ++ b) ++ c = a ++ (b ++ c).
Proof. induction a as [|x a IH]; simpl; [reflexivity | now rewrite IH]. Qed.

Lemma concat_slash_snoc (l : list string) (x : string) :
  l <> [] -> String.concat "/" (l ++ [x]) = String.concat "/" l ++ "/" ++ x.
Proof.
  induction l as [|a l IH]; [contradiction|]. intros _.
  destruct l as [|b l]; [reflexivity|].
  change (String.concat "/" ((a :: b :: l) ++ [x]))
    with (a ++ "/" ++ String.concat "/" ((b :: l) ++ [x])).
  rewrite IH by discriminate.
  change (String.concat "/" (a :: b :: l)) with (a ++ "/" ++ String.concat "/" (b :: l)).
  now rewrite !append_assoc_string.
Qed.

(** The prefixes built from parts none of which is empty: the [k]-th one is
    the first [k] parts joined by slashes after what was there before. *)
Lemma prefixesFrom_joined (parts : list string) :
  forall done,
    forallb nonEmptyPart parts = true ->
    prefixesFrom (String.concat "/" ("" :: done)) parts
    = map (fun k => String.concat "/" ("" :: done ++ firstn k parts))
          (seq 1 (List.length parts)).
Proof.
  induction parts as [|part parts IH]; intros done Hall; [reflexivity|].
  simpl in Hall. apply andb_prop in Hall. destruct Hall as [Hp Hall].
  unfold nonEmptyPart in Hp. apply negb_true_iff in Hp.
  cbn [prefixesFrom]. rewrite Hp.
  assert (Hstep : String.concat "/" ("" :: done) ++ "/" ++ part
                  = String.concat "/" ("" :: done ++ [part])).
  { symmetry. exact (concat_slash_snoc ("" :: done) part ltac:(discriminate)). }
  rewrite Hstep. cbn [List.length seq map]. f_equal.
  rewrite (IH (done ++ [part])%list Hall), <- (seq_shift (List.length parts) 1), map_map.
  apply map_ext. intros k. cbn [firstn]. now rewrite <- app_assoc.
Qed.

Lemma filter_nonEmptyPart_all (parts : list string) :
  forallb nonEmptyPart (filter nonEmptyPart parts) = true.
Proof.
  apply forallb_forall. intros x Hx. apply filter_In in Hx. now destruct Hx.
Qed.

(** X2. [getPrefixes] gives one prefix per non-empty part of the path
    before its last part, each longer than the ones before it.  The [k]-th
    prefix is the first [k] non-empty parts, each after a slash; so each
    prefix is the one before it, a slash and the next non-empty part, and
    empty parts leave no trace. *)
Theorem getPrefixes_nonempty_parts (path : string) :
  List.length (getPrefixes path)
  = List.length (filter nonEmptyPart (removelast (split_slash path)))
  /\ StronglySorted (fun a b => (String.length a < String.length b)%nat)
                    (getPrefixes path)
  /\ getPrefixes path
     = map (fun k =>
              String.concat "/"
                ("" :: firstn k (filter nonEmptyPart (removelast (split_slash path)))))
           (seq 1 (List.length (filter nonEmptyPart (removelast (split_slash path)))))
  /\ forall k part,
      nth_error (filter nonEmptyPart (removelast (split_slash path))) k = Some part ->
      nth_error (getPrefixes path) k
      = Some (match k with
              | O => ""
              | S j => nth j (getPrefixes path) ""
              end ++ "/" ++ part).
Proof.
  assert (Hjoin : getPrefixes path
                  = map (fun k =>
                           String.concat "/"
                             ("" :: firstn k (filter nonEmptyPart
                                                (removelast (split_slash path)))))
                        (seq 1 (List.length
                                  (filter nonEmptyPart
                                     (removelast (split_slash path)))))).
  { unfold getPrefixes. rewrite prefixesFrom_skips_empty.
    exact (prefixesFrom_joined _ [] (filter_nonEmptyPart_all _)). }
  unfold getPrefixes at 1 2. split; [apply prefixesFrom_length|].
  split; [apply prefixesFrom_growing|]. split; [exact Hjoin|].
  rewrite Hjoin. generalize (filter nonEmptyPart (removelast (split_slash path))).
  intros parts k part Hk.
  assert (Hlt : (k < List.length parts)%nat) by (apply nth_error_Some; congruence).
  assert (Hnth : forall j, (j < List.length parts)%nat ->
                   nth_error (map (fun k => String.concat "/" ("" :: firstn k parts))
                                  (seq 1 (List.length parts))) j
                   = Some (String.concat "/" ("" :: firstn (S j) parts))).
  { intros j Hj. rewrite nth_error_map, nth_error_nth' with (d := O)
      by (rewrite length_seq; exact Hj).
    rewrite seq_nth by exact Hj. reflexivity. }
  rewrite (Hnth k Hlt). f_equal.
  assert (Hfirst : firstn (S k) parts = (firstn k parts ++ [part])%list).
  { clear - Hk. revert k Hk. induction parts as [|x parts IH]; intros [|k] Hk;
      simpl in *; try discriminate.
    - now injection Hk as ->.
    - now rewrite <- (IH k Hk). }
  rewrite Hfirst.
  change ("" :: firstn k parts ++ [part])%list
    with (("" :: firstn k parts) ++ [part])%list.
  rewrite (concat_slash_snoc ("" :: firstn k parts) part) by discriminate.
  f_equal. destruct k as [|j]; [reflexivity|].
  rewrite (nth_error_nth _ _ "" (Hnth j ltac:(lia))). reflexivity.
Qed.

Lemma split_slash_concat (l : list string) :
  l <> [] -> Forall (fun part => noSlash part = true) l ->
  split_slash (String.concat "/" l) = l.
Proof.
  induction l as [|x l IH]; [contradiction|]. intros _ Hall.
  inversion Hall as [|? ? Hx Hl]; subst.
  destruct l as [|y l]; [now apply split_slash_noSlash|].
  change (String.concat "/" (x :: y :: l))
    with (x ++ String "/" (String.concat "/" (y :: l))).
  rewrite (split_slash_app _ _ Hx), IH; [reflexivity | discriminate | exact Hl].
Qed.

Lemma firstn_member {A : Type} (n : nat) (l : list A) (x : A) :
  In x (firstn n l) -> In x l.
Proof.
  intros H. rewrite <- (firstn_skipn n l). apply in_or_app. now left.
Qed.

Lemma prefixesFrom_app_In (a b : list string) (x : string) :
  forall prefix,
    In x (prefixesFrom prefix a) -> In x (prefixesFrom prefix (a ++ b)).
Proof.
  induction a as [|part a IH]; intros prefix; simpl; [intros []|].
  destruct (String.eqb part ""); [apply IH|].
  intros [<-|H]; [now left | right; now apply IH].
Qed.

(** A strict ancestor of a path without an empty component is one of the
    prefixes [getPrefixes] builds. *)
Lemma strictAncestors_getPrefixes (rest q : string) :
  In q (strictAncestors (String "/" rest)) ->
  noEmptyComponent q = true ->
  In q (getPrefixes (String "/" rest)).
Proof.
  unfold strictAncestors, getPrefixes, noEmptyComponent.
  destruct (split_slash_parts (String "/" rest)) as (Hall & _ & _).
  change (split_slash (String "/" rest)) with ("" :: split_slash rest) in *.
  destruct (split_slash_parts rest) as (_ & _ & Hne).
  set (ps := split_slash rest) in *.
  intros Hq Hcomp. apply filter_In in Hq. destruct Hq as [Hq Hnonempty].
  apply in_map_iff in Hq. destruct Hq as (i & <- & Hi). apply in_seq in Hi.
  simpl List.length in Hi.
  destruct i as [|j]; [lia|]. cbn [firstn] in *.
  destruct j as [|j]; [discriminate Hnonempty|].
  assert (Hj : (S j < List.length ps)%nat) by lia.
  rewrite split_slash_concat in Hcomp;
    [|discriminate
     |constructor; [reflexivity|]; apply Forall_forall; intros x Hx;
      apply firstn_member in Hx; inversion Hall as [|? ? _ Hps]; subst;
      revert x Hx; now apply Forall_forall].
  cbn [tl] in Hcomp.
  assert (Hlast : removelast ("" :: ps) = "" :: removelast ps) by now destruct ps.
  rewrite Hlast. cbn [prefixesFrom]. rewrite String.eqb_refl.
  assert (Hsplit : removelast ps
                   = (firstn (S j) ps ++ skipn (S j) (removelast ps))%list).
  { rewrite <- (firstn_skipn (S j) (removelast ps)) at 1. f_equal.
    rewrite removelast_firstn_len, firstn_firstn. f_equal. lia. }
  rewrite Hsplit. apply prefixesFrom_app_In.
  pose proof (prefixesFrom_joined _ [] Hcomp) as Hjoin. simpl app in Hjoin.
  change (String.concat "/" [""]) with "" in Hjoin. rewrite Hjoin.
  apply in_map_iff.
  exists (S j). split.
  - f_equal. f_equal. apply firstn_all2. rewrite length_firstn. lia.
  - apply in_seq. rewrite length_firstn. lia.
Qed.

(** ** Directory diffs above a file diff *)

Lemma PutFile_covering (d : DB) (f : pfs.File)
  (refs : list BlockRef.t) (now : nat -> Timestamp) (commit : Commit.t) :
  getCommitByAmbiguousID d (pfs.Repo (pfs.FileCommit f))
                         (pfs.ID (pfs.FileCommit f)) = Ok commit ->
  snd (PutFile d f (Ok refs) now) = None ->
  (exists x,
      diffAt (diffTable (fst (PutFile d f (Ok refs) now)))
             (Commit.ID commit) (fixPath (pfs.Path f)) = Some x
      /\ Diff.FileType x = FileType_FILE)
  /\ (forall q,
         In q (strictAncestors (fixPath (pfs.Path f))) ->
         noEmptyComponent q = true ->
         dirAt (diffTable (fst (PutFile d f (Ok refs) now))) (Commit.ID commit) q)
  /\ (forall c q,
         dirAt (diffTable d) c q ->
         dirAt (diffTable (fst (PutFile d f (Ok refs) now))) c q)
  /\ (coveredIn (diffTable d) (Commit.ID commit) ->
      coveredIn (diffTable (fst (PutFile d f (Ok refs) now))) (Commit.ID commit)).
Proof.
  intros Hc Hok.
  pose proof (PutFile_success _ _ _ _ _ Hc Hok) as Hcheck.
  rewrite (PutFile_insert _ _ _ _ _ Hc Hcheck) in *. simpl in *.
  destruct (fixPath_slash (pfs.Path f)) as [rest Hrest]. rewrite Hrest in *.
  set (news := putFileDiffs commit (String "/" rest) refs now) in *.
  pose proof (putFileDiffs_NoDup commit rest refs now) as Hnd. fold news in Hnd.
  destruct (UpsertAll_each Diff.ID putFileConflict putFileConflict_key news
              (diffTable d) Hnd) as [Heach Hother].
  set (t' := fst (UpsertAll Diff.ID putFileConflict (diffTable d) news)) in *.
  assert (Hstored : forall new, In new news ->
            exists x, Get Diff.ID t' (Diff.ID new) = Some x
                      /\ Diff.FileType x = Diff.FileType new).
  { intros new Hin. rewrite (Heach new Hin).
    destruct (Get Diff.ID (diffTable d) (Diff.ID new)) as [old|] eqn:G;
      [|now exists new].
    destruct (putFileConflict old new) as [m|e] eqn:R.
    - exists m. split; [reflexivity|]. now apply putFileConflict_Ok in R.
    - exfalso. revert Hok.
      apply (UpsertAll_conflict Diff.ID putFileConflict putFileConflict_key
               news (diffTable d) new old e Hnd Hin G R). }
  assert (Hdir : forall k y, Get Diff.ID (diffTable d) k = Some y ->
                      Diff.FileType y = FileType_DIR ->
                      exists x, Get Diff.ID t' k = Some x
                                /\ Diff.FileType x = FileType_DIR).
  { intros k y Hy Hty.
    destruct (in_dec string_dec k (map Diff.ID news)) as [Hk|Hk].
    - apply in_map_iff in Hk. destruct Hk as (new & <- & Hin).
      destruct (Hstored new Hin) as (x & Hx & Hxt). exists x. split; [exact Hx|].
      rewrite Hxt. specialize (Heach new Hin). rewrite Hy in Heach.
      destruct (putFileConflict y new) as [m|e] eqn:R.
      + apply putFileConflict_Ok in R. destruct R as [[R|R] _]; congruence.
      + exfalso. revert Hok.
        apply (UpsertAll_conflict Diff.ID putFileConflict putFileConflict_key
                 news (diffTable d) new y e Hnd Hin Hy R).
    - exists y. now rewrite (Hother k Hk). }
  assert (Hfile : exists x, diffAt t' (Commit.ID commit) (String "/" rest) = Some x
                            /\ Diff.FileType x = FileType_FILE).
  { destruct (putFileDiffs_file commit (String "/" rest) refs now)
      as (new & Hin & Hid & Hty).
    destruct (Hstored new Hin) as (x & Hx & Hxt). exists x.
    unfold diffAt. rewrite <- Hid. split; [exact Hx | congruence]. }
  assert (Hanc : forall q, In q (strictAncestors (String "/" rest)) ->
                           noEmptyComponent q = true ->
                           dirAt t' (Commit.ID commit) q).
  { intros q Hq Hne. apply strictAncestors_getPrefixes in Hq; [|exact Hne].
    destruct (putFileDiffs_dir commit rest refs now q Hq) as (dir & Hdin & Hdid & Hdt).
    destruct (Hstored dir Hdin) as (y & Hy & Hyt). exists y.
    unfold diffAt. rewrite <- Hdid. split; [exact Hy | congruence]. }
  assert (Hkeep : forall c q, dirAt (diffTable d) c q -> dirAt t' c q).
  { intros c q (y & Hy & Hyt). exact (Hdir _ y Hy Hyt). }
  split; [exact Hfile|]. split; [exact Hanc|]. split; [exact Hkeep|].
  intros Hinv p x Hx Hty q Hq Hne. unfold diffAt in Hx.
  destruct (in_dec string_dec (getDiffID (Commit.ID commit) p) (map Diff.ID news))
    as [Hk|Hk].
  - apply in_map_iff in Hk. destruct Hk as (new & Hid & Hin).
    destruct (Hstored new Hin) as (x' & Hx' & Hxt'). rewrite Hid, Hx in Hx'.
    injection Hx' as <-.
    destruct (putFileDiffs_In _ _ _ _ _ Hin) as [[Hd _]|[_ Hfid]]; [congruence|].
    rewrite Hfid in Hid. apply getDiffID_path in Hid. subst p.
    now apply Hanc.
  - rewrite (Hother _ Hk) in Hx. apply Hkeep. exact (Hinv p x Hx Hty q Hq Hne).
Qed.


Lemma getCommitByAmbiguousID_commitTable (d d' : DB) (repo commitID : string) :
  commitTable d' = commitTable d ->
  getCommitByAmbiguousID d' repo commitID = getCommitByAmbiguousID d repo commitID.
Proof.
  intros H.
  unfold getCommitByAmbiguousID, getHeadOfBranch, getCommitByIndex, commitsOfBranch.
  rewrite H. reflexivity.
Qed.

Lemma PutFile_commitTable (d : DB) (f : pfs.File)
  (putBlock : result (list BlockRef.t)) (now : nat -> Timestamp) :
  commitTable (fst (PutFile d f putBlock now)) = commitTable d.
Proof.
  unfold PutFile.
  destruct (getCommitByAmbiguousID d _ _); [|reflexivity].
  destruct putBlock; [|reflexivity].
  destruct (firstTypeConflict d _); [reflexivity|].
  destruct (UpsertAll _ _ _ _). reflexivity.
Qed.

Lemma putRun_failed (puts : list (pfs.File * list BlockRef.t * (nat -> Timestamp)))
  (d : DB) (e : error) :
  fold_left putRun_step puts (d, Some e) = (d, Some e).
Proof. induction puts as [|put puts IH]; [reflexivity | exact IH]. Qed.

Lemma putRun_covered (ref : pfs.Commit) (commit : Commit.t)
  (puts : list (pfs.File * list BlockRef.t * (nat -> Timestamp))) :
  forall d0 d,
    getCommitByAmbiguousID d0 (pfs.Repo ref) (pfs.ID ref) = Ok commit ->
    Forall (fun put => pfs.FileCommit (fst (fst put)) = ref) puts ->
    coveredIn (diffTable d0) (Commit.ID commit) ->
    putRun d0 puts = (d, None) ->
    coveredIn (diffTable d) (Commit.ID commit)
    /\ commitTable d = commitTable d0.
Proof.
  induction puts as [|[[f refs] now] puts IH]; intros d0 d Hc Hall Hcov Hrun.
  - injection Hrun as <-. now split.
  - inversion Hall as [|? ? Hf Hrest]. clear Hall. simpl in Hf. subst x l.
    unfold putRun in Hrun. simpl in Hrun.
    destruct (PutFile d0 f (Ok refs) now) as [d1 [e|]] eqn:P.
    + rewrite putRun_failed in Hrun. discriminate.
    + assert (Hd1 : d1 = fst (PutFile d0 f (Ok refs) now)) by now rewrite P.
      assert (Ht : commitTable d1 = commitTable d0)
        by (rewrite Hd1; apply PutFile_commitTable).
      destruct (IH d1 d) as [Hcov' Ht'].
      * rewrite (getCommitByAmbiguousID_commitTable d0 d1 _ _ Ht). exact Hc.
      * exact Hrest.
      * rewrite Hd1. rewrite <- Hf in Hc.
        apply (PutFile_covering d0 f refs now commit Hc); [now rewrite P | exact Hcov].
      * exact Hrun.
      * split; [exact Hcov' | congruence].
Qed.

(** C9 as the driver has it.  After a [PutFile] that succeeds, the commit
    holds a FILE diff at the path and a DIR diff at every strict ancestor
    of the path that has no empty component; a DIR diff of any commit is
    still one.  So the commit keeps the property that every FILE diff has
    a DIR diff at each strict ancestor without an empty component, and has
    it after every run of successful [PutFile] calls that began without a
    diff in the commit. *)
Theorem PutFile_keeps_prefixDirs (d : DB) (f : pfs.File)
  (refs : list BlockRef.t) (now : nat -> Timestamp) (commit : Commit.t) :
  getCommitByAmbiguousID d (pfs.Repo (pfs.FileCommit f))
                         (pfs.ID (pfs.FileCommit f)) = Ok commit ->
  snd (PutFile d f (Ok refs) now) = None ->
  (exists x,
      diffAt (diffTable (fst (PutFile d f (Ok refs) now)))
             (Commit.ID commit) (fixPath (pfs.Path f)) = Some x
      /\ Diff.FileType x = FileType_FILE)
  /\ (forall q,
         In q (strictAncestors (fixPath (pfs.Path f))) ->
         noEmptyComponent q = true ->
         dirAt (diffTable (fst (PutFile d f (Ok refs) now))) (Commit.ID commit) q)
  /\ (forall c q,
         dirAt (diffTable d) c q ->
         dirAt (diffTable (fst (PutFile d f (Ok refs) now))) c q)
  /\ (coveredIn (diffTable d) (Commit.ID commit) ->
      coveredIn (diffTable (fst (PutFile d f (Ok refs) now))) (Commit.ID commit))
  /\ (forall d0 puts,
         (forall p, diffAt (diffTable d0) (Commit.ID commit) p = None) ->
         Forall (fun put => pfs.FileCommit (fst (fst put)) = pfs.FileCommit f) puts ->
         putRun d0 puts = (d, None) ->
         coveredIn (diffTable (fst (PutFile d f (Ok refs) now))) (Commit.ID commit)).
Proof.
  intros Hc Hok.
  destruct (PutFile_covering d f refs now commit Hc Hok) as (A & B & C & D).
  split; [exact A|]. split; [exact B|]. split; [exact C|]. split; [exact D|].
  intros d0 puts Hempty Hall Hrun. apply D.
  assert (Ht : commitTable d = commitTable d0).
  { clear - Hrun. revert d0 Hrun. unfold putRun.
    induction puts as [|[[f0 refs0] now0] puts IH]; intros d0 Hrun.
    - now injection Hrun as <-.
    - simpl in Hrun.
      destruct (PutFile d0 f0 (Ok refs0) now0) as [d1 [e|]] eqn:P.
      + rewrite putRun_failed in Hrun. discriminate.
      + rewrite (IH d1 Hrun).
        replace d1 with (fst (PutFile d0 f0 (Ok refs0) now0)) by now rewrite P.
        apply PutFile_commitTable. }
  apply (putRun_covered (pfs.FileCommit f) commit puts d0 d).
  - rewrite <- (getCommitByAmbiguousID_commitTable d0 d _ _ Ht). exact Hc.
  - exact Hall.
  - intros p x Hx. now rewrite Hempty in Hx.
  - exact Hrun.
Qed.

Lemma PutFile_keeps_prefixDirs_witness :
  (exists x,
      diffAt (diffTable (fst (PutFile emptyDiffsDB deepFile (Ok secondRefs) (fun _ => 6))))
             "c1" "/a///b" = Some x
      /\ Diff.FileType x = FileType_FILE)
  /\ dirAt (diffTable (fst (PutFile emptyDiffsDB deepFile (Ok secondRefs) (fun _ => 6))))
           "c1" "/a"
  /\ coveredIn (diffTable (fst (PutFile emptyDiffsDB deepFile (Ok secondRefs) (fun _ => 6))))
               "c1".
Proof.
  assert (Hok : snd (PutFile emptyDiffsDB deepFile (Ok secondRefs) (fun _ => 6)) = None)
    by (vm_compute; reflexivity).
  destruct (PutFile_keeps_prefixDirs emptyDiffsDB deepFile secondRefs (fun _ => 6)
              commit1 eq_refl Hok) as (Hfile & Hanc & _ & _ & Hrun).
  split; [exact Hfile|]. split.
  - apply Hanc; [vm_compute; tauto | reflexivity].
  - apply (Hrun emptyDiffsDB []); [reflexivity | constructor | reflexivity].
Defined.

(** C9 fails: [/a///b] put into the open commit of the small repository
    leaves a FILE diff whose strict ancestor [/a//] holds no DIR diff; the
    only DIR diff of the table is the one at [/a]. *)
Lemma PutFile_skips_empty_parts :
  snd (PutFile emptyDiffsDB deepFile (Ok secondRefs) (fun _ => 6)) = None
  /\ In "/a//" (strictAncestors "/a///b")
  /\ (forall x,
         In x (diffTable (fst (PutFile emptyDiffsDB deepFile (Ok secondRefs)
                                       (fun _ => 6)))) ->
         Diff.FileType x = FileType_DIR -> Diff.Path x = "/a")
  /\ ~ ancestorDirs (diffTable (fst (PutFile emptyDiffsDB deepFile (Ok secondRefs)
                                             (fun _ => 6)))).
Proof.
  split; [vm_compute; reflexivity|].
  split; [vm_compute; tauto|].
  split.
  - intros x Hin. vm_compute in Hin. destruct Hin as [<-|[<-|[]]];
      [reflexivity | discriminate].
  - intros H.
    destruct (H "c1" "/a///b"
                (fileDiff commit1 "/a///b" secondRefs 4 6)) with (q := "/a//")
      as (y & Hy & _); [vm_compute; reflexivity | reflexivity | vm_compute; tauto |].
    vm_compute in Hy. discriminate Hy.
Qed.

(** * Deleting, and the children of a directory *)




(** ** The children of a directory *)

Lemma filter_paths_NoDup (keep : Diff.t -> bool) (diffs : list Diff.t) :
  NoDup (map Diff.Path diffs) -> NoDup (map Diff.Path (filter keep diffs)).
Proof.
  intros Hnd. induction diffs as [|x diffs IH]; [constructor|].
  apply NoDup_cons_iff in Hnd. destruct Hnd as [Hx Hrest]. simpl.
  destruct (keep x); [|now apply IH].
  simpl. apply NoDup_cons; [|now apply IH].
  rewrite in_map_iff. intros (y & Ey & Hy). apply filter_In in Hy.
  apply Hx. rewrite <- Ey. apply in_map. now destruct Hy.
Qed.

Lemma String_leb_total (a b : string) : String.leb a b = true \/ String.leb b a = true.
Proof.
  unfold String.leb. rewrite (String.compare_antisym b a).
  destruct (String.compare a b); simpl; auto.
Qed.

Lemma EqJoin_parent_In (keys : list PathKey) (table : list Diff.t) (x : Diff.t) :
  In x (EqJoin DiffParentIndex_keys keys table)
  <-> In x table
      /\ exists bc, In bc (Diff.BranchClocks x)
                    /\ In (Diff.Repo x, parentOf (Diff.Path x), BranchClockToArray bc) keys.
Proof.
  unfold EqJoin, DiffParentIndex_keys. rewrite in_flat_map. split.
  - intros (k & Hk & H). apply filter_In in H. destruct H as [Hin H].
    apply existsb_exists in H. destruct H as (k' & Hk' & E).
    apply PathKey_eqb_eq in E. subst k'.
    apply in_map_iff in Hk'. destruct Hk' as (bc & E & Hbc). subst k.
    split; [exact Hin|]. now exists bc.
  - intros (Hin & bc & Hbc & Hk). eexists. split; [exact Hk|].
    apply filter_In. split; [exact Hin|]. apply existsb_exists.
    eexists. split; [|now apply PathKey_eqb_eq]. apply in_map_iff. now exists bc.
Qed.

Lemma ConcatMap_folds (joined : list Diff.t) (paths : list string) :
  forallb hasBranchClock joined = true ->
  exists reductions,
    ConcatMap (fun path =>
                 r <- foldDiffs (filter (fun diff => String.eqb (Diff.Path diff) path)
                                        joined) ;;
                 Ok [r])
              paths = Ok reductions
    /\ Forall2 (fun path r =>
                  foldDiffs (filter (fun diff => String.eqb (Diff.Path diff) path)
                                    joined) = Ok r)
               paths reductions.
Proof.
  intros Hbc. induction paths as [|path paths (reductions & IH & HF)]; simpl.
  - exists []. split; [reflexivity | constructor].
  - destruct (foldDiffs_Ok (filter (fun diff => String.eqb (Diff.Path diff) path) joined))
      as [r Hr].
    { apply forallb_forall. intros x Hx. apply filter_In in Hx.
      exact (proj1 (forallb_forall _ _) Hbc x (proj1 Hx)). }
    rewrite Hr, IH. simpl. exists (r :: reductions).
    split; [reflexivity | now constructor].
Qed.

Lemma fold_foldStep_Path (l : list Diff.t) (last : Diff.t) :
  Diff.Path (fold_left foldStep (l ++ [last]) Diff.zero) = Diff.Path last.
Proof.
  rewrite fold_left_app. simpl. unfold foldStep. now destruct (Diff.Delete last).
Qed.

(** X22. The children [getChildren] returns for a directory.  An error of
    the clock interval is returned; otherwise there is a result.  A diff
    is among the children exactly when it is not of type NONE and is the
    fold, in ascending clock order from the zero diff, of the diffs of one
    path that the parent index lists under the directory within the
    interval: block refs, size, type and commit are those of the fold.
    No path comes twice, and the children are ordered by path. *)
Theorem getChildren_children (d : DB) (repo parent : string)
  (fromCommit : option pfs.Commit) (toCommit : pfs.Commit) :
  (forall e,
      getIntervalQueryFromCommitRange d fromCommit toCommit = Err e ->
      getChildren d repo parent fromCommit toCommit = Err e)
  /\ (forall query,
         getIntervalQueryFromCommitRange d fromCommit toCommit = Ok query ->
         exists children,
           getChildren d repo parent fromCommit toCommit = Ok children
           /\ NoDup (map Diff.Path children)
           /\ Sorted (fun a b => String.leb (Diff.Path a) (Diff.Path b) = true) children
           /\ (forall child,
                  In child children <->
                  Diff.FileType child <> FileType_NONE
                  /\ exists x ordered,
                      In x (diffTable d)
                      /\ Diff.Repo x = repo
                      /\ parentOf (Diff.Path x) = parent
                      /\ (exists bc, In bc (Diff.BranchClocks x)
                                     /\ In (BranchClockToArray bc) query)
                      /\ Diff.Path x = Diff.Path child
                      /\ orderedDiffs
                           (filter (fun diff => String.eqb (Diff.Path diff) (Diff.Path x))
                                   (EqJoin DiffParentIndex_keys
                                           (map (fun clocks => (repo, parent, clocks)) query)
                                           (diffTable d)))
                         = Ok ordered
                      /\ Permutation
                           ordered
                           (filter (fun diff => String.eqb (Diff.Path diff) (Diff.Path x))
                                   (EqJoin DiffParentIndex_keys
                                           (map (fun clocks => (repo, parent, clocks)) query)
                                           (diffTable d)))
                      /\ StronglySorted clockLe ordered
                      /\ child = fold_left foldStep ordered Diff.zero)).
Proof.
  unfold getChildren. split.
  - intros e ->. reflexivity.
  - intros query ->. simpl.
    set (joined := EqJoin DiffParentIndex_keys _ (diffTable d)).
    assert (Hbc : forallb hasBranchClock joined = true).
    { apply forallb_forall. intros x Hx. apply EqJoin_parent_In in Hx.
      destruct Hx as (_ & bc & Hb & _). unfold hasBranchClock.
      now destruct (Diff.BranchClocks x). }
    assert (Hj : forall x, In x joined <->
                   In x (diffTable d) /\ Diff.Repo x = repo
                   /\ parentOf (Diff.Path x) = parent
                   /\ exists bc, In bc (Diff.BranchClocks x)
                                 /\ In (BranchClockToArray bc) query).
    { intros x. unfold joined. rewrite EqJoin_parent_In. split.
      - intros (Hin & bc & Hb & Hk). apply in_map_iff in Hk.
        destruct Hk as (clocks & E & Hq). injection E as E1 E2 E3.
        split; [exact Hin|]. split; [now symmetry|]. split; [now symmetry|].
        exists bc. split; [exact Hb | now rewrite <- E3].
      - intros (Hin & Hr & Hp & bc & Hb & Hq). split; [exact Hin|]. exists bc.
        split; [exact Hb|]. apply in_map_iff. exists (BranchClockToArray bc).
        split; [now rewrite Hr, Hp | exact Hq]. }
    set (paths := sortBy String.leb (nodup string_dec (map Diff.Path joined))).
    assert (Hpaths : forall p, In p paths <-> In p (map Diff.Path joined)).
    { intros p. unfold paths. split; intros H.
      - apply (Permutation_in _ (sortBy_Permutation String.leb _)) in H.
        now apply nodup_In in H.
      - apply (Permutation_in _ (Permutation_sym (sortBy_Permutation String.leb _))).
        now apply nodup_In. }
    assert (Hndp : NoDup paths).
    { apply (Permutation_NoDup (l := nodup string_dec (map Diff.Path joined))).
      - symmetry. apply sortBy_Permutation.
      - apply NoDup_nodup. }
    destruct (ConcatMap_folds joined paths Hbc) as (reductions & -> & HF). simpl.
    eexists. split; [reflexivity|].
    assert (Hred : forall r, In r reductions <->
                     exists x ordered,
                       In x joined /\ Diff.Path x = Diff.Path r
                       /\ orderedDiffs
                            (filter (fun diff => String.eqb (Diff.Path diff) (Diff.Path x))
                                    joined) = Ok ordered
                       /\ r = fold_left foldStep ordered Diff.zero).
    { assert (Hgroup : forall p r,
                In p (map Diff.Path joined) ->
                foldDiffs (filter (fun diff => String.eqb (Diff.Path diff) p) joined) = Ok r ->
                exists x ordered,
                  In x joined /\ Diff.Path x = p /\ Diff.Path r = p
                  /\ orderedDiffs (filter (fun diff => String.eqb (Diff.Path diff) p) joined)
                     = Ok ordered
                  /\ r = fold_left foldStep ordered Diff.zero).
      { intros p r Hp Hr. apply in_map_iff in Hp. destruct Hp as (x & Ex & Hx).
        unfold foldDiffs in Hr.
        destruct (orderedDiffs _) as [ordered|e] eqn:O; [|discriminate].
        simpl in Hr. injection Hr as <-. exists x, ordered.
        split; [exact Hx|]. split; [exact Ex|]. split; [|now split].
        destruct (orderedDiffs_sorted _ _ O) as [_ Hperm].
        destruct (exists_last (l := ordered)) as (l & latest & ->).
        { intros ->. apply Permutation_nil in Hperm.
          assert (Hxin : In x (filter (fun diff => String.eqb (Diff.Path diff) p) joined))
            by (apply filter_In; split; [exact Hx | now apply String.eqb_eq]).
          rewrite Hperm in Hxin. contradiction. }
        rewrite fold_foldStep_Path.
        assert (Hl : In latest (filter (fun diff => String.eqb (Diff.Path diff) p) joined)).
        { apply (Permutation_in _ Hperm), in_or_app. right. now left. }
        apply filter_In in Hl. now apply String.eqb_eq. }
      intros r. split.
      - intros Hr. clear Hndp.
        assert (Hall : forall p, In p paths -> In p (map Diff.Path joined))
          by (intros p; apply Hpaths).
        clear Hpaths. induction HF as [|p r' ps rs Hf HF IH]; [contradiction|].
        destruct Hr as [<-|Hr].
        + destruct (Hgroup p r' (Hall p (or_introl eq_refl)) Hf)
            as (x & ordered & Hx & Ex & Er & O & E).
          exists x, ordered. split; [exact Hx|]. split; [congruence|].
          split; [now rewrite Ex | exact E].
        + apply IH; [exact Hr|]. intros p' Hp'. apply Hall. now right.
      - intros (x & ordered & Hx & Ex & O & E).
        assert (Hp : In (Diff.Path x) paths)
          by (apply Hpaths; now apply in_map).
        clear Hpaths Hndp. induction HF as [|p r' ps rs Hf HF IH]; [contradiction|].
        destruct Hp as [->|Hp]; [left | right; now apply IH].
        unfold foldDiffs in Hf. rewrite O in Hf. simpl in Hf. injection Hf as <-.
        now symmetry. }
    assert (Hrp : map Diff.Path reductions = paths).
    { assert (Hall : forall p, In p paths -> In p (map Diff.Path joined))
        by (intros p; apply Hpaths).
      clear Hpaths Hndp Hred. induction HF as [|p r ps rs Hf HF IH]; [reflexivity|].
      simpl. rewrite IH by (intros p' Hp'; apply Hall; now right). f_equal.
      assert (Hp : In p (map Diff.Path joined)) by (apply Hall; now left).
      apply in_map_iff in Hp. destruct Hp as (x & Ex & Hx).
      apply foldDiffs_latest in Hf.
      - destruct Hf as (latest & Hin & _ & _ & _ & -> & _).
        apply filter_In in Hin. now apply String.eqb_eq.
      - intros Hnil.
        assert (Hxin : In x (filter (fun diff => String.eqb (Diff.Path diff) p) joined))
          by (apply filter_In; split; [exact Hx | now apply String.eqb_eq]).
        rewrite Hnil in Hxin. contradiction. }
    split; [|split].
    + apply (Permutation_NoDup
               (l := map Diff.Path
                         (filter (fun diff =>
                                    negb (FileType_eqb (Diff.FileType diff)
                                                       FileType_NONE))
                                 reductions))).
      * apply Permutation_map. symmetry. apply sortBy_Permutation.
      * apply filter_paths_NoDup. now rewrite Hrp.
    + apply (sortBy_Sorted pathLeb). intros a b. apply String_leb_total.
    + intros child. split.
      * intros Hin.
        apply (Permutation_in _ (sortBy_Permutation pathLeb _)) in Hin.
        apply filter_In in Hin. destruct Hin as [Hin Hne]. split.
        -- intros E. rewrite E in Hne. discriminate.
        -- apply Hred in Hin. destruct Hin as (x & ordered & Hx & Ex & O & E).
           exists x, ordered. apply Hj in Hx.
           destruct Hx as (Hx & Hr & Hp & Hq).
           destruct (orderedDiffs_sorted _ _ O) as [Hs Hperm].
           repeat (split; [assumption|]). exact E.
      * intros (Hne & x & ordered & Hx & Hr & Hp & Hq & Ex & O & _ & _ & E).
        apply (Permutation_in _ (Permutation_sym (sortBy_Permutation pathLeb _))).
        apply filter_In. split.
        -- apply Hred. exists x, ordered. split; [|now split].
           apply Hj. now repeat split.
        -- destruct (Diff.FileType child); try reflexivity. now contradiction Hne.
Qed.

Lemma getChildren_children_witness :
  exists child,
    getChildren exampleDB "r" "/a" None (pfs.mkCommit "r" "master/1") = Ok [child]
    /\ Diff.Path child = "/a/b"
    /\ Diff.FileType child = FileType_FILE
    /\ Diff.BlockRefs child = [BlockRef.mk "h0" 0 2; BlockRef.mk "h1" 0 3]
    /\ Diff.Size child = 5%Z
    /\ exists ordered,
        StronglySorted clockLe ordered
        /\ child = fold_left foldStep ordered Diff.zero.
Proof.
  destruct (proj2 (getChildren_children exampleDB "r" "/a" None
                     (pfs.mkCommit "r" "master/1")) _ eq_refl)
    as (children & Hc & _ & _ & Hall).
  vm_compute in Hc. injection Hc as Hc. subst children.
  eexists. split; [vm_compute; reflexivity|].
  repeat (split; [reflexivity|]).
  destruct (proj1 (Hall _) (or_introl eq_refl))
    as (_ & x & ordered & _ & _ & _ & _ & _ & _ & _ & Hs & E).
  exists ordered. split; [exact Hs | exact E].
Defined.

(** * Listing the repos *)

(** X7. A repo that has been created is there to inspect: for a valid name
    that no repo bears, [CreateRepo] returns no error, [InspectRepo] of the
    name then gives the creation time and a size of zero, the other names
    inspect as before, and [ListRepo] lists the new repo and the ones it
    listed before, in whatever order the table is run. *)
Theorem CreateRepo_then_InspectRepo (scan : list Repo.t -> list Repo.t) (d : DB)
  (repo : string) (created : option Timestamp) :
  (forall t, Permutation (scan t) t) ->
  validateRepoName repo = true ->
  InspectRepo d repo = Err ErrEmptyResult ->
  snd (CreateRepo d repo created) = None
  /\ InspectRepo (fst (CreateRepo d repo created)) repo
     = Ok (mkRepoInfo repo created 0)
  /\ (forall other, other <> repo ->
                    InspectRepo (fst (CreateRepo d repo created)) other
                    = InspectRepo d other)
  /\ Permutation (ListRepo scan (fst (CreateRepo d repo created)))
                 (mkRepoInfo repo created 0 :: ListRepo scan d).
Proof.
  intros Hscan Hvalid Hnone. unfold CreateRepo, Insert. rewrite Hvalid. simpl.
  unfold InspectRepo in *.
  destruct (Get Repo.Name (repoTable d) repo) eqn:G; [discriminate|]. simpl.
  split; [reflexivity|]. split; [|split].
  - rewrite Get_app_new, G. simpl. now rewrite String.eqb_refl.
  - intros other Hne. rewrite Get_app_new. simpl.
    destruct (Get Repo.Name (repoTable d) other); [reflexivity|].
    destruct (String.eqb_spec repo other); [congruence | reflexivity].
  - unfold ListRepo.
    change (mkRepoInfo repo created 0 :: map rawRepoToRepoInfo (scan (repoTable d)))
      with (map rawRepoToRepoInfo (Repo.mk repo created 0 :: scan (repoTable d))).
    apply Permutation_map. simpl.
    eapply Permutation_trans; [apply Hscan|].
    eapply Permutation_trans; [apply Permutation_app_comm|]. simpl.
    constructor. symmetry. apply Hscan.
Qed.

Lemma CreateRepo_then_InspectRepo_witness :
  snd (CreateRepo exampleDB "logs_2" (Some 8)) = None
  /\ InspectRepo (fst (CreateRepo exampleDB "logs_2" (Some 8))) "logs_2"
     = Ok (mkRepoInfo "logs_2" (Some 8) 0)
  /\ InspectRepo (fst (CreateRepo exampleDB "logs_2" (Some 8))) "r"
     = Ok (mkRepoInfo "r" (Some 0) 2)
  /\ Permutation (ListRepo (@rev Repo.t) (fst (CreateRepo exampleDB "logs_2" (Some 8))))
                 [mkRepoInfo "logs_2" (Some 8) 0; mkRepoInfo "r" (Some 0) 2].
Proof.
  destruct (CreateRepo_then_InspectRepo
              (@rev Repo.t) exampleDB "logs_2" (Some 8)
              (fun t => Permutation_sym (Permutation_rev t)) eq_refl eq_refl)
    as (H1 & H2 & H3 & H4).
  split; [exact H1|]. split; [exact H2|].
  split; [rewrite H3; [reflexivity | discriminate] | exact H4].
Defined.
